(** * helpers/weather.js: a shallow embedding

    The module resolves a free-text place name to coordinates, fetches the
    current conditions and a forecast, and summarises the forecast per
    local calendar day.

    Modelling conventions.
    - A JavaScript string is a [string]: a sequence of code units, each an
      [ascii] read as the code point U+0000..U+00FF.  The character
      classes ([\s], [\w], [A-Za-z]) and [toLowerCase] are those of
      ECMAScript restricted to that range.
    - A JSON number is a finite double, hence a rational: it is a [Q], and
      [===], [Math.min], [Math.max] are [Qeq_bool], [Qmin], [Qmax].
      Timestamps and offsets are integers ([Z]).
    - An optional property ([state?], [main?.temp_min], ...) is an
      [option]; [None] stands for both [undefined] and [null].
    - A [Map] whose iteration order matters is an association list in
      insertion order.
    - The network and the clock are explicit: [getWeather] runs in a small
      monad that logs every request and may throw.
    - The parsed body of a weather response is an object or [null]: an
      [option] of the record of its fields, [None] for [null].  Reading a
      property of [null] throws a [TypeError]. *)

From Stdlib Require Import List String Ascii Bool Arith PeanoNat Lia.
From Stdlib Require Import ZArith QArith Qminmax DecimalString.
From Stdlib Require Import Sorted Permutation.
Import ListNotations.
Local Close Scope Q_scope.
Local Open Scope list_scope.
Local Open Scope string_scope.
Local Open Scope nat_scope.

Set Implicit Arguments.

(** ** Characters *)

Definition comma : ascii := ","%char.
Definition space : ascii := " "%char.

(** [\s] and the characters removed by [trim]: TAB, LF, VT, FF, CR, SP and
    NBSP (the members of WhiteSpace and LineTerminator below U+0100). *)
Definition is_ws (c : ascii) : bool :=
  let n := nat_of_ascii c in
  ((9 <=? n) && (n <=? 13)) || (n =? 32) || (n =? 160).

Definition is_upper (c : ascii) : bool :=
  let n := nat_of_ascii c in (65 <=? n) && (n <=? 90).

Definition is_lower (c : ascii) : bool :=
  let n := nat_of_ascii c in (97 <=? n) && (n <=? 122).

(** [[A-Za-z]] *)
Definition is_alpha (c : ascii) : bool := is_upper c || is_lower c.

(** [\w], that is [[A-Za-z0-9_]] *)
Definition is_word (c : ascii) : bool :=
  let n := nat_of_ascii c in
  is_alpha c || ((48 <=? n) && (n <=? 57)) || (n =? 95).

(** [toLowerCase] on one code unit: A-Z, and the Latin-1 capitals
    U+00C0..U+00DE except the multiplication sign U+00D7. *)
Definition lower_char (c : ascii) : ascii :=
  let n := nat_of_ascii c in
  if is_upper c then ascii_of_nat (n + 32)
  else if (192 <=? n) && (n <=? 222) && negb (n =? 215) then ascii_of_nat (n + 32)
  else c.

(** [toUpperCase] on one code unit, for the ASCII letters; the module only
    upper-cases a token that passed [/^[A-Za-z]{2}$/]. *)
Definition upper_char (c : ascii) : ascii :=
  if is_lower c then ascii_of_nat (nat_of_ascii c - 32) else c.

(** ** Strings *)

Fixpoint smap (f : ascii -> ascii) (s : string) : string :=
  match s with
  | EmptyString => EmptyString
  | String c t => String (f c) (smap f t)
  end.

Definition toLowerCase : string -> string := smap lower_char.
Definition toUpperCase : string -> string := smap upper_char.

Fixpoint sall (p : ascii -> bool) (s : string) : bool :=
  match s with
  | EmptyString => true
  | String c t => p c && sall p t
  end.

(** Truthiness of a string: non-empty. *)
Definition truthy (s : string) : bool :=
  match s with EmptyString => false | _ => true end.

(** [trimStart] *)
Fixpoint trimStart (s : string) : string :=
  match s with
  | EmptyString => EmptyString
  | String c t => if is_ws c then trimStart t else s
  end.

(** [trimEnd]: the string without its final run of white space. *)
Fixpoint trimEnd (s : string) : string :=
  match s with
  | EmptyString => EmptyString
  | String c t =>
      match trimEnd t with
      | EmptyString => if is_ws c then EmptyString else String c EmptyString
      | t' => String c t'
      end
  end.

(** [String.prototype.trim] *)
Definition trim (s : string) : string := trimEnd (trimStart s).

(** [s.startsWith(p)] *)
Fixpoint startsWith (p s : string) : bool :=
  match p, s with
  | EmptyString, _ => true
  | String a p', String b s' => Ascii.eqb a b && startsWith p' s'
  | String _ _, EmptyString => false
  end.

(** [s.includes(sub)] *)
Fixpoint includes (s sub : string) : bool :=
  startsWith sub s ||
  match s with
  | EmptyString => false
  | String _ t => includes t sub
  end.

(** [s.split(sep)] for a one-character separator; never empty. *)
Fixpoint split (sep : ascii) (s : string) : list string :=
  match s with
  | EmptyString => [EmptyString]
  | String c t =>
      if Ascii.eqb c sep then EmptyString :: split sep t
      else match split sep t with
           | h :: r => String c h :: r
           | [] => [String c EmptyString]
           end
  end.

(** [arr.join(sep)] *)
Fixpoint join (sep : string) (l : list string) : string :=
  match l with
  | [] => EmptyString
  | [x] => x
  | x :: r => x ++ sep ++ join sep r
  end.

(** ** Global regular-expression replacement

    [s.replace(/re/g, rep)] scans [s] from the left: where the expression
    matches, the replacement is emitted and the scan resumes after the
    match; elsewhere the character is copied.  [match_at s] is the input
    left after a match anchored at the head of [s].  Both expressions used
    here consume at least one character, so [length s] steps suffice. *)
Section Replace.
Variable match_at : string -> option string.
Variable rep : string.

Fixpoint replace_fuel (n : nat) (s : string) : string :=
  match n with
  | O => EmptyString
  | S n' =>
      match match_at s with
      | Some rest => rep ++ replace_fuel n' rest
      | None =>
          match s with
          | EmptyString => EmptyString
          | String c t => String c (replace_fuel n' t)
          end
      end
  end.

Definition replace_all (s : string) : string :=
  replace_fuel (S (String.length s)) s.
End Replace.

(** [/\s*,\s*/] anchored at the head: the greedy first [\s*] takes the
    whole run of white space; giving characters back cannot help, since a
    white-space character is not a comma. *)
Definition match_comma (s : string) : option string :=
  match trimStart s with
  | String c r => if Ascii.eqb c comma then Some (trimStart r) else None
  | EmptyString => None
  end.

(** [/\s+/] anchored at the head. *)
Definition match_spaces (s : string) : option string :=
  match s with
  | String c t => if is_ws c then Some (trimStart t) else None
  | EmptyString => None
  end.

(** [s.replace(/\s*,\s*/g, ", ")] *)
Definition replace_commas : string -> string := replace_all match_comma ", ".

(** [s.replace(/\s+/g, " ")] *)
Definition collapse_spaces : string -> string := replace_all match_spaces " ".

(** Normalize commas/spaces so "Seattle,WA" and "Seattle,  WA" behave. *)
Definition normalizePlace (input : string) : string :=
  collapse_spaces (replace_commas (trim input)).

(** The trimmed, non-empty comma-separated parts of a query:
    [q.split(",").map((p) => p.trim()).filter(Boolean)]. *)
Definition parts (q : string) : list string :=
  filter truthy (map trim (split comma q)).

(** [/^[A-Za-z]{2}$/.test(s)] *)
Definition two_letters (s : string) : bool :=
  match s with
  | String a (String b EmptyString) => is_alpha a && is_alpha b
  | _ => false
  end.

(** If it looks like "City, ST" (two-letter state), try appending ", US". *)
Definition maybeAppendUS (q : string) : string :=
  match parts q with
  | [p0; p1] =>
      if two_letters p1 then p0 ++ ", " ++ toUpperCase p1 ++ ", US" else q
  | _ => q
  end.

(** ** Geocoder matches *)

(** [{ name, state?, country, lat, lon }] *)
Record GeoMatch := mkGeo {
  name : string;
  state : option string;
  country : string;
  lat : Q;
  lon : Q
}.

(** [a ?? b] *)
Definition orElse {A} (a : option A) (b : A) : A :=
  match a with Some x => x | None => b end.

(** [x.lat === g.lat && x.lon === g.lon] *)
Definition same_coords (x g : GeoMatch) : bool :=
  Qeq_bool (lat x) (lat g) && Qeq_bool (lon x) (lon g).

(** [arr.findIndex(p)]; [None] is [-1]. *)
Fixpoint findIndex {A} (p : A -> bool) (l : list A) : option nat :=
  match l with
  | [] => None
  | x :: r => if p x then Some 0 else option_map S (findIndex p r)
  end.

(** [arr.filter((g, i) => p(g, i))], the index counted from [i]. *)
Fixpoint filter_from {A} (p : A -> nat -> bool) (i : nat) (l : list A) : list A :=
  match l with
  | [] => []
  | x :: r => if p x i then x :: filter_from p (S i) r else filter_from p (S i) r
  end.

(** Dedupe exact duplicates OpenWeather sometimes returns (same lat/lon). *)
Definition dedupeGeo (results : list GeoMatch) : list GeoMatch :=
  filter_from
    (fun g i =>
       match findIndex (fun x => same_coords x g) results with
       | Some j => i =? j
       | None => false
       end)
    0 results.

(** Try to pick the best match when user already included specificity
    (state/country).  The result is [None] for [undefined]. *)
Definition pickBestGeoMatch (query : string) (geoResults : list GeoMatch)
  : option GeoMatch :=
  let q := toLowerCase query in
  let ps := parts query in
  let maybeState := match nth_error ps 1 with Some p => toLowerCase p | None => EmptyString end in
  let maybeCountry := match nth_error ps 2 with Some p => toLowerCase p | None => EmptyString end in
  let stateHit :=
    if truthy maybeState
    then find (fun g => String.eqb (toLowerCase (orElse (state g) EmptyString)) maybeState)
           geoResults
    else None in
  match stateHit with
  | Some g => Some g
  | None =>
      let countryHit :=
        if truthy maybeCountry && (String.length maybeCountry <=? 3)
        then find (fun g => String.eqb (toLowerCase (country g)) maybeCountry)
               geoResults
        else None in
      match countryHit with
      | Some g => Some g
      | None =>
          let stateNameHit :=
            find (fun g =>
                    let st := toLowerCase (orElse (state g) EmptyString) in
                    truthy st && includes q st)
              geoResults in
          match stateNameHit with
          | Some g => Some g
          | None => nth_error geoResults 0
          end
      end
  end.

(** ** Dates *)

(** [String(n)] for an integer. *)
Definition string_of_Z (z : Z) : string := NilZero.string_of_int (Z.to_int z).
Definition string_of_nat (n : nat) : string := NilZero.string_of_uint (Nat.to_uint n).

(** [s.padStart(2, "0")] *)
Definition padStart2 (s : string) : string :=
  match s with
  | EmptyString => "00"
  | String c EmptyString => String "0" s
  | _ => s
  end.

(** Year, month (1..12) and day of the month of a day number counted from
    1970-01-01 in the proleptic Gregorian calendar: what [getUTCFullYear],
    [getUTCMonth() + 1] and [getUTCDate] return for a time value. *)
Definition civil_from_days (days : Z) : Z * Z * Z :=
  let z := (days + 719468)%Z in
  let era := (z / 146097)%Z in
  let doe := (z - era * 146097)%Z in
  let yoe := ((doe - doe / 1460 + doe / 36524 - doe / 146096) / 365)%Z in
  let doy := (doe - (365 * yoe + yoe / 4 - yoe / 100))%Z in
  let mp := ((5 * doy + 2) / 153)%Z in
  let d := (doy - (153 * mp + 2) / 5 + 1)%Z in
  let m := (if mp <? 10 then mp + 3 else mp - 9)%Z in
  let y := (yoe + era * 400 + (if m <=? 2 then 1 else 0))%Z in
  (y, m, d).

(** A [Date] holds a time value of at most 8.64e15 ms in absolute value;
    beyond it the date is invalid and every getter returns [NaN]. *)
Definition dayKeyFromUtcWithOffset (dtSeconds tzOffsetSeconds : Z) : string :=
  let localMs := ((dtSeconds + tzOffsetSeconds) * 1000)%Z in
  if (Z.abs localMs <=? 8640000000000000)%Z then
    let '(y, m, day) := civil_from_days (localMs / 86400000)%Z in
    string_of_Z y ++ "-" ++ padStart2 (string_of_Z m) ++ "-" ++ padStart2 (string_of_Z day)
  else "NaN-NaN-NaN".

(** ** Forecast summary *)

Record Main := mkMain {
  temp : option Q;
  temp_min : option Q;
  temp_max : option Q
}.

Record Weather := mkWeather { description : option string }.

(** One point of the forecast list. *)
Record ForecastItem := mkItem {
  dt : Z;
  main : option Main;
  weather : option (list Weather);
  pop : option Q  (* [Some] exactly when [typeof item.pop === "number"] *)
}.

Record Agg := mkAgg {
  agg_min : Q;
  agg_max : Q;
  descCounts : list (string * nat);
  popMax : Q
}.

Record DaySummary := mkDay {
  label : string;
  day_min : Q;
  day_max : Q;
  desc : string;
  day_pop : Q
}.

(** [item.main?.temp_min ?? item.main?.temp ?? null] *)
Definition item_min (item : ForecastItem) : option Q :=
  match main item with
  | Some m => match temp_min m with Some x => Some x | None => temp m end
  | None => None
  end.

(** [item.main?.temp_max ?? item.main?.temp ?? null] *)
Definition item_max (item : ForecastItem) : option Q :=
  match main item with
  | Some m => match temp_max m with Some x => Some x | None => temp m end
  | None => None
  end.

(** [item.weather?.[0]?.description ?? "unknown"] *)
Definition item_desc (item : ForecastItem) : string :=
  match weather item with
  | Some (w :: _) => orElse (description w) "unknown"
  | _ => "unknown"
  end.

(** [typeof item.pop === "number" ? item.pop : 0] *)
Definition item_pop (item : ForecastItem) : Q := orElse (pop item) 0%Q.

(** [Map] with string keys, in insertion order. *)
Section StrMap.
Variable V : Type.

Fixpoint map_get (k : string) (m : list (string * V)) : option V :=
  match m with
  | [] => None
  | (k', v) :: r => if String.eqb k' k then Some v else map_get k r
  end.

(** [m.set(k, v)]: an existing key keeps its position. *)
Fixpoint map_set (k : string) (v : V) (m : list (string * V)) : list (string * V) :=
  match m with
  | [] => [(k, v)]
  | (k', v') :: r =>
      if String.eqb k' k then (k', v) :: r else (k', v') :: map_set k v r
  end.

Definition map_keys (m : list (string * V)) : list string := map fst m.
End StrMap.

(** [arr.sort()] on strings: ascending by code units.  The keys sorted
    here are pairwise distinct, so the result does not depend on the
    algorithm; insertion sort stands for it. *)
Fixpoint insert_sorted (k : string) (l : list string) : list string :=
  match l with
  | [] => [k]
  | h :: t => if String.leb k h then k :: l else h :: insert_sorted k t
  end.

Definition sort_strings (l : list string) : list string :=
  fold_right insert_sorted [] l.

(** [arr.slice(0, n)]: a negative [n] counts from the end. *)
Definition slice0 {A} (n : Z) (l : list A) : list A :=
  let len := Z.of_nat (List.length l) in
  let e := (if n <? 0 then Z.max (len + n) 0 else Z.min n len)%Z in
  firstn (Z.to_nat e) l.

(** The body of the loop over the forecast points.  A bucket is created on
    the first point kept for its day and updated in place afterwards. *)
Definition add_item (tzOffsetSeconds : Z) (byDay : list (string * Agg))
    (item : ForecastItem) : list (string * Agg) :=
  let key := dayKeyFromUtcWithOffset (dt item) tzOffsetSeconds in
  match item_min item, item_max item with
  | Some mn, Some mx =>
      let agg := orElse (map_get key byDay) (mkAgg mn mx [] 0%Q) in
      let d := item_desc item in
      map_set key
        (mkAgg (Qmin (agg_min agg) mn)
               (Qmax (agg_max agg) mx)
               (map_set d (orElse (map_get d (descCounts agg)) 0 + 1) (descCounts agg))
               (Qmax (popMax agg) (item_pop item)))
        byDay
  | _, _ => byDay
  end.

Definition build_days (tzOffsetSeconds : Z) (items : list ForecastItem)
  : list (string * Agg) :=
  fold_left (add_item tzOffsetSeconds) items [].

(** The loop choosing the most frequent description: a later entry wins
    only with a strictly larger count. *)
Definition top_desc (counts : list (string * nat)) : string :=
  fst (fold_left
         (fun top dc => if snd top <? snd dc then dc else top)
         counts ("mixed conditions", 0)).

(** The keys whose summaries are returned; [now] is
    [Math.floor(Date.now() / 1000)]. *)
Definition chosen_keys (byDay : list (string * Agg)) (tzOffsetSeconds days now : Z)
  : list string :=
  let nowKey := dayKeyFromUtcWithOffset now tzOffsetSeconds in
  let keys := sort_strings (map_keys byDay) in
  let futureKeys := filter (fun k => negb (String.eqb k nowKey)) keys in
  slice0 days (match futureKeys with [] => keys | _ => futureKeys end).

Section Summarize.
(** [labelFromKey] formats through [toLocaleDateString]; its result
    depends on the host and is kept abstract. *)
Variable labelFromKey : string -> string.

Definition summary_of (k : string) (agg : Agg) : DaySummary :=
  mkDay (labelFromKey k) (agg_min agg) (agg_max agg)
        (top_desc (descCounts agg)) (popMax agg).

(** [chosen.map((k) => ...)]; [byDay.get(k)] is defined for every
    chosen key. *)
Definition summarize_keys (byDay : list (string * Agg)) (chosen : list string)
  : list DaySummary :=
  flat_map (fun k =>
              match map_get k byDay with
              | Some agg => [summary_of k agg]
              | None => []
              end) chosen.

Definition summarizeForecast (items : list ForecastItem)
    (tzOffsetSeconds days now : Z) : list DaySummary :=
  let byDay := build_days tzOffsetSeconds items in
  summarize_keys byDay (chosen_keys byDay tzOffsetSeconds days now).
End Summarize.

(** ** The network *)

Inductive Request :=
| GeoRequest (q : string) (limit : nat) (appid : string)
| CurrentRequest (lat lon : Q) (appid : string)
| ForecastRequest (lat lon : Q) (appid : string).

(** What [fetch] resolves to: [res.ok], [res.status], [res.text()] and
    [res.json()], the last two [None] when their promise rejects. *)
Record Response (A : Type) := mkResponse {
  res_ok : bool;
  res_status : nat;
  res_text : option string;
  res_json : option A
}.

Inductive Fetched (A : Type) :=
| Rejected
| Resolved (r : Response A).
Arguments Rejected {A}.

(** What is thrown, by origin: an [Error] made by the module, the reason
    [fetch] rejected with (the platform's [TypeError] for a network
    failure), the reason [res.json()] rejected with, and the [TypeError]
    of a property read on [undefined] or [null] in the module itself. *)
Inductive Thrown :=
| Error (message : string)
| FetchRejected
| JsonRejected
| TypeError.

Inductive Outcome (A : Type) :=
| Throw (e : Thrown)
| Value (a : A).
Arguments Throw {A} e.

(** A computation logs the requests it sends and either throws or
    returns. *)
Definition M (A : Type) : Type := list Request -> Outcome A * list Request.

Definition ret {A} (a : A) : M A := fun log => (Value a, log).
Definition throw {A} (e : Thrown) : M A := fun log => (Throw e, log).
Definition bind {A B} (m : M A) (k : A -> M B) : M B :=
  fun log =>
    match m log with
    | (Value a, log') => k a log'
    | (Throw e, log') => (Throw e, log')
    end.
Definition send (r : Request) : M unit := fun log => (Value tt, (log ++ [r])%list).

Notation "x <- m ;; k" := (bind m (fun x => k))
  (at level 61, m at next level, right associativity).
Notation "m ;;; k" := (bind m (fun _ => k))
  (at level 61, right associativity).

(** [s.slice(0, n)] on a string. *)
Fixpoint sslice0 (n : nat) (s : string) : string :=
  match n, s with
  | S n', String c t => String c (sslice0 n' t)
  | _, _ => EmptyString
  end.

Definition fetchJson {A} (req : Request) (answer : Fetched A) : M A :=
  send req ;;;
  match answer with
  | Rejected => throw FetchRejected
  | Resolved res =>
      if negb (res_ok res) then
        let text := orElse (res_text res) EmptyString in
        throw (Error ("HTTP " ++ string_of_nat (res_status res)
                        ++ " calling OpenWeather. " ++ sslice0 200 text))
      else
        match res_json res with
        | Some v => ret v
        | None => throw JsonRejected
        end
  end.

(** ** getWeather *)

Record CurMain := mkCurMain {
  cur_temp : option Q;
  feels_like : option Q;
  humidity : option Q
}.

Record Wind := mkWind { speed : option Q }.

(** The current-conditions response. *)
Record Current := mkCurrent {
  cur_main : option CurMain;
  cur_wind : option Wind;
  cur_weather : option (list Weather);
  timezone : option Z
}.

(** The forecast response; [city_timezone] is its own UTC offset. *)
Record Forecast := mkForecast {
  fc_list : option (list ForecastItem);
  city_timezone : option Z
}.

(** What the geocoder's body parses to. *)
Inductive GeoJson :=
| GeoArray (l : list GeoMatch)
| GeoOther.

Record Snapshot := mkSnapshot {
  snap_temp : option Q;
  snap_feels : option Q;
  snap_humidity : option Q;
  snap_wind : option Q;
  snap_desc : string
}.

(** [{ ok: false, message }] or [{ ok: true, location, current, nextDays }] *)
Inductive Result :=
| Failure (message : string)
| Success (location : string) (current : Snapshot) (nextDays : list DaySummary).

(** The answers of the three endpoints and the clock
    ([Math.floor(Date.now() / 1000)]). *)
Record World := mkWorld {
  geo_api : string -> Fetched GeoJson;
  current_api : Q -> Q -> Fetched (option Current);
  forecast_api : Q -> Q -> Fetched (option Forecast);
  clock : Z
}.

Definition dquote : string := String (ascii_of_nat 34) EmptyString.
Definition newline : string := String (ascii_of_nat 10) EmptyString.

Definition assertApiKey (API_KEY : option string) : M unit :=
  if negb (truthy (orElse API_KEY EmptyString)) then
    throw (Error "Missing OPENWEATHER_KEY env var. Add it to GitHub Secrets (Codespaces).")
  else ret tt.

(** [[...new Set(l)]]: the first occurrence of each string, in order. *)
Fixpoint uniq (l : list string) : list string :=
  match l with
  | [] => []
  | x :: r => x :: filter (fun y => negb (String.eqb y x)) (uniq r)
  end.

Definition candidates (normalized : string) : list string :=
  uniq [normalized; maybeAppendUS normalized; normalized ++ ", US"].

(** [arr.map((g, i) => f(g, i))], the index counted from [i]. *)
Fixpoint map_from {A B} (f : A -> nat -> B) (i : nat) (l : list A) : list B :=
  match l with
  | [] => []
  | x :: r => f x i :: map_from f (S i) r
  end.

(** [`, ${g.state}`] when the state is truthy. *)
Definition state_suffix (g : GeoMatch) : string :=
  match state g with
  | Some st => if truthy st then ", " ++ st else EmptyString
  | None => EmptyString
  end.

Definition option_line (g : GeoMatch) (i : nat) : string :=
  "**" ++ string_of_nat (i + 1) ++ ".** " ++ name g ++ state_suffix g
       ++ ", " ++ country g.

Definition ambiguous_message (place : string) (geo : list GeoMatch) : string :=
  "I found multiple matches for **" ++ place ++ "**:" ++ newline
    ++ join newline (map_from option_line 0 (firstn 3 geo)) ++ newline ++ newline
    ++ "Try adding state/country (ex: " ++ dquote ++ "Houston, TX, US" ++ dquote
    ++ " or " ++ dquote ++ "Paris, FR" ++ dquote ++ ").".

Definition not_found_message (place : string) : string :=
  "Couldn't find **" ++ place ++ "**. Try " ++ dquote ++ "Seattle, WA, US" ++ dquote
    ++ " or " ++ dquote ++ "Paris, FR" ++ dquote ++ ".".

(** Case folding of [/.../i] against an ASCII pattern character. *)
Definition startsWith_ci (p s : string) : bool :=
  startsWith (toUpperCase p) (toUpperCase s).

Fixpoint includes_ci (s p : string) : bool :=
  startsWith_ci p s ||
  match s with
  | EmptyString => false
  | String _ t => includes_ci t p
  end.

(** [/\bus\b/i]: "us" between two word boundaries.  [prev_word] tells
    whether the character before the head of [s] is a word character. *)
Fixpoint us_token (prev_word : bool) (s : string) : bool :=
  match s with
  | EmptyString => false
  | String c t =>
      (negb prev_word && startsWith_ci "us" s &&
         match t with
         | String _ (String d _) => negb (is_word d)
         | _ => true
         end)
      || us_token (is_word c) t
  end.

(** [normalized.includes(",") || /united states|usa|\bus\b/i.test(normalized)] *)
Definition seemsSpecific (normalized : string) : bool :=
  includes normalized "," ||
  (includes_ci normalized "united states" || includes_ci normalized "usa"
     || us_token false normalized).

Section GetWeather.
Variable labelFromKey : string -> string.
Variable API_KEY : option string.
Variable w : World.

Definition appid : string := orElse API_KEY EmptyString.

(** The loop over the candidate queries: the first non-empty array
    wins. *)
Fixpoint geocode (cands : list string) : M (option (list GeoMatch)) :=
  match cands with
  | [] => ret None
  | q :: rest =>
      attempt <- fetchJson (GeoRequest q 5 appid) (geo_api w q) ;;
      match attempt with
      | GeoArray (x :: l) => ret (Some (dedupeGeo (x :: l)))
      | _ => geocode rest
      end
  end.

(** Both responses are awaited before either body is read: [cur.timezone]
    and then [forecast.list] throw on a [null] body. *)
Definition weatherFor (loc : GeoMatch) : M Result :=
  let locName := name loc ++ state_suffix loc ++ ", " ++ country loc in
  cur <- fetchJson (CurrentRequest (lat loc) (lon loc) appid)
                   (current_api w (lat loc) (lon loc)) ;;
  forecast <- fetchJson (ForecastRequest (lat loc) (lon loc) appid)
                        (forecast_api w (lat loc) (lon loc)) ;;
  match cur with
  | None => throw TypeError
  | Some cur =>
      let tzOffsetSeconds := orElse (timezone cur) 0%Z in
      let current :=
        mkSnapshot
          (match cur_main cur with Some m => cur_temp m | None => None end)
          (match cur_main cur with Some m => feels_like m | None => None end)
          (match cur_main cur with Some m => humidity m | None => None end)
          (match cur_wind cur with Some x => speed x | None => None end)
          (match cur_weather cur with
           | Some (x :: _) => orElse (description x) "unknown"
           | _ => "unknown"
           end) in
      match forecast with
      | None => throw TypeError
      | Some forecast =>
          let nextDays :=
            summarizeForecast labelFromKey (orElse (fc_list forecast) [])
              tzOffsetSeconds 3 (clock w) in
          ret (Success locName current nextDays)
      end
  end.

Definition getWeather (place : string) : M Result :=
  assertApiKey API_KEY ;;;
  let normalized := normalizePlace place in
  geo <- geocode (candidates normalized) ;;
  match geo with
  | None | Some [] => ret (Failure (not_found_message place))
  | Some [loc] => weatherFor loc
  | Some geo =>
      if seemsSpecific normalized then
        match pickBestGeoMatch normalized geo with
        | Some loc => weatherFor loc
        | None => throw TypeError
        end
      else ret (Failure (ambiguous_message place geo))
  end.
End GetWeather.

(** * Specifications *)

Unset Implicit Arguments.

(** ** Shapes of normalized place strings *)

Definition head_ws (s : string) : bool :=
  match s with String c _ => is_ws c | EmptyString => false end.

(** The first character is neither white space nor a comma. *)
Definition head_plain (s : string) : bool :=
  match s with
  | String c _ => negb (is_ws c) && negb (Ascii.eqb c comma)
  | EmptyString => false
  end.

(** After the comma pass: every comma is followed by exactly one space and
    then by no white space; every other run of white space ends at a
    character that is neither white space nor a comma. *)
Inductive comma_normal : string -> Prop :=
| cn_nil : comma_normal EmptyString
| cn_comma t :
    head_ws t = false -> comma_normal t ->
    comma_normal (String comma (String space t))
| cn_ws c t :
    is_ws c = true -> head_plain (trimStart t) = true -> comma_normal t ->
    comma_normal (String c t)
| cn_plain c t :
    is_ws c = false -> c <> comma -> comma_normal t ->
    comma_normal (String c t).

(** After both passes: white space only occurs as one space, either right
    after a comma or between two characters that are neither white space
    nor commas. *)
Inductive normal : string -> Prop :=
| nf_nil : normal EmptyString
| nf_comma t :
    head_ws t = false -> normal t ->
    normal (String comma (String space t))
| nf_gap t :
    head_plain t = true -> normal t ->
    normal (String space t)
| nf_plain c t :
    is_ws c = false -> c <> comma -> normal t ->
    normal (String c t).

(** The characters of a string that are not white space. *)
Fixpoint strip_ws (s : string) : string :=
  match s with
  | EmptyString => EmptyString
  | String c t => if is_ws c then strip_ws t else String c (strip_ws t)
  end.

(** Every white-space character is a space that no white space follows. *)
Fixpoint single_spaced (s : string) : bool :=
  match s with
  | EmptyString => true
  | String c t =>
      (negb (is_ws c) || (Ascii.eqb c space && negb (head_ws t)))
      && single_spaced t
  end.

(** Every comma is followed by a space. *)
Fixpoint comma_spaced (s : string) : bool :=
  match s with
  | EmptyString => true
  | String c t =>
      (negb (Ascii.eqb c comma)
       || match t with String d _ => Ascii.eqb d space | EmptyString => false end)
      && comma_spaced t
  end.

(** No comma occurs in the string. *)
Definition comma_free (s : string) : bool :=
  sall (fun c => negb (Ascii.eqb c comma)) s.

(** ** Deduplication, by the matches met earlier *)

(** Some match of [earlier] has the coordinates of [g]. *)
Definition seen_before (earlier : list GeoMatch) (g : GeoMatch) : bool :=
  existsb (fun x => same_coords x g) earlier.

(** A match is dropped when an earlier match has its coordinates, and kept
    otherwise; [earlier] are the matches already passed, in order. *)
Fixpoint dedupe_seen (earlier l : list GeoMatch) : list GeoMatch :=
  match l with
  | [] => []
  | g :: r =>
      if seen_before earlier g then dedupe_seen (earlier ++ [g])%list r
      else g :: dedupe_seen (earlier ++ [g])%list r
  end.

(** ** The rules of the best-match selection *)

(** Rule 1: the second part of the query, in lower case, is the state of
    the match in lower case. *)
Definition state_rule (query : string) (g : GeoMatch) : Prop :=
  exists p st,
    nth_error (parts query) 1 = Some p /\ state g = Some st
    /\ toLowerCase st = toLowerCase p.

(** Rule 2: the third part of the query, in lower case, has at most three
    characters and is the country code of the match in lower case. *)
Definition country_rule (query : string) (g : GeoMatch) : Prop :=
  exists p,
    nth_error (parts query) 2 = Some p
    /\ String.length (toLowerCase p) <= 3
    /\ toLowerCase (country g) = toLowerCase p.

(** Rule 3: the query in lower case contains the non-empty state name of
    the match in lower case. *)
Definition state_name_rule (query : string) (g : GeoMatch) : Prop :=
  exists st a b,
    state g = Some st /\ st <> EmptyString
    /\ toLowerCase query = a ++ toLowerCase st ++ b.

(** [g] is the first element of [l] that satisfies [P]. *)
Definition first_hit {A} (P : A -> Prop) (l : list A) (g : A) : Prop :=
  exists l1 l2, l = (l1 ++ g :: l2)%list /\ P g /\ forall x, In x l1 -> ~ P x.

Definition no_hit {A} (P : A -> Prop) (l : list A) : Prop :=
  forall x, In x l -> ~ P x.

(** ** Answers of the network *)

(** The request succeeded and its body parsed to [v]. *)
Definition answered {A} (f : Fetched A) (v : A) : Prop :=
  exists status text, f = Resolved (mkResponse true status text (Some v)).

(** The geocoder found nothing for [q]: an empty array, or no array. *)
Definition geo_nothing (w : World) (q : string) : Prop :=
  answered (geo_api w q) GeoOther \/ answered (geo_api w q) (GeoArray []).

(** [q] is the first candidate with a non-empty answer, [l]. *)
Definition first_answer (w : World) (cands : list string) (q : string)
    (l : list GeoMatch) : Prop :=
  exists before after,
    cands = (before ++ q :: after)%list
    /\ (forall q', In q' before -> geo_nothing w q')
    /\ answered (geo_api w q) (GeoArray l)
    /\ l <> [].

(** The credential is set: [API_KEY] is truthy. *)
Definition key_set (API_KEY : option string) : Prop :=
  exists k, API_KEY = Some k /\ k <> EmptyString.

(** An option line in the format "<rank>. <name>[, <state>], <country>". *)
Definition plain_option_line (g : GeoMatch) (i : nat) : string :=
  string_of_nat (i + 1) ++ ". " ++ name g ++ state_suffix g ++ ", " ++ country g.

(** The location the weather is fetched for: the only match, or the best
    match of a query that seems specific. *)
Definition resolved_location (normalized : string) (geo : list GeoMatch)
    (loc : GeoMatch) : Prop :=
  geo = [loc]
  \/ (1 < List.length geo /\ seemsSpecific normalized = true
      /\ pickBestGeoMatch normalized geo = Some loc).

Definition missing_key_error : Thrown :=
  Error "Missing OPENWEATHER_KEY env var. Add it to GitHub Secrets (Codespaces).".

(** ** A sample world *)

Definition springfield_il : GeoMatch :=
  mkGeo "Springfield" (Some "Illinois") "US" (397990 # 10000) (-896440 # 10000).
Definition springfield_mo : GeoMatch :=
  mkGeo "Springfield" (Some "Missouri") "US" (372153 # 10000) (-932982 # 10000).
Definition springfield_dup : GeoMatch :=
  mkGeo "SPRINGFIELD" (Some "Illinois") "US" (39799 # 1000) (-89644 # 1000).
Definition springfield_ma : GeoMatch :=
  mkGeo "Springfield" (Some "Massachusetts") "US" (421015 # 10000) (-725898 # 10000).
Definition springfield_or : GeoMatch :=
  mkGeo "Springfield" None "US" (440462 # 10000) (-1230220 # 10000).
Definition seattle : GeoMatch :=
  mkGeo "Seattle" (Some "Washington") "US" (476038 # 10000) (-1223301 # 10000).

Definition ok_response {A} (v : A) : Fetched A :=
  Resolved (mkResponse true 200 None (Some v)).

Definition sample_point (t : Z) (lo hi : Q) (d : string) (p : Q) : ForecastItem :=
  mkItem t (Some (mkMain None (Some lo) (Some hi)))
    (Some [mkWeather (Some d)]) (Some p).

(** Three-hourly points from 2024-01-05T21:00Z on; the clock reads
    2024-01-05T20:00Z.  The current conditions carry no offset, the
    forecast carries one of its own. *)
Definition sample_forecast : list ForecastItem :=
  [ sample_point 1704488400 (41 # 1) (44 # 1) "light rain" (6 # 10);
    sample_point 1704499200 (39 # 1) (42 # 1) "overcast clouds" (1 # 10);
    sample_point 1704510000 (38 # 1) (40 # 1) "light rain" (3 # 10);
    sample_point 1704585600 (36 # 1) (45 # 1) "clear sky" (0 # 1) ].

Definition sample_world : World :=
  mkWorld
    (fun q =>
       if String.eqb q "Springfield" then
         ok_response (GeoArray [springfield_il; springfield_mo; springfield_dup;
                                springfield_ma; springfield_or])
       else if String.eqb q "Seattle, WA, US" then ok_response (GeoArray [seattle])
       else ok_response (GeoArray []))
    (fun _ _ =>
       ok_response
         (Some
            (mkCurrent (Some (mkCurMain (Some (43 # 1)%Q) (Some (40 # 1)%Q) (Some (81 # 1)%Q)))
               (Some (mkWind (Some (7 # 1)%Q)))
               (Some [mkWeather (Some "light rain")])
               None)))
    (fun _ _ => ok_response (Some (mkForecast (Some sample_forecast) (Some (-28800)%Z))))
    1704484800.

(** ** Forecast points and days *)

(** The point has both a minimum and a maximum after the fall back to its
    own temperature. *)
Definition kept (item : ForecastItem) : bool :=
  match item_min item, item_max item with
  | Some _, Some _ => true
  | _, _ => false
  end.

Definition day_of (tz : Z) (item : ForecastItem) : string :=
  dayKeyFromUtcWithOffset (dt item) tz.

(** The points that count for the day [k], in the order of the list. *)
Definition day_points (tz : Z) (k : string) (items : list ForecastItem)
  : list ForecastItem :=
  filter (fun it => kept it && String.eqb (day_of tz it) k) items.

(** What one kept point does to the aggregate of its day. *)
Definition fold_point (acc : option Agg) (item : ForecastItem) : option Agg :=
  match item_min item, item_max item with
  | Some mn, Some mx =>
      let agg := orElse acc (mkAgg mn mx [] 0%Q) in
      let d := item_desc item in
      Some (mkAgg (Qmin (agg_min agg) mn)
                  (Qmax (agg_max agg) mx)
                  (map_set d (orElse (map_get d (descCounts agg)) 0 + 1)
                     (descCounts agg))
                  (Qmax (popMax agg) (item_pop item)))
  | _, _ => acc
  end.

(** Counting one more occurrence of a description. *)
Definition count_step (m : list (string * nat)) (d : string) : list (string * nat) :=
  map_set d (orElse (map_get d m) 0 + 1) m.

(** Number of occurrences of [d] in [ds]. *)
Definition occurrences (d : string) (ds : list string) : nat :=
  List.length (filter (String.eqb d) ds).

(** No description occurs more often in [ds] than [d]. *)
Definition most_frequent (ds : list string) (d : string) : Prop :=
  forall d', occurrences d' ds <= occurrences d ds.

(** The counts and the peak probability of an aggregate in the making. *)
Definition counts_of (acc : option Agg) : list (string * nat) :=
  match acc with Some a => descCounts a | None => [] end.

Definition pop_of (acc : option Agg) : Q :=
  match acc with Some a => popMax a | None => 0%Q end.

(** The step of the loop of [top_desc]. *)
Definition top_step (top dc : string * nat) : string * nat :=
  if snd top <? snd dc then dc else top.

(** The order of [sort]: by code units, strictly. *)
Definition str_lt (a b : string) : Prop := String.ltb a b = true.
Definition str_le (a b : string) : Prop := String.leb a b = true.

(** The day [k] has a bucket: some kept point falls on it. *)
Definition has_bucket (tz : Z) (items : list ForecastItem) (k : string) : Prop :=
  day_points tz k items <> [].

(** The sorted day keys left once today's bucket is set aside, when
    another bucket exists. *)
Definition remaining_keys (byDay : list (string * Agg)) (nowKey : string)
  : list string :=
  let keys := sort_strings (map_keys byDay) in
  match filter (fun k => negb (String.eqb k nowKey)) keys with
  | [] => keys
  | futureKeys => futureKeys
  end.

(** A point with a minimum of its own and nothing to stand for the
    maximum. *)
Definition min_only_point : ForecastItem :=
  mkItem 1704499200 (Some (mkMain None (Some (50 # 1)%Q) None))
    (Some [mkWeather (Some "clear sky")]) (Some (2 # 10)%Q).

(** ** Calendar order *)

(** The key of the day number [d] (days since 1970-01-01). *)
Definition day_key (d : Z) : string :=
  let '(y, m, day) := civil_from_days d in
  string_of_Z y ++ "-" ++ padStart2 (string_of_Z m) ++ "-" ++ padStart2 (string_of_Z day).

(** A date as one number, year first. *)
Definition ymd_code (t : Z * Z * Z) : Z :=
  let '(y, m, d) := t in (y * 10000 + m * 100 + d)%Z.

(** [f] holds on the [p] integers from [lo] on. *)
Fixpoint all_from (f : Z -> bool) (p : positive) (lo : Z) : bool :=
  match p with
  | xH => f lo
  | xO q => all_from f q lo && all_from f q (lo + Zpos q)
  | xI q => f lo && all_from f q (lo + 1) && all_from f q (lo + 1 + Zpos q)
  end.

(** The date of day [d] is well formed and comes before that of day
    [d + 1]. *)
Definition date_step_ok (d : Z) : bool :=
  let '(y, m, day) := civil_from_days d in
  (1 <=? m)%Z && (m <=? 12)%Z && (1 <=? day)%Z && (day <=? 31)%Z
  && (ymd_code (y, m, day) <? ymd_code (civil_from_days (d + 1)))%Z.

(** The pieces of [civil_from_days]: the first day of the year [y] of a
    400-year period (years start in March), the numerator whose quotient
    by 365 is the year of a day of the period, and the month and day of a
    day of the year. *)
Definition year_start (y : Z) : Z := (365 * y + y / 4 - y / 100)%Z.

Definition year_guess (doe : Z) : Z :=
  (doe - doe / 1460 + doe / 36524 - doe / 146096)%Z.

Definition month_day (doy : Z) : Z * Z :=
  let mp := ((5 * doy + 2) / 153)%Z in
  let d := (doy - (153 * mp + 2) / 5 + 1)%Z in
  let m := (if mp <? 10 then mp + 3 else mp - 9)%Z in
  (m, d).

(** The date of the day [doy] of the March-based year [Y]. *)
Definition date_of (Y doy : Z) : Z * Z * Z :=
  let '(m, d) := month_day doy in ((Y + (if m <=? 2 then 1 else 0))%Z, m, d).

(** The last day of the year [y] of a period; the last year has the
    period's extra day. *)
Definition year_end (y : Z) : Z :=
  (year_start (y + 1) - 1 + (if y =? 399 then 1 else 0))%Z.

(** Month and day as one number, January and February counted with the
    next year. *)
Definition local_code (md : Z * Z) : Z :=
  let '(m, d) := md in ((if m <=? 2 then 10000 else 0) + m * 100 + d)%Z.

(** The quotient is [y] at both ends of the year [y]. *)
Definition year_guess_ok (y : Z) : bool :=
  (365 * y <=? year_guess (year_start y))%Z
  && (year_guess (year_end y) <? 365 * (y + 1))%Z.

(** The month and the day of the day [doy] are well formed and come before
    those of the next day. *)
Definition month_day_ok (doy : Z) : bool :=
  let '(m, d) := month_day doy in
  (1 <=? m)%Z && (m <=? 12)%Z && (1 <=? d)%Z && (d <=? 31)%Z
  && (301 <=? local_code (m, d))%Z && (local_code (m, d) <=? 10229)%Z
  && ((doy =? 365)%Z || (local_code (m, d) <? local_code (month_day (doy + 1)))%Z).

(** A year of four digits is written with four characters and sorts
    before the next. *)
Definition year_step_ok (y : Z) : bool :=
  (String.length (string_of_Z y) =? 4)
  && (String.length (string_of_Z (y + 1)%Z) =? 4)
  && String.ltb (string_of_Z y) (string_of_Z (y + 1)%Z).

(** A month or a day is padded to two characters and sorts before the
    next. *)
Definition pad_step_ok (n : Z) : bool :=
  (String.length (padStart2 (string_of_Z n)) =? 2)
  && (String.length (padStart2 (string_of_Z (n + 1)%Z)) =? 2)
  && String.ltb (padStart2 (string_of_Z n)) (padStart2 (string_of_Z (n + 1)%Z)).

(** The day number of an instant given in seconds. *)
Definition day_number (seconds : Z) : Z := (seconds / 86400)%Z.

(** The instant falls in the years 1000 to 9999. *)
Definition four_digit_year (seconds : Z) : Prop :=
  (-30610224000 <= seconds < 253402300800)%Z.

(** ** Words of the specificity test *)

(** Whether the last character of [a] is a word character; [prev] answers
    for the empty string. *)
Fixpoint ends_word (prev : bool) (a : string) : bool :=
  match a with
  | EmptyString => prev
  | String c t => ends_word (is_word c) t
  end.

Definition head_word (s : string) : bool :=
  match s with String c _ => is_word c | EmptyString => false end.

(** [s] contains [p] up to the case of the ASCII letters. *)
Definition contains_ci (s p : string) : Prop :=
  exists a m b, s = a ++ m ++ b /\ toUpperCase m = toUpperCase p.

(** [s] contains "us", in any case, between two word boundaries. *)
Definition standalone_us (s : string) : Prop :=
  exists a u v b,
    s = a ++ String u (String v b)
    /\ upper_char u = "U"%char /\ upper_char v = "S"%char
    /\ ends_word false a = false /\ head_word b = false.

(** ** The rules read on the raw segments *)

(** The [i]-th piece of the query cut at the commas, trimmed and in lower
    case, empty pieces included. *)
Definition segment (query : string) (i : nat) : option string :=
  option_map (fun s => toLowerCase (trim s)) (nth_error (split comma query) i).

Definition nazareth_pa : GeoMatch :=
  mkGeo "Nazareth" (Some "Pennsylvania") "US" (407404 # 10000) (-753096 # 10000).
Definition nazareth_il : GeoMatch :=
  mkGeo "Nazareth" (Some "North District") "IL" (326996 # 10000) (352983 # 10000).

(** Rule 1 on the second raw segment. *)
Definition raw_state_rule (query : string) (g : GeoMatch) : Prop :=
  exists seg st,
    segment query 1 = Some seg /\ state g = Some st /\ toLowerCase st = seg.

(** Rule 2 on the third raw segment. *)
Definition raw_country_rule (query : string) (g : GeoMatch) : Prop :=
  exists seg,
    segment query 2 = Some seg /\ String.length seg <= 3
    /\ toLowerCase (country g) = seg.

(** ** Requests and runs of one call *)

(** The geocoder lookups for the queries [qs], in order. *)
Definition geo_requests (key : string) (qs : list string) : list Request :=
  map (fun q => GeoRequest q 5 key) qs.

(** The request for the current conditions, then the one for the
    forecast. *)
Definition weather_requests (key : string) (loc : GeoMatch) : list Request :=
  [CurrentRequest (lat loc) (lon loc) key; ForecastRequest (lat loc) (lon loc) key].

(** [fetchJson] throws [e] on the answer [f], whatever the request. *)
Definition fails {A} (f : Fetched A) (e : Thrown) : Prop :=
  forall req log, fetchJson req f log = (Throw e, (log ++ [req])%list).

(** The error thrown for a response that is not ok. *)
Definition http_error (status : nat) (body : string) : Thrown :=
  Error ("HTTP " ++ string_of_nat status ++ " calling OpenWeather. " ++ body).

(** The errors of [fetchJson]: the fetch rejected, the body did not parse,
    or the status was not ok; the message then quotes at most 200
    characters. *)
Definition transport_error (e : Thrown) : Prop :=
  e = FetchRejected \/ e = JsonRejected
  \/ exists status body, e = http_error status body /\ String.length body <= 200.

(** The candidates [before] found nothing and [q] was answered with the
    non-empty list [l]. *)
Definition found (w : World) (cands before : list string) (q : string)
    (after : list string) (l : list GeoMatch) : Prop :=
  cands = (before ++ q :: after)%list
  /\ (forall q', In q' before -> geo_nothing w q')
  /\ answered (geo_api w q) (GeoArray l)
  /\ l <> [].

(** The display name of a match. *)
Definition location_name (loc : GeoMatch) : string :=
  name loc ++ state_suffix loc ++ ", " ++ country loc.

(** The current conditions as they are returned. *)
Definition snapshot_of (cur : Current) : Snapshot :=
  mkSnapshot
    (match cur_main cur with Some m => cur_temp m | None => None end)
    (match cur_main cur with Some m => feels_like m | None => None end)
    (match cur_main cur with Some m => humidity m | None => None end)
    (match cur_wind cur with Some x => speed x | None => None end)
    (match cur_weather cur with
     | Some (x :: _) => orElse (description x) "unknown"
     | _ => "unknown"
     end).

(** The runs of a call with the key [key]: what it returns or throws, and
    the requests it sends.  The body of a weather response is [None] when
    it is the JSON value [null]. *)
Inductive run (labelFromKey : string -> string) (key : string) (w : World)
    (place : string) : Outcome Result -> list Request -> Prop :=
| run_not_found :
    (forall q, In q (candidates (normalizePlace place)) -> geo_nothing w q) ->
    run labelFromKey key w place
      (Value (Failure (not_found_message place)))
      (geo_requests key (candidates (normalizePlace place)))
| run_lookup_failed before q after e :
    candidates (normalizePlace place) = (before ++ q :: after)%list ->
    (forall q', In q' before -> geo_nothing w q') ->
    fails (geo_api w q) e -> transport_error e ->
    run labelFromKey key w place (Throw e) (geo_requests key (before ++ [q]))
| run_ambiguous before q after l :
    found w (candidates (normalizePlace place)) before q after l ->
    1 < List.length (dedupeGeo l) ->
    seemsSpecific (normalizePlace place) = false ->
    run labelFromKey key w place
      (Value (Failure (ambiguous_message place (dedupeGeo l))))
      (geo_requests key (before ++ [q]))
| run_current_failed before q after l loc e :
    found w (candidates (normalizePlace place)) before q after l ->
    resolved_location (normalizePlace place) (dedupeGeo l) loc ->
    fails (current_api w (lat loc) (lon loc)) e -> transport_error e ->
    run labelFromKey key w place (Throw e)
      (geo_requests key (before ++ [q]) ++ [CurrentRequest (lat loc) (lon loc) key])
| run_forecast_failed before q after l loc cur e :
    found w (candidates (normalizePlace place)) before q after l ->
    resolved_location (normalizePlace place) (dedupeGeo l) loc ->
    answered (current_api w (lat loc) (lon loc)) cur ->
    fails (forecast_api w (lat loc) (lon loc)) e -> transport_error e ->
    run labelFromKey key w place (Throw e)
      (geo_requests key (before ++ [q]) ++ weather_requests key loc)
| run_null_body before q after l loc cur fc :
    found w (candidates (normalizePlace place)) before q after l ->
    resolved_location (normalizePlace place) (dedupeGeo l) loc ->
    answered (current_api w (lat loc) (lon loc)) cur ->
    answered (forecast_api w (lat loc) (lon loc)) fc ->
    cur = None \/ fc = None ->
    run labelFromKey key w place (Throw TypeError)
      (geo_requests key (before ++ [q]) ++ weather_requests key loc)
| run_success before q after l loc cur fc :
    found w (candidates (normalizePlace place)) before q after l ->
    resolved_location (normalizePlace place) (dedupeGeo l) loc ->
    answered (current_api w (lat loc) (lon loc)) (Some cur) ->
    answered (forecast_api w (lat loc) (lon loc)) (Some fc) ->
    run labelFromKey key w place
      (Value (Success (location_name loc) (snapshot_of cur)
                (summarizeForecast labelFromKey (orElse (fc_list fc) [])
                   (orElse (timezone cur) 0%Z) 3 (clock w))))
      (geo_requests key (before ++ [q]) ++ weather_requests key loc).

(** A geocoder that refuses the key, and one whose weather endpoints are
    down. *)
Definition unauthorized {A} : Fetched A :=
  Resolved (mkResponse false 401 (Some "Invalid API key") None).

Definition locked_world : World :=
  mkWorld (fun _ => unauthorized) (fun _ _ => unauthorized)
    (fun _ _ => unauthorized) 1704484800.

Definition no_weather_world : World :=
  mkWorld (geo_api sample_world) (fun _ _ => Rejected)
    (fun _ _ => Rejected) 1704484800.

Definition no_forecast_world : World :=
  mkWorld (geo_api sample_world) (current_api sample_world)
    (fun _ _ => unauthorized) 1704484800.

(** A world whose current conditions come back as the JSON value
    [null], and one whose forecast does. *)
Definition null_current_world : World :=
  mkWorld (geo_api sample_world) (fun _ _ => ok_response None)
    (forecast_api sample_world) 1704484800.

Definition null_forecast_world : World :=
  mkWorld (geo_api sample_world) (current_api sample_world)
    (fun _ _ => ok_response None) 1704484800.

(** ** Lists of matches *)

(** No two matches of the list have the same coordinates. *)
Definition distinct_coords (l : list GeoMatch) : Prop :=
  ForallOrdPairs (fun x y => same_coords x y = false) l.

(** [a] is [b] with some elements left out, the order kept. *)
Inductive subseq {A : Type} : list A -> list A -> Prop :=
| subseq_nil : subseq [] []
| subseq_take x a b : subseq a b -> subseq (x :: a) (x :: b)
| subseq_skip x a b : subseq a b -> subseq a (x :: b).

(** ** Pieces of a place *)

(** A piece between two commas, trimmed and with every run of white space
    inside turned into one space. *)
Definition tidy (p : string) : string := collapse_spaces (trim p).

(** ** Temperatures of a day *)

(** The minimum and the maximum a kept point stands for. *)
Definition min_of (it : ForecastItem) : Q := orElse (item_min it) 0%Q.
Definition max_of (it : ForecastItem) : Q := orElse (item_max it) 0%Q.

(** The point does not fall on the day [k]. *)
Definition off_day (tz : Z) (k : string) (it : ForecastItem) : bool :=
  negb (String.eqb (day_of tz it) k).

(** The sample points in two orders that agree day by day. *)
Definition interleaved_a : list ForecastItem :=
  [ sample_point 1704499200 (39 # 1) (42 # 1) "overcast clouds" (1 # 10);
    sample_point 1704585600 (36 # 1) (45 # 1) "clear sky" (0 # 1);
    sample_point 1704510000 (38 # 1) (40 # 1) "light rain" (3 # 10) ].

Definition interleaved_b : list ForecastItem :=
  [ sample_point 1704499200 (39 # 1) (42 # 1) "overcast clouds" (1 # 10);
    sample_point 1704510000 (38 # 1) (40 # 1) "light rain" (3 # 10);
    sample_point 1704585600 (36 # 1) (45 # 1) "clear sky" (0 # 1) ].

(** ** The normalization in one pass *)

(** Where a scan of the place stands: at the start or just after a comma,
    just after a character of a word, or in white space met after a
    word. *)
Inductive Scan := Fresh | Word | Gap.

(** The normalized place as the specification words it: white space at
    the start, at the end and around a comma is dropped; a comma is
    written as a comma and one space; any other run of white space is
    written as one space; every other character is copied. *)
Fixpoint normalize_scan (st : Scan) (s : string) : string :=
  match s with
  | EmptyString => EmptyString
  | String c t =>
      if is_ws c then
        normalize_scan (match st with Fresh => Fresh | _ => Gap end) t
      else if Ascii.eqb c comma then
        String comma (String space (normalize_scan Fresh t))
      else
        match st with
        | Gap => String space (String c (normalize_scan Word t))
        | _ => String c (normalize_scan Word t)
        end
  end.

(** ** Trimmed, non-empty pieces *)

(** The last character of [s] is white space. *)
Fixpoint tail_ws (s : string) : bool :=
  match s with
  | EmptyString => false
  | String c EmptyString => is_ws c
  | String _ t => tail_ws t
  end.

(** [p] is the piece [x] without the white space at its two ends, and is
    not empty. *)
Definition trimmed_piece (x p : string) : Prop :=
  exists a b,
    x = a ++ p ++ b
    /\ sall is_ws a = true /\ sall is_ws b = true
    /\ p <> EmptyString /\ head_ws p = false /\ tail_ws p = false.

(** * Proofs *)

(** ** Strings *)

Lemma is_ws_comma : is_ws comma = false.
Proof. reflexivity. Qed.

Lemma is_ws_space : is_ws space = true.
Proof. reflexivity. Qed.

Lemma trimStart_length s : String.length (trimStart s) <= String.length s.
Proof.
  induction s as [|c t IH]; simpl; [lia|].
  destruct (is_ws c); simpl; lia.
Qed.

Lemma trimStart_head s : head_ws (trimStart s) = false.
Proof.
  induction s as [|c t IH]; simpl; [reflexivity|].
  destruct (is_ws c) eqn:E; [exact IH|]. simpl. exact E.
Qed.

Lemma trimStart_id s : head_ws s = false -> trimStart s = s.
Proof. destruct s as [|c t]; simpl; [reflexivity|]. now intros ->. Qed.

(** ** The replacement engine *)

Section ReplaceFacts.
Variable match_at : string -> option string.
Variable rep : string.
Hypothesis match_consumes :
  forall s r, match_at s = Some r -> String.length r < String.length s.

Lemma replace_fuel_enough n m s :
  String.length s < n -> String.length s < m ->
  replace_fuel match_at rep n s = replace_fuel match_at rep m s.
Proof.
  revert m s. induction n as [|n IH]; intros m s Hn Hm; [lia|].
  destruct m as [|m]; [lia|]. simpl.
  destruct (match_at s) as [r|] eqn:E.
  - apply match_consumes in E. f_equal. apply IH; lia.
  - destruct s as [|c t]; [reflexivity|]. simpl in *. f_equal. apply IH; lia.
Qed.

Lemma replace_fuel_step n s :
  replace_fuel match_at rep (S n) s =
  match match_at s with
  | Some rest => rep ++ replace_fuel match_at rep n rest
  | None =>
      match s with
      | EmptyString => EmptyString
      | String c t => String c (replace_fuel match_at rep n t)
      end
  end.
Proof. reflexivity. Qed.

Lemma replace_all_match s r :
  match_at s = Some r ->
  replace_all match_at rep s = rep ++ replace_all match_at rep r.
Proof.
  intros E. unfold replace_all.
  rewrite (replace_fuel_step (String.length s) s), E. f_equal.
  apply match_consumes in E. apply replace_fuel_enough; lia.
Qed.

Lemma replace_all_copy c t :
  match_at (String c t) = None ->
  replace_all match_at rep (String c t) = String c (replace_all match_at rep t).
Proof.
  intros E. unfold replace_all.
  rewrite (replace_fuel_step (String.length (String c t)) (String c t)), E.
  reflexivity.
Qed.

Lemma replace_all_nil :
  replace_all match_at rep EmptyString = EmptyString.
Proof.
  unfold replace_all. rewrite replace_fuel_step.
  destruct (match_at EmptyString) as [r|] eqn:E; [|reflexivity].
  apply match_consumes in E. simpl in E. lia.
Qed.
End ReplaceFacts.

Lemma match_comma_consumes s r :
  match_comma s = Some r -> String.length r < String.length s.
Proof.
  unfold match_comma. intros H.
  pose proof (trimStart_length s) as Hs.
  destruct (trimStart s) as [|c t]; [discriminate|].
  destruct (Ascii.eqb c comma); [|discriminate].
  injection H as <-. pose proof (trimStart_length t). simpl in Hs. lia.
Qed.

Lemma match_spaces_consumes s r :
  match_spaces s = Some r -> String.length r < String.length s.
Proof.
  unfold match_spaces. intros H. destruct s as [|c t]; [discriminate|].
  destruct (is_ws c); [|discriminate].
  injection H as <-. pose proof (trimStart_length t). simpl. lia.
Qed.

(** ** The two passes of [normalizePlace] *)

Lemma commas_nil : replace_commas EmptyString = EmptyString.
Proof. apply replace_all_nil, match_comma_consumes. Qed.

Lemma commas_match s r :
  trimStart s = String comma r ->
  replace_commas s = String comma (String space (replace_commas (trimStart r))).
Proof.
  intros E. unfold replace_commas.
  rewrite (replace_all_match match_comma ", " match_comma_consumes s (trimStart r)).
  - reflexivity.
  - unfold match_comma. now rewrite E, Ascii.eqb_refl.
Qed.

Lemma commas_copy c t :
  match_comma (String c t) = None ->
  replace_commas (String c t) = String c (replace_commas t).
Proof. apply replace_all_copy. Qed.

Lemma spaces_nil : collapse_spaces EmptyString = EmptyString.
Proof. apply replace_all_nil, match_spaces_consumes. Qed.

Lemma spaces_ws c t :
  is_ws c = true -> collapse_spaces (String c t) = String space (collapse_spaces (trimStart t)).
Proof.
  intros E. unfold collapse_spaces.
  rewrite (replace_all_match match_spaces " " match_spaces_consumes
             (String c t) (trimStart t)).
  - reflexivity.
  - unfold match_spaces. now rewrite E.
Qed.

Lemma spaces_plain c t :
  is_ws c = false -> collapse_spaces (String c t) = String c (collapse_spaces t).
Proof. intros E. apply replace_all_copy. unfold match_spaces. now rewrite E. Qed.

(** What [match_comma] sees at a character that starts no match. *)
Lemma match_comma_plain c t :
  is_ws c = false -> c <> comma -> match_comma (String c t) = None.
Proof.
  intros Hw Hc. unfold match_comma. simpl. rewrite Hw.
  destruct (Ascii.eqb_spec c comma); [contradiction|reflexivity].
Qed.

Lemma match_comma_gap c t :
  is_ws c = true -> head_plain (trimStart t) = true ->
  match_comma (String c t) = None.
Proof.
  intros Hw Hp. unfold match_comma. simpl. rewrite Hw.
  destruct (trimStart t) as [|d r]; [reflexivity|]. simpl in Hp.
  destruct (Ascii.eqb d comma); [|reflexivity].
  rewrite andb_false_r in Hp. discriminate.
Qed.

Lemma head_plain_not_ws s : head_plain s = true -> head_ws s = false.
Proof.
  destruct s as [|c t]; simpl; [reflexivity|].
  intros H. apply andb_prop in H as [H _]. now apply negb_true_iff in H.
Qed.

(** ** [trimEnd] *)

Lemma trimEnd_cons_plain c t :
  is_ws c = false -> trimEnd (String c t) = String c (trimEnd t).
Proof. intros E. simpl. rewrite E. now destruct (trimEnd t). Qed.

Lemma trimEnd_cons_keep c t :
  trimEnd t <> EmptyString -> trimEnd (String c t) = String c (trimEnd t).
Proof. intros E. simpl. destruct (trimEnd t); [contradiction|reflexivity]. Qed.

Lemma trimEnd_empty s :
  trimEnd s = EmptyString -> trimStart s = EmptyString.
Proof.
  induction s as [|c t IH]; simpl; [reflexivity|].
  destruct (trimEnd t) eqn:E; [|discriminate].
  destruct (is_ws c); [intros _; now apply IH|discriminate].
Qed.

Lemma trimStart_empty s :
  trimStart s = EmptyString -> trimEnd s = EmptyString.
Proof.
  induction s as [|c t IH]; simpl; [reflexivity|].
  destruct (is_ws c) eqn:E; [|discriminate].
  intros H. rewrite (IH H). reflexivity.
Qed.

Lemma trimEnd_idem s : trimEnd (trimEnd s) = trimEnd s.
Proof.
  induction s as [|c t IH]; [reflexivity|].
  destruct (trimEnd t) as [|d r] eqn:E.
  - simpl. rewrite E. destruct (is_ws c) eqn:Ec; [reflexivity|].
    simpl. now rewrite Ec.
  - rewrite (trimEnd_cons_keep c t) by (rewrite E; discriminate).
    rewrite (trimEnd_cons_keep c (trimEnd t)) by (rewrite E, IH; discriminate).
    now rewrite E, IH.
Qed.

Lemma trimEnd_fixed_tail c t :
  trimEnd (String c t) = String c t -> trimEnd t = t.
Proof.
  simpl. destruct (trimEnd t) as [|d r] eqn:E.
  - destruct (is_ws c); [discriminate|]. intros H. now injection H as <-.
  - intros H. now injection H.
Qed.

Lemma trimEnd_fixed_trimStart s :
  trimEnd s = s -> trimEnd (trimStart s) = trimStart s.
Proof.
  induction s as [|c t IH]; [reflexivity|].
  intros H. simpl trimStart. destruct (is_ws c); [|exact H].
  apply IH. exact (trimEnd_fixed_tail _ _ H).
Qed.

Lemma trimEnd_head s : head_ws s = false -> head_ws (trimEnd s) = false.
Proof.
  destruct s as [|c t]; [reflexivity|]. intros E. simpl in E.
  rewrite trimEnd_cons_plain by exact E. exact E.
Qed.

Lemma trim_fixed s : trimEnd (trim s) = trim s.
Proof. apply trimEnd_idem. Qed.

Lemma trim_head s : head_ws (trim s) = false.
Proof. apply trimEnd_head, trimStart_head. Qed.

(** ** The comma pass yields a comma-normal string *)

Lemma commas_head s : head_ws s = false -> head_ws (replace_commas s) = false.
Proof.
  destruct s as [|c t]; intros H.
  - now rewrite commas_nil.
  - simpl in H. destruct (Ascii.eqb_spec c comma) as [->|Hc].
    + now rewrite (commas_match (String comma t) t).
    + now rewrite commas_copy by (apply match_comma_plain; assumption).
Qed.

(** A run of white space that ends at a plain character is copied. *)
Lemma commas_gap t :
  head_plain (trimStart t) = true -> head_plain (trimStart (replace_commas t)) = true.
Proof.
  induction t as [|c t IH]; intros H; [discriminate|].
  destruct (is_ws c) eqn:Ec.
  - rewrite commas_copy by (apply match_comma_gap; [exact Ec|]; simpl in H;
      now rewrite Ec in H).
    simpl in *. rewrite Ec in *. now apply IH.
  - simpl in H. rewrite Ec in H. simpl in H. rewrite Ec in H. simpl in H.
    apply negb_true_iff in H.
    rewrite commas_copy.
    + simpl. rewrite Ec. simpl. now rewrite Ec, H.
    + apply match_comma_plain; [exact Ec|].
      intros ->. discriminate.
Qed.

Lemma commas_normal_aux n : forall s,
  String.length s <= n -> trimEnd s = s -> comma_normal (replace_commas s).
Proof.
  induction n as [|n IH]; intros s Hl Hf.
  - destruct s; [|simpl in Hl; lia]. rewrite commas_nil. constructor.
  - destruct s as [|c t]; [rewrite commas_nil; constructor|].
    destruct (match_comma (String c t)) as [r'|] eqn:Em.
    + (* a match starts here *)
      unfold match_comma in Em.
      destruct (trimStart (String c t)) as [|d r] eqn:Et; [discriminate|].
      destruct (Ascii.eqb_spec d comma) as [->|]; [|discriminate].
      injection Em as <-.
      rewrite (commas_match _ _ Et).
      pose proof (trimStart_length (String c t)) as L1.
      pose proof (trimStart_length r) as L2. rewrite Et in L1. simpl in L1, Hl.
      pose proof (trimEnd_fixed_trimStart _ Hf) as F1. rewrite Et in F1.
      apply trimEnd_fixed_tail in F1.
      apply cn_comma.
      * apply commas_head, trimStart_head.
      * apply IH; [lia|]. now apply trimEnd_fixed_trimStart.
    + rewrite (commas_copy _ _ Em). simpl in Hl.
      pose proof (trimEnd_fixed_tail _ _ Hf) as Ft.
      destruct (is_ws c) eqn:Ec.
      * assert (Hp : head_plain (trimStart t) = true).
        { unfold match_comma in Em. simpl in Em. rewrite Ec in Em.
          pose proof (trimStart_head t) as Hh.
          destruct (trimStart t) as [|d r] eqn:Et.
          - exfalso. apply trimStart_empty in Et.
            simpl in Hf. rewrite Et, Ec in Hf. discriminate.
          - simpl in *. rewrite Hh. simpl.
            destruct (Ascii.eqb d comma); [discriminate|reflexivity]. }
        apply cn_ws; [exact Ec| now apply commas_gap |apply IH; [lia|exact Ft]].
      * apply cn_plain; [exact Ec| |apply IH; [lia|exact Ft]].
        intros ->. unfold match_comma in Em. simpl in Em. discriminate.
Qed.

Lemma commas_normal s : trimEnd s = s -> comma_normal (replace_commas s).
Proof. apply (commas_normal_aux (String.length s)). lia. Qed.

(** ** The space pass yields a normal string *)

Lemma spaces_head s : head_ws s = false -> head_ws (collapse_spaces s) = false.
Proof.
  destruct s as [|c t]; intros H.
  - now rewrite spaces_nil.
  - simpl in H. now rewrite spaces_plain.
Qed.

Lemma spaces_head_plain s : head_plain s = true -> head_plain (collapse_spaces s) = true.
Proof.
  destruct s as [|c t]; intros H; [discriminate|].
  pose proof (head_plain_not_ws _ H) as Hw. simpl in Hw.
  now rewrite spaces_plain.
Qed.

Lemma comma_normal_trimStart t : comma_normal t -> comma_normal (trimStart t).
Proof.
  induction 1 as [|t Hh Ht IH|c t Hc Hp Ht IH|c t Hc Hn Ht IH].
  - constructor.
  - simpl. now constructor.
  - simpl. now rewrite Hc.
  - simpl. rewrite Hc. now constructor.
Qed.

Lemma spaces_normal_aux n : forall v,
  String.length v <= n -> comma_normal v -> normal (collapse_spaces v).
Proof.
  induction n as [|n IH]; intros v Hl Hv.
  - destruct v; [|simpl in Hl; lia]. rewrite spaces_nil. constructor.
  - destruct Hv as [|t Hh Ht|c t Hc Hp Ht|c t Hc Hn Ht]; simpl in Hl.
    + rewrite spaces_nil. constructor.
    + rewrite spaces_plain by reflexivity.
      rewrite spaces_ws by reflexivity.
      rewrite (trimStart_id _ Hh).
      apply nf_comma; [now apply spaces_head|apply IH; [lia|exact Ht]].
    + rewrite spaces_ws by exact Hc.
      pose proof (trimStart_length t).
      apply nf_gap; [now apply spaces_head_plain|].
      apply IH; [lia|now apply comma_normal_trimStart].
    + rewrite spaces_plain by exact Hc.
      apply nf_plain; [exact Hc|exact Hn|apply IH; [lia|exact Ht]].
Qed.

Lemma spaces_normal v : comma_normal v -> normal (collapse_spaces v).
Proof. apply (spaces_normal_aux (String.length v)). lia. Qed.

(** ** A normal string is a fixed point *)

Lemma spaces_fixed u : normal u -> collapse_spaces u = u.
Proof.
  induction 1 as [|t Hh Ht IH|t Hp Ht IH|c t Hc Hn Ht IH].
  - apply spaces_nil.
  - rewrite spaces_plain by reflexivity.
    rewrite spaces_ws by reflexivity.
    now rewrite (trimStart_id _ Hh), IH.
  - rewrite spaces_ws by reflexivity.
    now rewrite (trimStart_id _ (head_plain_not_ws _ Hp)), IH.
  - rewrite spaces_plain by exact Hc. now rewrite IH.
Qed.

Lemma trimEnd_nonempty c t :
  is_ws c = false -> trimEnd (String c t) <> EmptyString.
Proof. intros E. rewrite trimEnd_cons_plain by exact E. discriminate. Qed.

Lemma commas_fixed u : normal u -> replace_commas (trimEnd u) = u.
Proof.
  induction 1 as [|t Hh Ht IH|t Hp Ht IH|c t Hc Hn Ht IH].
  - apply commas_nil.
  - rewrite trimEnd_cons_plain by reflexivity.
    destruct t as [|d t'].
    + simpl. rewrite (commas_match (String comma EmptyString) EmptyString eq_refl).
      simpl. now rewrite commas_nil.
    + simpl in Hh.
      rewrite (trimEnd_cons_keep space) by (now apply trimEnd_nonempty).
      rewrite (commas_match (String comma (String space (trimEnd (String d t'))))
                 (String space (trimEnd (String d t'))) eq_refl).
      change (trimStart (String space (trimEnd (String d t'))))
        with (trimStart (trimEnd (String d t'))).
      rewrite trimStart_id by (apply trimEnd_head; exact Hh).
      now rewrite IH.
  - destruct t as [|d t']; [discriminate|].
    pose proof (head_plain_not_ws _ Hp) as Hw. simpl in Hw.
    rewrite (trimEnd_cons_keep space) by (now apply trimEnd_nonempty).
    rewrite commas_copy; [now rewrite IH|].
    apply match_comma_gap; [reflexivity|].
    rewrite trimStart_id by (apply trimEnd_head; exact Hw).
    rewrite trimEnd_cons_plain by exact Hw. exact Hp.
  - rewrite trimEnd_cons_plain by exact Hc.
    rewrite commas_copy by (now apply match_comma_plain).
    now rewrite IH.
Qed.

Lemma normalizePlace_normal s :
  head_ws (normalizePlace s) = false /\ normal (normalizePlace s).
Proof.
  unfold normalizePlace. split.
  - apply spaces_head, commas_head, trim_head.
  - apply spaces_normal, commas_normal, trim_fixed.
Qed.

Lemma normalizePlace_fixed u :
  head_ws u = false -> normal u -> normalizePlace u = u.
Proof.
  intros Hh Hn. unfold normalizePlace, trim.
  now rewrite (trimStart_id _ Hh), (commas_fixed _ Hn), (spaces_fixed _ Hn).
Qed.

(** ** The characters that are not white space are kept *)

Lemma strip_trimStart s : strip_ws (trimStart s) = strip_ws s.
Proof.
  induction s as [|c t IH]; [reflexivity|]. simpl.
  destruct (is_ws c) eqn:E; [exact IH|]. simpl. now rewrite E.
Qed.

Lemma strip_cons c t :
  strip_ws (String c t) = if is_ws c then strip_ws t else String c (strip_ws t).
Proof. reflexivity. Qed.

Lemma strip_trimEnd s : strip_ws (trimEnd s) = strip_ws s.
Proof.
  induction s as [|c t IH]; [reflexivity|].
  destruct (trimEnd t) as [|d r] eqn:E.
  - simpl in IH. simpl. rewrite E, <- IH.
    destruct (is_ws c) eqn:Ec; simpl; now rewrite ?Ec.
  - rewrite (trimEnd_cons_keep c t) by (rewrite E; discriminate).
    now rewrite E, (strip_cons c (String d r)), (strip_cons c t), IH.
Qed.

Lemma strip_commas_aux n : forall s,
  String.length s <= n -> strip_ws (replace_commas s) = strip_ws s.
Proof.
  induction n as [|n IH]; intros s Hl.
  - destruct s; [|simpl in Hl; lia]. now rewrite commas_nil.
  - destruct s as [|c t]; [now rewrite commas_nil|].
    destruct (match_comma (String c t)) as [r'|] eqn:Em.
    + unfold match_comma in Em.
      destruct (trimStart (String c t)) as [|d r] eqn:Et; [discriminate|].
      destruct (Ascii.eqb_spec d comma) as [->|]; [|discriminate].
      rewrite (commas_match _ _ Et).
      pose proof (trimStart_length (String c t)) as L1.
      pose proof (trimStart_length r) as L2. rewrite Et in L1. simpl in L1, Hl.
      rewrite <- (strip_trimStart (String c t)), Et.
      cbn [strip_ws]. rewrite is_ws_comma, is_ws_space.
      rewrite IH by lia. now rewrite strip_trimStart.
    + rewrite (commas_copy _ _ Em). simpl in Hl. cbn [strip_ws].
      now rewrite IH by lia.
Qed.

Lemma strip_commas s : strip_ws (replace_commas s) = strip_ws s.
Proof. apply (strip_commas_aux (String.length s)). lia. Qed.

Lemma strip_spaces_aux n : forall s,
  String.length s <= n -> strip_ws (collapse_spaces s) = strip_ws s.
Proof.
  induction n as [|n IH]; intros s Hl.
  - destruct s; [|simpl in Hl; lia]. now rewrite spaces_nil.
  - destruct s as [|c t]; [now rewrite spaces_nil|]. simpl in Hl.
    destruct (is_ws c) eqn:Ec.
    + rewrite (spaces_ws _ _ Ec). cbn [strip_ws]. rewrite is_ws_space, Ec.
      pose proof (trimStart_length t).
      rewrite IH by lia. apply strip_trimStart.
    + rewrite (spaces_plain _ _ Ec). cbn [strip_ws]. rewrite Ec.
      now rewrite IH by lia.
Qed.

Lemma strip_spaces s : strip_ws (collapse_spaces s) = strip_ws s.
Proof. apply (strip_spaces_aux (String.length s)). lia. Qed.

Lemma strip_normalizePlace s : strip_ws (normalizePlace s) = strip_ws s.
Proof.
  unfold normalizePlace, trim.
  now rewrite strip_spaces, strip_commas, strip_trimEnd, strip_trimStart.
Qed.

(** ** What a normal string looks like *)

Lemma normal_single_spaced u : normal u -> single_spaced u = true.
Proof.
  induction 1 as [|t Hh Ht IH|t Hp Ht IH|c t Hc Hn Ht IH]; simpl.
  - reflexivity.
  - now rewrite Hh, IH.
  - now rewrite (head_plain_not_ws _ Hp), IH.
  - now rewrite Hc, IH.
Qed.

Lemma normal_comma_spaced u : normal u -> comma_spaced u = true.
Proof.
  induction 1 as [|t Hh Ht IH|t Hp Ht IH|c t Hc Hn Ht IH]; simpl.
  - reflexivity.
  - exact IH.
  - exact IH.
  - destruct (Ascii.eqb_spec c comma); [contradiction|]. exact IH.
Qed.

(** ** Splitting on commas *)

Lemma split_nonempty sep s : split sep s <> [].
Proof.
  destruct s as [|c t]; simpl; [discriminate|].
  destruct (Ascii.eqb c sep); [discriminate|].
  destruct (split sep t); discriminate.
Qed.

Lemma join_cons_cons sep x y r :
  join sep (x :: y :: r) = x ++ sep ++ join sep (y :: r).
Proof. reflexivity. Qed.

Lemma join_head_char sep c h r :
  join sep (String c h :: r) = String c (join sep (h :: r)).
Proof. destruct r; reflexivity. Qed.

Lemma join_split q : join "," (split comma q) = q.
Proof.
  induction q as [|c t IH]; [reflexivity|]. simpl.
  destruct (Ascii.eqb_spec c comma) as [->|Hc].
  - pose proof (split_nonempty comma t) as Hn.
    destruct (split comma t) as [|h r]; [contradiction|].
    rewrite join_cons_cons, IH. reflexivity.
  - pose proof (split_nonempty comma t) as Hn.
    destruct (split comma t) as [|h r]; [contradiction|].
    now rewrite join_head_char, IH.
Qed.

Lemma split_comma_free q :
  Forall (fun p => comma_free p = true) (split comma q).
Proof.
  induction q as [|c t IH]; simpl.
  - repeat constructor.
  - destruct (Ascii.eqb c comma) eqn:Ec.
    + constructor; [reflexivity|exact IH].
    + destruct (split comma t) as [|h r].
      { constructor; [|constructor]. unfold comma_free. simpl. now rewrite Ec. }
      inversion IH as [|? ? Hh Hr]; subst.
      constructor; [|exact Hr]. unfold comma_free in *. simpl. now rewrite Ec, Hh.
Qed.

Lemma two_letters_iff s :
  two_letters s = true <-> String.length s = 2 /\ sall is_alpha s = true.
Proof.
  destruct s as [|a [|b [|c t]]]; simpl; split; try (intros [? ?]); try discriminate.
  - intros H. split; [reflexivity|]. now rewrite andb_true_r.
  - now rewrite andb_true_r in *.
Qed.

Lemma toUpperCase_alpha s :
  sall is_alpha s = true -> sall is_upper (toUpperCase s) = true.
Proof.
  unfold toUpperCase.
  induction s as [|c t IH]; [reflexivity|]. simpl.
  intros H. apply andb_prop in H as [Hc Ht]. rewrite (IH Ht), andb_true_r.
  unfold upper_char. destruct (is_lower c) eqn:El.
  - unfold is_lower, is_upper in *. apply andb_prop in El as [L1 L2].
    apply Nat.leb_le in L1, L2.
    rewrite nat_ascii_embedding by lia.
    apply andb_true_intro. split; apply Nat.leb_le; lia.
  - unfold is_alpha in Hc. now rewrite El, orb_false_r in Hc.
Qed.

(** ** Deduplication *)

Lemma same_coords_refl g : same_coords g g = true.
Proof. unfold same_coords. now rewrite !Qeq_bool_refl. Qed.

Lemma same_coords_trans x y z :
  same_coords x y = true -> same_coords y z = true -> same_coords x z = true.
Proof.
  unfold same_coords. intros H1 H2.
  apply andb_prop in H1 as [A1 B1]. apply andb_prop in H2 as [A2 B2].
  now rewrite (Qeq_bool_trans _ _ _ A1 A2), (Qeq_bool_trans _ _ _ B1 B2).
Qed.

Section FindIndex.
Variable A : Type.
Variable f : A -> bool.

Lemma findIndex_None l : findIndex f l = None <-> existsb f l = false.
Proof.
  induction l as [|x r IH]; simpl; [tauto|].
  destruct (f x); simpl; [split; discriminate|].
  destruct (findIndex f r) as [k|]; simpl.
  - split; [discriminate|]. intros H. apply IH in H. discriminate.
  - split; [intros _; now apply IH|reflexivity].
Qed.

Lemma findIndex_lt l j : findIndex f l = Some j -> j < List.length l.
Proof.
  revert j. induction l as [|x r IH]; simpl; intros j H; [discriminate|].
  destruct (f x); [injection H as <-; lia|].
  destruct (findIndex f r) as [k|]; [|discriminate].
  injection H as <-. specialize (IH k eq_refl). lia.
Qed.

Lemma findIndex_app_l p l j :
  findIndex f p = Some j -> findIndex f (p ++ l)%list = Some j.
Proof.
  revert j. induction p as [|x r IH]; simpl; intros j H; [discriminate|].
  destruct (f x); [exact H|].
  destruct (findIndex f r) as [k|]; [|discriminate].
  now rewrite (IH k eq_refl).
Qed.

Lemma findIndex_app_r p x l :
  findIndex f p = None -> f x = true ->
  findIndex f (p ++ x :: l)%list = Some (List.length p).
Proof.
  intros Hp Hx. induction p as [|y r IH]; simpl in *; [now rewrite Hx|].
  destruct (f y); [discriminate|].
  destruct (findIndex f r); [discriminate|]. now rewrite IH.
Qed.
End FindIndex.

(** The filter of [dedupeGeo] at the end of a prefix [p] of the results. *)
Lemma dedupe_filter_seen l : forall p results,
  results = (p ++ l)%list ->
  filter_from
    (fun g i =>
       match findIndex (fun x => same_coords x g) results with
       | Some j => i =? j
       | None => false
       end)
    (List.length p) l
  = dedupe_seen p l.
Proof.
  induction l as [|g r IH]; intros p results ->; [reflexivity|].
  cbn [filter_from dedupe_seen].
  assert (Hr : ((p ++ g :: r) = (p ++ [g]) ++ r)%list) by now rewrite <- app_assoc.
  assert (Hl : S (List.length p) = List.length (p ++ [g])%list)
    by (rewrite length_app; simpl; lia).
  unfold seen_before.
  destruct (findIndex (fun x => same_coords x g) p) as [j|] eqn:Ep.
  - rewrite (findIndex_app_l _ _ p (g :: r) j Ep).
    pose proof (findIndex_lt _ _ _ _ Ep) as Hlt.
    destruct (List.length p =? j) eqn:E; [apply Nat.eqb_eq in E; lia|].
    assert (Hs : existsb (fun x => same_coords x g) p = true).
    { destruct (existsb (fun x => same_coords x g) p) eqn:E'; [reflexivity|].
      apply findIndex_None in E'. congruence. }
    rewrite Hs, Hl. apply IH. exact Hr.
  - rewrite (findIndex_app_r _ _ p g r Ep (same_coords_refl g)).
    rewrite Nat.eqb_refl.
    rewrite (proj1 (findIndex_None _ _ p) Ep).
    f_equal. rewrite Hl. apply IH. exact Hr.
Qed.

Lemma dedupeGeo_seen l : dedupeGeo l = dedupe_seen [] l.
Proof. exact (dedupe_filter_seen l [] l eq_refl). Qed.

(** The same, reading "seen earlier" off the input list. *)
Lemma dedupe_seen_firstn l : forall p results,
  results = (p ++ l)%list ->
  dedupe_seen p l =
  filter_from (fun g i => negb (seen_before (firstn i results) g))
    (List.length p) l.
Proof.
  induction l as [|g r IH]; intros p results ->; [reflexivity|].
  cbn [filter_from dedupe_seen].
  rewrite firstn_app, Nat.sub_diag, firstn_all. simpl firstn. rewrite app_nil_r.
  assert (Hr : ((p ++ g :: r) = (p ++ [g]) ++ r)%list) by now rewrite <- app_assoc.
  assert (Hl : S (List.length p) = List.length (p ++ [g])%list)
    by (rewrite length_app; simpl; lia).
  destruct (seen_before p g); simpl; rewrite Hl; [|f_equal]; apply IH; exact Hr.
Qed.

Lemma dedupe_seen_fresh l : forall seen y,
  In y (dedupe_seen seen l) -> seen_before seen y = false.
Proof.
  assert (Hstep : forall seen g y,
             seen_before (seen ++ [g])%list y = false -> seen_before seen y = false).
  { intros seen g y H. unfold seen_before in *.
    rewrite existsb_app in H. now apply orb_false_elim in H as [H _]. }
  induction l as [|g r IH]; intros seen y H; [contradiction|].
  simpl in H. destruct (seen_before seen g) eqn:E.
  - apply IH in H. now apply Hstep in H.
  - destruct H as [<-|H]; [exact E|].
    apply IH in H. now apply Hstep in H.
Qed.

Lemma dedupe_seen_distinct l : forall seen,
  ForallOrdPairs (fun x y => same_coords x y = false) (dedupe_seen seen l).
Proof.
  induction l as [|g r IH]; intros seen; simpl; [constructor|].
  destruct (seen_before seen g); [apply IH|].
  constructor; [|apply IH].
  apply Forall_forall. intros y Hy.
  apply dedupe_seen_fresh in Hy. unfold seen_before in Hy.
  rewrite existsb_app in Hy. apply orb_false_elim in Hy as [_ Hy].
  simpl in Hy. now rewrite orb_false_r in Hy.
Qed.

Lemma dedupe_seen_first l : forall seen g,
  In g l -> seen_before seen g = false ->
  exists g', find (fun x => same_coords x g) l = Some g'
             /\ In g' (dedupe_seen seen l).
Proof.
  induction l as [|h r IH]; intros seen g Hin Hs; [contradiction|].
  simpl. destruct (same_coords h g) eqn:Eh.
  - exists h. split; [reflexivity|].
    destruct (seen_before seen h) eqn:E; [|now left].
    exfalso. unfold seen_before in *.
    apply existsb_exists in E as [x [Hx Hxh]].
    assert (existsb (fun x => same_coords x g) seen = true); [|congruence].
    apply existsb_exists. exists x. split; [exact Hx|].
    now apply same_coords_trans with h.
  - destruct Hin as [->|Hin]; [now rewrite same_coords_refl in Eh|].
    destruct (IH (seen ++ [h])%list g Hin) as [g' [Hf Hg']].
    + unfold seen_before in *. rewrite existsb_app, Hs. simpl. now rewrite Eh.
    + exists g'. split; [exact Hf|].
      destruct (seen_before seen h); [exact Hg'|now right].
Qed.

(** ** Substrings *)

Lemma startsWith_iff p s : startsWith p s = true <-> exists b, s = p ++ b.
Proof.
  revert s. induction p as [|a p IH]; intros s; simpl.
  - split; [intros _; now exists s|reflexivity].
  - destruct s as [|c s]; [split; [discriminate|intros [b Hb]; discriminate]|].
    split.
    + intros H. apply andb_prop in H as [Hc Hs].
      apply Ascii.eqb_eq in Hc as ->. apply IH in Hs as [b ->]. now exists b.
    + intros [b Hb]. injection Hb as -> ->.
      rewrite Ascii.eqb_refl. apply IH. now exists b.
Qed.

Lemma includes_iff s sub :
  includes s sub = true <-> exists a b, s = a ++ sub ++ b.
Proof.
  induction s as [|c s IH]; simpl.
  - rewrite orb_false_r. split.
    + intros H. apply startsWith_iff in H as [b Hb]. now exists EmptyString, b.
    + intros [a [b H]]. apply startsWith_iff.
      destruct a; [now exists b|discriminate].
  - split.
    + intros H. apply orb_prop in H as [H|H].
      * apply startsWith_iff in H as [b Hb]. now exists EmptyString, b.
      * apply IH in H as [a [b ->]]. now exists (String c a), b.
    + intros [a [b H]]. apply orb_true_intro. destruct a as [|d a].
      * left. apply startsWith_iff. now exists b.
      * right. apply IH. injection H as -> ->. now exists a, b.
Qed.

Lemma toLowerCase_empty s : toLowerCase s = EmptyString <-> s = EmptyString.
Proof. destruct s; simpl; split; try reflexivity; discriminate. Qed.

Lemma truthy_iff s : truthy s = true <-> s <> EmptyString.
Proof. destruct s; simpl; split; try discriminate; try reflexivity; now intros []. Qed.

Lemma parts_truthy q p : In p (parts q) -> p <> EmptyString.
Proof. unfold parts. intros H. apply filter_In in H as [_ H]. now apply truthy_iff. Qed.

(** ** [find] returns the first hit *)

Lemma find_first {A} (f : A -> bool) l g :
  find f l = Some g ->
  exists l1 l2, l = (l1 ++ g :: l2)%list /\ f g = true
                /\ forall x, In x l1 -> f x = false.
Proof.
  induction l as [|x r IH]; simpl; [discriminate|].
  destruct (f x) eqn:E.
  - intros H. injection H as <-. exists [], r. repeat split; [exact E|].
    intros y [].
  - intros H. destruct (IH H) as [l1 [l2 [-> [Hg Hl]]]].
    exists (x :: l1), l2. repeat split; [exact Hg|].
    intros y [<-|Hy]; [exact E|now apply Hl].
Qed.

Lemma find_first_hit {A} (f : A -> bool) (P : A -> Prop) l g :
  (forall x, f x = true <-> P x) ->
  find f l = Some g -> first_hit P l g.
Proof.
  intros Hf H. destruct (find_first f l g H) as [l1 [l2 [-> [Hg Hl]]]].
  exists l1, l2. repeat split; [now apply Hf|].
  intros x Hx HP. apply Hf in HP. rewrite (Hl x Hx) in HP. discriminate.
Qed.

Lemma find_no_hit {A} (f : A -> bool) (P : A -> Prop) l :
  (forall x, f x = true <-> P x) ->
  find f l = None -> no_hit P l.
Proof.
  intros Hf H x Hx HP. apply Hf in HP.
  rewrite (find_none f l H x Hx) in HP. discriminate.
Qed.

(** ** The tests of [pickBestGeoMatch] against the rules *)

Lemma state_test_iff query p g :
  nth_error (parts query) 1 = Some p ->
  String.eqb (toLowerCase (orElse (state g) EmptyString)) (toLowerCase p) = true
  <-> state_rule query g.
Proof.
  intros Hp. assert (Hne : p <> EmptyString)
    by (eapply parts_truthy, nth_error_In, Hp).
  rewrite String.eqb_eq. split.
  - intros H. destruct (state g) as [st|] eqn:Es; unfold orElse in H.
    + exists p, st. repeat split; assumption.
    + symmetry in H. apply (proj1 (toLowerCase_empty p)) in H. contradiction.
  - intros [p' [st [Hp' [Es H]]]]. rewrite Hp in Hp'. injection Hp' as <-.
    now rewrite Es.
Qed.

Lemma country_test_iff query p g :
  nth_error (parts query) 2 = Some p ->
  String.length (toLowerCase p) <= 3 ->
  String.eqb (toLowerCase (country g)) (toLowerCase p) = true
  <-> country_rule query g.
Proof.
  intros Hp Hl. rewrite String.eqb_eq. split.
  - intros H. now exists p.
  - intros [p' [Hp' [_ H]]]. rewrite Hp in Hp'. now injection Hp' as <-.
Qed.

Lemma state_name_test_iff query g :
  (let st := toLowerCase (orElse (state g) EmptyString) in
   truthy st && includes (toLowerCase query) st) = true
  <-> state_name_rule query g.
Proof.
  cbv zeta. rewrite andb_true_iff, truthy_iff, includes_iff. split.
  - intros [Hne [a [b H]]]. destruct (state g) as [st|] eqn:Es; unfold orElse in *.
    + exists st, a, b. split; [exact Es|]. split; [|exact H].
      intros ->. now apply Hne.
    + now contradiction Hne.
  - intros [st [a [b [Es [Hne H]]]]]. rewrite Es. unfold orElse. split.
    + intros E. apply (proj1 (toLowerCase_empty st)) in E. contradiction.
    + now exists a, b.
Qed.

(** ** The stages of [pickBestGeoMatch], last to first *)

Lemma pick_state_name query l :
  l <> [] ->
  exists g,
    match find (fun g =>
                  let st := toLowerCase (orElse (state g) EmptyString) in
                  truthy st && includes (toLowerCase query) st) l with
    | Some g => Some g
    | None => nth_error l 0
    end = Some g
    /\ (first_hit (state_name_rule query) l g
        \/ (no_hit (state_name_rule query) l /\ hd_error l = Some g)).
Proof.
  intros Hl.
  destruct (find _ l) as [g|] eqn:F.
  - exists g. split; [reflexivity|]. left.
    eapply find_first_hit; [|exact F]. intros x. apply state_name_test_iff.
  - destruct l as [|g r]; [contradiction|]. exists g. split; [reflexivity|].
    right. split; [|reflexivity].
    eapply find_no_hit; [|exact F]. intros x. apply state_name_test_iff.
Qed.

Lemma pick_country query l :
  l <> [] ->
  exists g,
    (let maybeCountry :=
       match nth_error (parts query) 2 with
       | Some p => toLowerCase p
       | None => EmptyString
       end in
     match
       (if truthy maybeCountry && (String.length maybeCountry <=? 3)
        then find (fun g => String.eqb (toLowerCase (country g)) maybeCountry) l
        else None)
     with
     | Some g => Some g
     | None =>
         match find (fun g =>
                       let st := toLowerCase (orElse (state g) EmptyString) in
                       truthy st && includes (toLowerCase query) st) l with
         | Some g => Some g
         | None => nth_error l 0
         end
     end) = Some g
    /\ (first_hit (country_rule query) l g
        \/ (no_hit (country_rule query) l
            /\ (first_hit (state_name_rule query) l g
                \/ (no_hit (state_name_rule query) l /\ hd_error l = Some g)))).
Proof.
  intros Hl. cbv zeta.
  destruct (pick_state_name query l Hl) as [g3 [E3 H3]].
  destruct (nth_error (parts query) 2) as [p|] eqn:Ep.
  - assert (Hne : truthy (toLowerCase p) = true).
    { apply truthy_iff. intros E. apply (proj1 (toLowerCase_empty p)) in E.
      revert E. eapply parts_truthy, nth_error_In, Ep. }
    rewrite Hne. simpl andb.
    destruct (String.length (toLowerCase p) <=? 3) eqn:El.
    + apply Nat.leb_le in El.
      destruct (find (fun g => String.eqb (toLowerCase (country g)) (toLowerCase p)) l)
        as [g|] eqn:F.
      * exists g. split; [reflexivity|]. left.
        eapply find_first_hit; [|exact F].
        intros x. now apply country_test_iff.
      * exists g3. split; [exact E3|]. right. split; [|exact H3].
        eapply find_no_hit; [|exact F]. intros x. now apply country_test_iff.
    + apply Nat.leb_gt in El.
      exists g3. split; [exact E3|]. right. split; [|exact H3].
      intros x _ [p' [Hp' [Hl' _]]]. rewrite Ep in Hp'. injection Hp' as <-. lia.
  - simpl. exists g3. split; [exact E3|]. right. split; [|exact H3].
    intros x _ [p' [Hp' _]]. congruence.
Qed.

(** ** The monad *)

Lemma bind_value {A B} (m : M A) (k : A -> M B) log a log' :
  m log = (Value a, log') -> bind m k log = k a log'.
Proof. intros H. unfold bind. now rewrite H. Qed.

Lemma bind_throw {A B} (m : M A) (k : A -> M B) log e log' :
  m log = (Throw e, log') -> bind m k log = (Throw e, log').
Proof. intros H. unfold bind. now rewrite H. Qed.

Lemma fetchJson_answered {A} req (f : Fetched A) v log :
  answered f v -> fetchJson req f log = (Value v, (log ++ [req])%list).
Proof. intros [status [text ->]]. reflexivity. Qed.

Lemma assertApiKey_set key log :
  key_set key -> assertApiKey key log = (Value tt, log).
Proof.
  intros [k [-> Hk]]. unfold assertApiKey. simpl.
  destruct k; [contradiction|reflexivity].
Qed.

Lemma assertApiKey_unset key log :
  ~ key_set key ->
  assertApiKey key log =
    (Throw (Error "Missing OPENWEATHER_KEY env var. Add it to GitHub Secrets (Codespaces)."),
     log).
Proof.
  intros H. unfold assertApiKey.
  destruct key as [[|c k]|]; try reflexivity.
  exfalso. apply H. exists (String c k). split; [reflexivity|discriminate].
Qed.

(** ** The geocoding loop *)

Section Geocode.
Variable API_KEY : option string.
Variable w : World.

Lemma geocode_cons q rest :
  geocode API_KEY w (q :: rest) =
  (attempt <- fetchJson (GeoRequest q 5 (appid API_KEY)) (geo_api w q) ;;
   match attempt with
   | GeoArray (x :: l) => ret (Some (dedupeGeo (x :: l)))
   | _ => geocode API_KEY w rest
   end).
Proof. reflexivity. Qed.

Lemma geocode_nothing cands : forall log,
  (forall q, In q cands -> geo_nothing w q) ->
  exists log', geocode API_KEY w cands log = (Value None, log').
Proof.
  induction cands as [|q rest IH]; intros log H.
  - now exists log.
  - rewrite geocode_cons.
    destruct (IH (log ++ [GeoRequest q 5 (appid API_KEY)])%list) as [log' E].
    { intros q' Hq'. apply H. now right. }
    exists log'.
    destruct (H q (or_introl eq_refl)) as [Ha|Ha];
      rewrite (bind_value _ _ _ _ _ (fetchJson_answered _ _ _ log Ha)); exact E.
Qed.

Lemma geocode_first cands q l : forall log,
  first_answer w cands q l ->
  exists log',
    geocode API_KEY w cands log = (Value (Some (dedupeGeo l)), log').
Proof.
  intros log [before [after [-> [Hb [Ha Hl]]]]]. revert log.
  induction before as [|q' rest IH]; intros log.
  - simpl app. rewrite geocode_cons.
    rewrite (bind_value _ _ _ _ _ (fetchJson_answered _ _ _ log Ha)).
    destruct l as [|x r]; [contradiction|]. now eexists.
  - simpl app. rewrite geocode_cons.
    destruct (IH (fun x Hx => Hb x (or_intror Hx))
                (log ++ [GeoRequest q' 5 (appid API_KEY)])%list) as [log' E].
    exists log'.
    destruct (Hb q' (or_introl eq_refl)) as [Hn|Hn];
      rewrite (bind_value _ _ _ _ _ (fetchJson_answered _ _ _ log Hn)); exact E.
Qed.
End Geocode.

(** ** getWeather *)

Section GetWeatherFacts.
Variable labelFromKey : string -> string.
Variable API_KEY : option string.
Variable w : World.

Lemma getWeather_unset place log :
  ~ key_set API_KEY ->
  getWeather labelFromKey API_KEY w place log = (Throw missing_key_error, log).
Proof.
  intros H. unfold getWeather.
  now rewrite (bind_throw _ _ _ _ _ (assertApiKey_unset API_KEY log H)).
Qed.

Lemma getWeather_set place log :
  key_set API_KEY ->
  getWeather labelFromKey API_KEY w place log =
  bind (geocode API_KEY w (candidates (normalizePlace place)))
    (fun geo =>
       match geo with
       | None | Some [] => ret (Failure (not_found_message place))
       | Some [loc] => weatherFor labelFromKey API_KEY w loc
       | Some geo =>
           if seemsSpecific (normalizePlace place) then
             match pickBestGeoMatch (normalizePlace place) geo with
             | Some loc => weatherFor labelFromKey API_KEY w loc
             | None => throw TypeError
             end
           else ret (Failure (ambiguous_message place geo))
       end) log.
Proof.
  intros H. unfold getWeather.
  now rewrite (bind_value _ _ _ _ _ (assertApiKey_set API_KEY log H)).
Qed.

Lemma getWeather_not_found place log :
  key_set API_KEY ->
  (forall q, In q (candidates (normalizePlace place)) -> geo_nothing w q) ->
  exists log',
    getWeather labelFromKey API_KEY w place log =
    (Value (Failure (not_found_message place)), log').
Proof.
  intros Hk Hn. rewrite (getWeather_set place log Hk).
  destruct (geocode_nothing API_KEY w _ log Hn) as [log' E].
  exists log'. now rewrite (bind_value _ _ _ _ _ E).
Qed.

Lemma getWeather_ambiguous_message place q l log :
  key_set API_KEY ->
  first_answer w (candidates (normalizePlace place)) q l ->
  1 < List.length (dedupeGeo l) ->
  seemsSpecific (normalizePlace place) = false ->
  exists log',
    getWeather labelFromKey API_KEY w place log =
    (Value (Failure (ambiguous_message place (dedupeGeo l))), log').
Proof.
  intros Hk Hf Hl Hs. rewrite (getWeather_set place log Hk).
  destruct (geocode_first API_KEY w _ q l log Hf) as [log' E].
  exists log'. rewrite (bind_value _ _ _ _ _ E), Hs.
  destruct (dedupeGeo l) as [|g1 [|g2 r]]; simpl in Hl; try lia. reflexivity.
Qed.

Lemma getWeather_resolved place q l loc log :
  key_set API_KEY ->
  first_answer w (candidates (normalizePlace place)) q l ->
  resolved_location (normalizePlace place) (dedupeGeo l) loc ->
  exists log',
    getWeather labelFromKey API_KEY w place log =
    weatherFor labelFromKey API_KEY w loc log'.
Proof.
  intros Hk Hf Hr. rewrite (getWeather_set place log Hk).
  destruct (geocode_first API_KEY w _ q l log Hf) as [log' E].
  exists log'. rewrite (bind_value _ _ _ _ _ E).
  destruct Hr as [->|[Hl [Hs ->]]]; [reflexivity|]. rewrite Hs.
  destruct (dedupeGeo l) as [|g1 [|g2 r]]; simpl in Hl; try lia. reflexivity.
Qed.

Lemma weatherFor_answered loc cur fc log :
  answered (current_api w (lat loc) (lon loc)) (Some cur) ->
  answered (forecast_api w (lat loc) (lon loc)) (Some fc) ->
  exists location current log',
    weatherFor labelFromKey API_KEY w loc log =
    (Value (Success location current
              (summarizeForecast labelFromKey (orElse (fc_list fc) [])
                 (orElse (timezone cur) 0%Z) 3 (clock w))),
     log').
Proof.
  intros Hc Hf. unfold weatherFor.
  rewrite (bind_value _ _ _ _ _ (fetchJson_answered _ _ _ log Hc)).
  rewrite (bind_value _ _ _ _ _ (fetchJson_answered _ _ _ _ Hf)).
  now eexists _, _, _.
Qed.
End GetWeatherFacts.

(** ** The list of options *)

Lemma map_from_length {A B} (f : A -> nat -> B) l : forall i,
  List.length (map_from f i l) = List.length l.
Proof. induction l as [|x r IH]; intros i; simpl; [reflexivity|]. now rewrite IH. Qed.

Lemma map_from_nth {A B} (f : A -> nat -> B) l : forall i n x,
  nth_error l n = Some x -> nth_error (map_from f i l) n = Some (f x (i + n)).
Proof.
  induction l as [|y r IH]; intros i n x H; [destruct n; discriminate|].
  destruct n as [|n]; simpl in *.
  - injection H as ->. now rewrite Nat.add_0_r.
  - rewrite (IH (S i) n x H). f_equal. f_equal. lia.
Qed.

Lemma seemsSpecific_false n :
  seemsSpecific n = false <->
  includes n "," = false /\ includes_ci n "united states" = false
  /\ includes_ci n "usa" = false /\ us_token false n = false.
Proof.
  unfold seemsSpecific. rewrite !orb_false_iff. tauto.
Qed.

Lemma ambiguous_message_lines place geo :
  exists lines,
    ambiguous_message place geo =
      "I found multiple matches for **" ++ place ++ "**:" ++ newline
        ++ join newline lines ++ newline ++ newline
        ++ "Try adding state/country (ex: " ++ dquote ++ "Houston, TX, US" ++ dquote
        ++ " or " ++ dquote ++ "Paris, FR" ++ dquote ++ ")."
    /\ List.length lines = Nat.min 3 (List.length geo)
    /\ forall i g,
         i < 3 -> nth_error geo i = Some g ->
         nth_error lines i =
           Some ("**" ++ string_of_nat (i + 1) ++ ".** " ++ name g
                   ++ state_suffix g ++ ", " ++ country g).
Proof.
  exists (map_from option_line 0 (firstn 3 geo)). split; [reflexivity|]. split.
  - now rewrite map_from_length, length_firstn.
  - intros i g Hi Hg.
    apply (map_from_nth option_line (firstn 3 geo) 0 i g).
    rewrite nth_error_firstn.
    destruct (Nat.ltb_spec i 3); [exact Hg|lia].
Qed.

(** ** Maps in insertion order *)

Section StrMapFacts.
Variable V : Type.

Lemma map_get_set_same k (v : V) m : map_get k (map_set k v m) = Some v.
Proof.
  induction m as [|[k' v'] r IH]; simpl.
  - now rewrite String.eqb_refl.
  - destruct (String.eqb k' k) eqn:E; simpl; rewrite E; [reflexivity|exact IH].
Qed.

Lemma map_get_set_other k k' (v : V) m :
  k' <> k -> map_get k (map_set k' v m) = map_get k m.
Proof.
  intros Hk. induction m as [|[k2 v2] r IH]; simpl.
  - destruct (String.eqb_spec k' k); [contradiction|reflexivity].
  - destruct (String.eqb_spec k2 k') as [->|].
    + simpl. destruct (String.eqb_spec k' k); [contradiction|reflexivity].
    + simpl. destruct (String.eqb k2 k); [reflexivity|exact IH].
Qed.

Lemma map_get_keys k (m : list (string * V)) :
  In k (map_keys m) <-> map_get k m <> None.
Proof.
  unfold map_keys. induction m as [|[k' v'] r IH]; simpl.
  - split; [intros []|intros H; now apply H].
  - destruct (String.eqb_spec k' k) as [->|Hn].
    + split; [discriminate|now left].
    + rewrite <- IH. split; [intros [H|H]; [contradiction|exact H]|now right].
Qed.

Lemma map_set_keys k (v : V) m :
  map_keys (map_set k v m) =
  if existsb (String.eqb k) (map_keys m) then map_keys m
  else (map_keys m ++ [k])%list.
Proof.
  unfold map_keys. induction m as [|[k' v'] r IH]; simpl; [reflexivity|].
  rewrite (String.eqb_sym k k').
  destruct (String.eqb_spec k' k) as [->|Hn]; simpl; [reflexivity|].
  rewrite IH. now destruct (existsb (String.eqb k) (map fst r)).
Qed.

Lemma map_set_keys_NoDup k (v : V) m :
  NoDup (map_keys m) -> NoDup (map_keys (map_set k v m)).
Proof.
  intros H. rewrite map_set_keys.
  destruct (existsb (String.eqb k) (map_keys m)) eqn:E; [exact H|].
  apply NoDup_app; [exact H|repeat constructor; intros []|].
  intros x Hx [<-|[]].
  assert (existsb (String.eqb k) (map_keys m) = true); [|congruence].
  apply existsb_exists. exists k. split; [exact Hx|apply String.eqb_refl].
Qed.
End StrMapFacts.

(** ** The bucket of a day *)

Lemma fold_point_skip acc it : kept it = false -> fold_point acc it = acc.
Proof.
  unfold kept, fold_point.
  destruct (item_min it), (item_max it); intros H; try reflexivity; discriminate.
Qed.

Lemma add_item_skip tz m it : kept it = false -> add_item tz m it = m.
Proof.
  unfold kept, add_item.
  destruct (item_min it), (item_max it); intros H; try reflexivity; discriminate.
Qed.

Lemma add_item_get tz m it k :
  map_get k (add_item tz m it) =
  if String.eqb (day_of tz it) k then fold_point (map_get k m) it else map_get k m.
Proof.
  unfold add_item, fold_point, day_of.
  destruct (item_min it) as [mn|], (item_max it) as [mx|];
    try (now destruct (String.eqb _ k)).
  destruct (String.eqb_spec (dayKeyFromUtcWithOffset (dt it) tz) k) as [<-|Hn].
  - now rewrite map_get_set_same.
  - now rewrite map_get_set_other.
Qed.

Lemma build_get_from tz items k : forall m,
  map_get k (fold_left (add_item tz) items m) =
  fold_left fold_point (day_points tz k items) (map_get k m).
Proof.
  induction items as [|it r IH]; intros m; [reflexivity|].
  simpl fold_left. rewrite IH, add_item_get. unfold day_points. simpl filter.
  destruct (kept it) eqn:Ek; simpl andb.
  - now destruct (String.eqb (day_of tz it) k).
  - rewrite (fold_point_skip _ _ Ek). now destruct (String.eqb (day_of tz it) k).
Qed.

Lemma build_get tz items k :
  map_get k (build_days tz items) = fold_left fold_point (day_points tz k items) None.
Proof. apply build_get_from. Qed.

Lemma day_points_kept tz k items it :
  In it (day_points tz k items) -> kept it = true /\ day_of tz it = k /\ In it items.
Proof.
  unfold day_points. intros H. apply filter_In in H as [Hi H].
  apply andb_prop in H as [Hk He]. apply String.eqb_eq in He. now repeat split.
Qed.

Lemma fold_point_kept acc it :
  kept it = true ->
  exists a,
    fold_point acc it = Some a
    /\ descCounts a = count_step (counts_of acc) (item_desc it)
    /\ popMax a = Qmax (pop_of acc) (item_pop it).
Proof.
  unfold kept, fold_point.
  destruct (item_min it) as [mn|], (item_max it) as [mx|]; try discriminate.
  intros _. eexists. split; [reflexivity|]. now destruct acc.
Qed.

Lemma fold_points pts : forall acc,
  Forall (fun it => kept it = true) pts ->
  counts_of (fold_left fold_point pts acc) =
    fold_left count_step (map item_desc pts) (counts_of acc)
  /\ pop_of (fold_left fold_point pts acc) =
    fold_left Qmax (map item_pop pts) (pop_of acc)
  /\ (pts <> [] -> fold_left fold_point pts acc <> None).
Proof.
  induction pts as [|it r IH]; intros acc H.
  - simpl. repeat split. intros E. now contradiction E.
  - inversion H as [|? ? Hk Hr]; subst.
    destruct (fold_point_kept acc it Hk) as [a [Ea [Ec Ep]]].
    simpl. rewrite Ea. destruct (IH (Some a) Hr) as [H1 [H2 H3]].
    rewrite H1, H2. simpl. rewrite Ec, Ep. repeat split.
    intros _. destruct r as [|it' r']; [simpl; discriminate|].
    apply H3. discriminate.
Qed.

Lemma day_points_Forall tz k items :
  Forall (fun it => kept it = true) (day_points tz k items).
Proof.
  apply Forall_forall. intros it H. now apply day_points_kept in H.
Qed.

(** The bucket of [k] exists exactly when some kept point falls on [k]. *)
Lemma build_has_bucket tz items k :
  In k (map_keys (build_days tz items)) <-> day_points tz k items <> [].
Proof.
  rewrite map_get_keys, build_get. split.
  - intros H E. rewrite E in H. now apply H.
  - intros H. now apply (fold_points _ None (day_points_Forall tz k items)).
Qed.

Lemma build_keys_NoDup tz items : NoDup (map_keys (build_days tz items)).
Proof.
  unfold build_days.
  assert (G : forall m, NoDup (map_keys m) ->
                        NoDup (map_keys (fold_left (add_item tz) items m))).
  { induction items as [|it r IH]; intros m Hm; [exact Hm|].
    simpl. apply IH. unfold add_item.
    destruct (item_min it), (item_max it); try exact Hm.
    now apply map_set_keys_NoDup. }
  apply G. constructor.
Qed.

(** ** First occurrences *)

Lemma uniq_In x l : In x (uniq l) <-> In x l.
Proof.
  induction l as [|y r IH]; simpl; [tauto|].
  rewrite filter_In, IH. split.
  - intros [H|[H _]]; [now left|now right].
  - intros [H|H]; [now left|].
    destruct (String.eqb_spec x y) as [->|Hn]; [now left|]. right.
    split; [exact H|reflexivity].
Qed.

Lemma uniq_NoDup l : NoDup (uniq l).
Proof.
  induction l as [|y r IH]; simpl; constructor.
  - intros H. apply filter_In in H as [_ H]. now rewrite String.eqb_refl in H.
  - now apply NoDup_filter.
Qed.

Lemma uniq_snoc l d :
  uniq (l ++ [d])%list =
  if existsb (String.eqb d) l then uniq l else (uniq l ++ [d])%list.
Proof.
  induction l as [|y r IH]; [reflexivity|].
  simpl. rewrite IH.
  destruct (String.eqb_spec d y) as [->|Hn]; simpl.
  - destruct (existsb (String.eqb y) r); [reflexivity|].
    rewrite filter_app. simpl. rewrite String.eqb_refl. simpl. now rewrite app_nil_r.
  - destruct (existsb (String.eqb d) r); [reflexivity|].
    rewrite filter_app. simpl. now rewrite (proj2 (String.eqb_neq d y) Hn).
Qed.

Lemma existsb_eqb_In d l : existsb (String.eqb d) l = true <-> In d l.
Proof.
  rewrite existsb_exists. split.
  - intros [x [Hx E]]. apply String.eqb_eq in E. now subst.
  - intros H. exists d. split; [exact H|apply String.eqb_refl].
Qed.

(** Lifting a first hit from the first occurrences to the whole list. *)
Lemma filter_split {A} (f : A -> bool) l : forall a d b,
  filter f l = (a ++ d :: b)%list ->
  exists a' b', l = (a' ++ d :: b')%list
                /\ forall y, In y a' -> f y = false \/ In y a.
Proof.
  induction l as [|x r IH]; intros a d b H; [destruct a; discriminate|].
  simpl in H. destruct (f x) eqn:E.
  - destruct a as [|x' a0]; simpl in H; injection H as <- H.
    + exists [], r. split; [reflexivity|intros y []].
    + destruct (IH a0 d b H) as [a' [b' [-> Hy]]].
      exists (x :: a'), b'. split; [reflexivity|].
      intros y [<-|Hin]; [right; now left|].
      destruct (Hy y Hin) as [F|I]; [now left|right; now right].
  - destruct (IH a d b H) as [a' [b' [-> Hy]]].
    exists (x :: a'), b'. split; [reflexivity|].
    intros y [<-|Hin]; [now left|now apply Hy].
Qed.

Lemma first_hit_uniq (P : string -> Prop) l d :
  first_hit P (uniq l) d -> first_hit P l d.
Proof.
  induction l as [|x r IH]; intros [k1 [k2 [E [Hd Hk]]]].
  - destruct k1; discriminate.
  - simpl in E. destruct k1 as [|x' k1']; simpl in E; injection E as <- E.
    + exists [], r. split; [reflexivity|]. split; [exact Hd|intros y []].
    + destruct (filter_split _ _ _ _ _ E) as [a' [b' [Eu Hy]]].
      destruct IH as [l1 [l2 [-> [_ Hl]]]].
      { exists a', b'. split; [exact Eu|]. split; [exact Hd|].
        intros y Hin. destruct (Hy y Hin) as [F|I].
        - apply negb_false_iff, String.eqb_eq in F. subst y.
          apply Hk. now left.
        - apply Hk. now right. }
      exists (x :: l1), l2. split; [reflexivity|]. split; [exact Hd|].
      intros y [<-|Hin]; [apply Hk; now left|now apply Hl].
Qed.

(** ** Counting descriptions *)

Lemma occurrences_snoc x ds d :
  occurrences x (ds ++ [d])%list =
  occurrences x ds + (if String.eqb x d then 1 else 0).
Proof.
  unfold occurrences. rewrite filter_app, length_app. simpl.
  now destruct (String.eqb x d).
Qed.

Lemma occurrences_In x ds : In x ds -> 1 <= occurrences x ds.
Proof.
  unfold occurrences. induction ds as [|y r IH]; intros H; [contradiction|].
  simpl. destruct (String.eqb_spec x y) as [->|Hn]; simpl; [lia|].
  destruct H as [->|H]; [contradiction|now apply IH].
Qed.

Lemma occurrences_not_In x ds : ~ In x ds -> occurrences x ds = 0.
Proof.
  unfold occurrences. induction ds as [|y r IH]; intros H; [reflexivity|].
  simpl. destruct (String.eqb_spec x y) as [->|Hn].
  - exfalso. apply H. now left.
  - apply IH. intros Hr. apply H. now right.
Qed.

Section Counts.
Variable c : string -> nat.

Lemma map_get_counts ks d :
  map_get d (map (fun x => (x, c x)) ks) =
  if existsb (String.eqb d) ks then Some (c d) else None.
Proof.
  induction ks as [|k r IH]; simpl; [reflexivity|].
  rewrite (String.eqb_sym d k).
  destruct (String.eqb_spec k d) as [->|Hn]; [reflexivity|exact IH].
Qed.

Lemma map_set_counts_new ks d v :
  existsb (String.eqb d) ks = false ->
  map_set d v (map (fun x => (x, c x)) ks) =
  (map (fun x => (x, c x)) ks ++ [(d, v)])%list.
Proof.
  induction ks as [|k r IH]; simpl; [reflexivity|].
  rewrite (String.eqb_sym d k). intros H. apply orb_false_elim in H as [Hk Hr].
  rewrite Hk. now rewrite IH.
Qed.

Lemma map_set_counts_old ks d v :
  NoDup ks -> In d ks ->
  map_set d v (map (fun x => (x, c x)) ks) =
  map (fun x => (x, if String.eqb x d then v else c x)) ks.
Proof.
  induction ks as [|k r IH]; intros Hn Hi; [contradiction|].
  inversion Hn as [|? ? Hk Hr]; subst. simpl.
  destruct (String.eqb_spec k d) as [->|Hne].
  - f_equal. apply map_ext_in. intros x Hx.
    destruct (String.eqb_spec x d) as [->|]; [contradiction|reflexivity].
  - f_equal. apply IH; [exact Hr|]. destruct Hi as [->|Hi]; [contradiction|exact Hi].
Qed.
End Counts.

Lemma count_descs ds :
  fold_left count_step ds [] = map (fun d => (d, occurrences d ds)) (uniq ds).
Proof.
  induction ds as [|d ds IH] using rev_ind; [reflexivity|].
  rewrite fold_left_app, IH. simpl. unfold count_step.
  rewrite map_get_counts, uniq_snoc.
  assert (Hex : existsb (String.eqb d) (uniq ds) = existsb (String.eqb d) ds).
  { apply eq_true_iff_eq. rewrite !existsb_eqb_In. apply uniq_In. }
  rewrite Hex. destruct (existsb (String.eqb d) ds) eqn:E.
  - rewrite map_set_counts_old;
      [|apply uniq_NoDup|apply uniq_In; now apply existsb_eqb_In].
    apply map_ext. intros x. rewrite occurrences_snoc. simpl.
    destruct (String.eqb_spec x d) as [->|]; [reflexivity|]. f_equal. lia.
  - rewrite map_set_counts_new by (now rewrite Hex).
    rewrite map_app. simpl. rewrite occurrences_snoc, String.eqb_refl.
    assert (Hd : ~ In d ds).
    { intros H. apply existsb_eqb_In in H. congruence. }
    rewrite (occurrences_not_In d ds Hd). simpl. f_equal.
    apply map_ext_in. intros x Hx. rewrite occurrences_snoc.
    destruct (String.eqb_spec x d) as [->|]; [|f_equal; lia].
    exfalso. apply Hd. now apply uniq_In.
Qed.

(** ** The most frequent description *)

Lemma top_desc_fold counts :
  top_desc counts = fst (fold_left top_step counts ("mixed conditions", 0)).
Proof. reflexivity. Qed.

Section Top.
Variable c : string -> nat.

Lemma top_fold_cons k r td tc :
  fold_left top_step (map (fun x => (x, c x)) (k :: r)) (td, tc) =
  fold_left top_step (map (fun x => (x, c x)) r)
    (if tc <? c k then (k, c k) else (td, tc)).
Proof. reflexivity. Qed.

Lemma top_fold ks : forall td tc,
  (fold_left top_step (map (fun x => (x, c x)) ks) (td, tc) = (td, tc)
   /\ forall k, In k ks -> c k <= tc)
  \/ first_hit (fun k => tc < c k /\ forall k', In k' ks -> c k' <= c k) ks
       (fst (fold_left top_step (map (fun x => (x, c x)) ks) (td, tc))).
Proof.
  induction ks as [|k r IH]; intros td tc.
  - left. split; [reflexivity|intros k []].
  - rewrite top_fold_cons.
    destruct (Nat.ltb_spec tc (c k)) as [Hlt|Hge].
    + right. destruct (IH k (c k)) as [[E Hr]|[l1 [l2 [El [[Hd Hm] Hl]]]]].
      * rewrite E. simpl. exists [], r. split; [reflexivity|]. split.
        -- split; [exact Hlt|]. intros k' [<-|Hk']; [lia|now apply Hr].
        -- intros x [].
      * set (d := fst (fold_left top_step (map (fun x => (x, c x)) r) (k, c k))) in *.
        exists (k :: l1), l2. split; [now rewrite El|]. split.
        -- split; [lia|]. intros k' [<-|Hk']; [lia|now apply Hm].
        -- assert (Hdr : In d r) by (rewrite El; apply in_or_app; right; now left).
           intros x [<-|Hx] [Hx1 Hx2].
           ++ pose proof (Hx2 d (or_intror Hdr)). lia.
           ++ apply (Hl x Hx). split.
              ** pose proof (Hx2 d (or_intror Hdr)).
                 pose proof (Hx2 k (or_introl eq_refl)). lia.
              ** intros k' Hk'. apply Hx2. now right.
    + destruct (IH td tc) as [[E Hr]|[l1 [l2 [El [[Hd Hm] Hl]]]]].
      * left. split; [exact E|]. intros k' [<-|Hk']; [exact Hge|now apply Hr].
      * right.
        set (d := fst (fold_left top_step (map (fun x => (x, c x)) r) (td, tc))) in *.
        exists (k :: l1), l2. split; [now rewrite El|]. split.
        -- split; [exact Hd|]. intros k' [<-|Hk']; [lia|now apply Hm].
        -- intros x [<-|Hx] [Hx1 Hx2]; [lia|].
           apply (Hl x Hx). split; [exact Hx1|].
           intros k' Hk'. apply Hx2. now right.
Qed.
End Top.

Lemma top_desc_first ds :
  ds <> [] ->
  first_hit (most_frequent ds) ds (top_desc (fold_left count_step ds [])).
Proof.
  intros Hne. rewrite count_descs, top_desc_fold.
  apply first_hit_uniq.
  destruct (top_fold (fun d => occurrences d ds) (uniq ds) "mixed conditions" 0)
    as [[_ Hall]|[l1 [l2 [El [[Hd Hm] Hl]]]]].
  - exfalso. destruct ds as [|d r]; [now apply Hne|].
    assert (Hin : In d (d :: r)) by now left.
    specialize (Hall d (proj2 (uniq_In d (d :: r)) Hin)).
    pose proof (occurrences_In d (d :: r) Hin). lia.
  - exists l1, l2. split; [exact El|]. split.
    + intros d'. destruct (in_dec string_dec d' ds) as [Hi|Hi].
      * apply Hm. now apply uniq_In.
      * rewrite (occurrences_not_In d' ds Hi). lia.
    + intros x Hx HP. apply (Hl x Hx). split.
      * assert (Hi : In x ds).
        { apply uniq_In. rewrite El. apply in_or_app. now left. }
        pose proof (occurrences_In x ds Hi). lia.
      * intros k' _. apply HP.
Qed.

(** ** The order of strings *)

Lemma ascii_compare_refl a : Ascii.compare a a = Eq.
Proof. unfold Ascii.compare. apply N.compare_refl. Qed.

Lemma ascii_compare_lt_trans a b c :
  Ascii.compare a b = Lt -> Ascii.compare b c = Lt -> Ascii.compare a c = Lt.
Proof.
  unfold Ascii.compare. rewrite !N.compare_lt_iff. apply N.lt_trans.
Qed.

Lemma string_compare_refl s : String.compare s s = Eq.
Proof. induction s as [|c t IH]; simpl; [reflexivity|]. now rewrite ascii_compare_refl. Qed.

Lemma string_compare_lt_trans a : forall b c,
  String.compare a b = Lt -> String.compare b c = Lt -> String.compare a c = Lt.
Proof.
  induction a as [|x a IH]; intros [|y b] [|z c]; simpl; try discriminate; try reflexivity.
  destruct (Ascii.compare x y) eqn:Exy; try discriminate;
    destruct (Ascii.compare y z) eqn:Eyz; try discriminate; intros H1 H2.
  - apply Ascii.compare_eq_iff in Exy, Eyz. subst.
    rewrite ascii_compare_refl. now apply IH with b.
  - apply Ascii.compare_eq_iff in Exy. subst. now rewrite Eyz.
  - apply Ascii.compare_eq_iff in Eyz. subst. now rewrite Exy.
  - now rewrite (ascii_compare_lt_trans x y z Exy Eyz).
Qed.

Lemma str_lt_trans a b c : str_lt a b -> str_lt b c -> str_lt a c.
Proof.
  unfold str_lt, String.ltb. intros H1 H2.
  destruct (String.compare a b) eqn:E1; try discriminate.
  destruct (String.compare b c) eqn:E2; try discriminate.
  now rewrite (string_compare_lt_trans a b c E1 E2).
Qed.

Lemma str_lt_irrefl a : ~ str_lt a a.
Proof. unfold str_lt, String.ltb. now rewrite string_compare_refl. Qed.

Lemma str_le_lt a b : str_le a b -> a <> b -> str_lt a b.
Proof.
  unfold str_le, str_lt, String.leb, String.ltb. intros H Hn.
  destruct (String.compare a b) eqn:E; try discriminate; [|reflexivity].
  apply String.compare_eq_iff in E. contradiction.
Qed.

Lemma str_lt_le a b : str_lt a b -> str_le a b.
Proof.
  unfold str_le, str_lt, String.leb, String.ltb.
  now destruct (String.compare a b).
Qed.

Lemma str_le_total a b : str_le a b \/ str_le b a.
Proof. apply String.leb_total. Qed.

Lemma str_le_trans a b c : str_le a b -> str_le b c -> str_le a c.
Proof.
  intros H1 H2.
  destruct (string_dec a b) as [->|Hab]; [exact H2|].
  destruct (string_dec b c) as [->|Hbc]; [exact H1|].
  apply str_lt_le. apply str_lt_trans with b; now apply str_le_lt.
Qed.

(** ** Sorting *)

Lemma insert_sorted_perm k l : Permutation (insert_sorted k l) (k :: l).
Proof.
  induction l as [|h t IH]; simpl; [reflexivity|].
  destruct (String.leb k h); [reflexivity|].
  rewrite IH. apply perm_swap.
Qed.

Lemma sort_strings_perm l : Permutation (sort_strings l) l.
Proof.
  induction l as [|k r IH]; simpl; [reflexivity|].
  rewrite insert_sorted_perm. now constructor.
Qed.

Lemma insert_sorted_le k l :
  StronglySorted str_le l -> StronglySorted str_le (insert_sorted k l).
Proof.
  induction 1 as [|h t Ht IH Hh]; simpl; [repeat constructor|].
  destruct (String.leb k h) eqn:E.
  - constructor; [now constructor|]. constructor; [exact E|].
    eapply Forall_impl; [|exact Hh]. intros x Hx. now apply str_le_trans with h.
  - constructor; [exact IH|].
    assert (Hhk : str_le h k).
    { destruct (str_le_total k h) as [H|H]; [unfold str_le in H; congruence|exact H]. }
    eapply Permutation_Forall; [symmetry; apply insert_sorted_perm|].
    now constructor.
Qed.

Lemma sort_strings_le l : StronglySorted str_le (sort_strings l).
Proof.
  induction l as [|k r IH]; simpl; [constructor|]. now apply insert_sorted_le.
Qed.

Lemma sorted_le_lt l :
  NoDup l -> StronglySorted str_le l -> StronglySorted str_lt l.
Proof.
  induction 2 as [|h t Ht IH Hh]; [constructor|].
  inversion H as [|? ? Hn Hd]; subst.
  constructor; [now apply IH|].
  apply Forall_forall. intros x Hx. apply str_le_lt.
  - now apply (proj1 (Forall_forall _ _) Hh).
  - intros ->. contradiction.
Qed.

Lemma sort_strings_lt l : NoDup l -> StronglySorted str_lt (sort_strings l).
Proof.
  intros H. apply sorted_le_lt; [|apply sort_strings_le].
  eapply Permutation_NoDup; [symmetry; apply sort_strings_perm|exact H].
Qed.

Lemma filter_sorted {A} (R : A -> A -> Prop) (f : A -> bool) l :
  StronglySorted R l -> StronglySorted R (filter f l).
Proof.
  induction 1 as [|h t Ht IH Hh]; simpl; [constructor|].
  destruct (f h); [|exact IH]. constructor; [exact IH|].
  apply Forall_forall. intros x Hx. apply filter_In in Hx as [Hx _].
  now apply (proj1 (Forall_forall _ _) Hh).
Qed.

(** ** The chosen days *)

Lemma slice0_firstn {A} (n : Z) (l : list A) :
  (0 <= n)%Z -> slice0 n l = firstn (Z.to_nat n) l.
Proof.
  intros Hn. unfold slice0.
  destruct (Z.ltb_spec n 0); [lia|].
  destruct (Z.le_gt_cases n (Z.of_nat (List.length l))) as [H1|H1].
  - now rewrite Z.min_l.
  - rewrite Z.min_r by lia. rewrite Nat2Z.id.
    rewrite firstn_all. symmetry. apply firstn_all2. lia.
Qed.

Lemma chosen_remaining byDay tz days now :
  chosen_keys byDay tz days now =
  slice0 days (remaining_keys byDay (dayKeyFromUtcWithOffset now tz)).
Proof.
  unfold chosen_keys, remaining_keys. cbv zeta.
  now destruct (filter _ (sort_strings (map_keys byDay))).
Qed.

Lemma remaining_sorted byDay nowKey :
  NoDup (map_keys byDay) -> StronglySorted str_lt (remaining_keys byDay nowKey).
Proof.
  intros H. unfold remaining_keys.
  pose proof (sort_strings_lt _ H) as Hs.
  pose proof (filter_sorted str_lt (fun k => negb (String.eqb k nowKey)) _ Hs) as Hf.
  now destruct (filter _ (sort_strings (map_keys byDay))).
Qed.

Lemma remaining_In byDay nowKey k :
  In k (remaining_keys byDay nowKey) <->
  In k (map_keys byDay)
  /\ (k <> nowKey \/ forall k', In k' (map_keys byDay) -> k' = nowKey).
Proof.
  unfold remaining_keys.
  assert (Hs : forall x, In x (sort_strings (map_keys byDay)) <-> In x (map_keys byDay)).
  { intros x. split; apply Permutation_in;
      [apply sort_strings_perm|symmetry; apply sort_strings_perm]. }
  assert (Hf : forall x,
             In x (filter (fun k => negb (String.eqb k nowKey))
                     (sort_strings (map_keys byDay)))
             <-> In x (map_keys byDay) /\ x <> nowKey).
  { intros x. rewrite filter_In, Hs, negb_true_iff, String.eqb_neq. tauto. }
  destruct (filter _ (sort_strings (map_keys byDay))) as [|f r] eqn:E.
  - rewrite Hs. split; [|tauto]. intros H. split; [exact H|]. right.
    intros k' Hk'. destruct (string_dec k' nowKey) as [->|Hn]; [reflexivity|].
    exfalso. apply (proj2 (Hf k') (conj Hk' Hn)).
  - rewrite Hf. split; [tauto|]. intros [H [Hn|Hall]]; [tauto|].
    exfalso. assert (Hfin : In f (f :: r)) by now left.
    apply Hf in Hfin as [Hf1 Hf2]. now apply Hf2, Hall.
Qed.

Lemma summarize_keys_In labelFromKey byDay ks s :
  In s (summarize_keys labelFromKey byDay ks) <->
  exists k agg,
    In k ks /\ map_get k byDay = Some agg /\ s = summary_of labelFromKey k agg.
Proof.
  unfold summarize_keys. rewrite in_flat_map. split.
  - intros [k [Hk Hs]]. destruct (map_get k byDay) as [agg|] eqn:E; [|contradiction].
    destruct Hs as [<-|[]]. now exists k, agg.
  - intros [k [agg [Hk [E ->]]]]. exists k. split; [exact Hk|]. rewrite E. now left.
Qed.

Lemma summarize_keys_Forall2 labelFromKey byDay ks :
  (forall k, In k ks -> In k (map_keys byDay)) ->
  Forall2 (fun k s =>
             exists agg, map_get k byDay = Some agg
                         /\ s = summary_of labelFromKey k agg)
    ks (summarize_keys labelFromKey byDay ks).
Proof.
  induction ks as [|k r IH]; intros H; [constructor|].
  unfold summarize_keys. simpl.
  assert (Hk : map_get k byDay <> None) by (apply map_get_keys, H; now left).
  destruct (map_get k byDay) as [agg|] eqn:E; [|contradiction].
  simpl. constructor; [now exists agg|].
  apply IH. intros k' Hk'. apply H. now right.
Qed.

Lemma firstn_incl {A} n (l : list A) x : In x (firstn n l) -> In x l.
Proof.
  intros H. rewrite <- (firstn_skipn n l). apply in_or_app. now left.
Qed.

Lemma Forall2_same_length {A B} (R : A -> B -> Prop) l l' :
  Forall2 R l l' -> List.length l = List.length l'.
Proof. induction 1; simpl; [reflexivity|now f_equal]. Qed.

Lemma chosen_subset byDay tz days now k :
  In k (chosen_keys byDay tz days now) -> In k (map_keys byDay).
Proof.
  rewrite chosen_remaining. unfold slice0. intros H.
  apply firstn_incl in H. now apply remaining_In in H.
Qed.

(** ** Peak precipitation probability *)

Lemma Qmax_cases x y : Qmax x y = x \/ Qmax x y = y.
Proof.
  unfold Qmax, GenericMinMax.gmax. destruct (x ?= y)%Q; auto.
Qed.

Lemma fold_Qmax_le l : forall a,
  (a <= fold_left Qmax l a)%Q
  /\ (forall p, In p l -> (p <= fold_left Qmax l a)%Q)
  /\ (fold_left Qmax l a = a \/ In (fold_left Qmax l a) l).
Proof.
  induction l as [|x r IH]; intros a; simpl.
  - split; [apply Qle_refl|]. split; [intros p []|now left].
  - destruct (IH (Qmax a x)) as [H1 [H2 H3]]. split; [|split].
    + eapply Qle_trans; [apply Q.le_max_l|exact H1].
    + intros p [<-|Hp]; [|now apply H2].
      eapply Qle_trans; [apply Q.le_max_r|exact H1].
    + destruct H3 as [H3|H3]; [|right; now right].
      rewrite H3. destruct (Qmax_cases a x) as [->| ->]; [now left|right; now left].
Qed.

(** ** The summary of a day *)

Lemma summary_of_day labelFromKey items tz days now s :
  In s (summarizeForecast labelFromKey items tz days now) ->
  exists k,
    In k (chosen_keys (build_days tz items) tz days now)
    /\ label s = labelFromKey k
    /\ day_points tz k items <> []
    /\ desc s = top_desc (fold_left count_step
                            (map item_desc (day_points tz k items)) [])
    /\ day_pop s = fold_left Qmax (map item_pop (day_points tz k items)) 0%Q.
Proof.
  unfold summarizeForecast. intros H.
  apply summarize_keys_In in H as [k [agg [Hk [E ->]]]].
  exists k. split; [exact Hk|]. split; [reflexivity|].
  assert (Hb : day_points tz k items <> []).
  { apply build_has_bucket, map_get_keys. now rewrite E. }
  split; [exact Hb|].
  rewrite build_get in E.
  destruct (fold_points (day_points tz k items) None (day_points_Forall tz k items))
    as [Hc [Hp _]].
  rewrite E in Hc, Hp. simpl in Hc, Hp. simpl. now rewrite Hc, Hp.
Qed.

Lemma two_points_one_day labelFromKey tz days now p1 p2 :
  kept p1 = true -> kept p2 = true ->
  day_of tz p1 = day_of tz p2 ->
  item_desc p1 <> item_desc p2 ->
  (1 <= days)%Z ->
  exists s,
    summarizeForecast labelFromKey [p1; p2] tz days now = [s]
    /\ desc s = item_desc p1.
Proof.
  intros K1 K2 Hd Hn Hdays. unfold kept in K1, K2. unfold day_of in Hd.
  destruct (item_min p1) as [mn1|] eqn:E1; [|discriminate].
  destruct (item_max p1) as [mx1|] eqn:E2; [|discriminate].
  destruct (item_min p2) as [mn2|] eqn:E3; [|discriminate].
  destruct (item_max p2) as [mx2|] eqn:E4; [|discriminate].
  unfold summarizeForecast, build_days. simpl fold_left.
  unfold add_item. rewrite E1, E2, E3, E4, <- Hd. simpl.
  rewrite String.eqb_refl. simpl.
  rewrite (proj2 (String.eqb_neq (item_desc p1) (item_desc p2)) Hn). simpl.
  set (k := dayKeyFromUtcWithOffset (dt p1) tz).
  set (agg := mkAgg _ _ _ _).
  assert (Hc : chosen_keys [(k, agg)] tz days now = [k]).
  { unfold chosen_keys. simpl.
    assert (Hs : slice0 days [k] = [k]).
    { rewrite slice0_firstn by lia.
      destruct (Z.to_nat days) as [|n] eqn:En; [lia|]. simpl. now rewrite firstn_nil. }
    now destruct (negb (String.eqb k (dayKeyFromUtcWithOffset now tz))). }
  rewrite Hc. unfold summarize_keys. simpl. rewrite String.eqb_refl.
  eexists. split; reflexivity.
Qed.

(** ** Skipped points *)

Lemma build_days_kept tz items :
  build_days tz (filter kept items) = build_days tz items.
Proof.
  unfold build_days. generalize (@nil (string * Agg)).
  induction items as [|it r IH]; intros m; [reflexivity|]. simpl.
  destruct (kept it) eqn:E; simpl; [apply IH|].
  now rewrite (add_item_skip tz m it E).
Qed.

Lemma kept_false_iff it :
  kept it = false <-> item_min it = None \/ item_max it = None.
Proof.
  unfold kept. destruct (item_min it), (item_max it); split;
    try discriminate; try reflexivity; auto; intros [H|H]; discriminate.
Qed.

(** ** Calendar order of the day keys *)

Lemma all_from_spec f p : forall lo,
  all_from f p lo = true ->
  forall d, (lo <= d < lo + Zpos p)%Z -> f d = true.
Proof.
  induction p as [q IH|q IH|]; intros lo H d Hd; simpl in H.
  - apply andb_prop in H as [H H2]. apply andb_prop in H as [H0 H1].
    destruct (Z.eq_dec d lo) as [->|Hn]; [exact H0|].
    destruct (Z_lt_le_dec d (lo + 1 + Zpos q)) as [Hl|Hl].
    + apply (IH _ H1). lia.
    + apply (IH _ H2). lia.
  - apply andb_prop in H as [H1 H2].
    destruct (Z_lt_le_dec d (lo + Zpos q)) as [Hl|Hl].
    + apply (IH _ H1). lia.
    + apply (IH _ H2). lia.
  - assert (d = lo) as -> by lia. exact H.
Qed.

(** The calendar arithmetic, piece by piece. *)
Lemma civil_unfold days :
  civil_from_days days =
  let z := (days + 719468)%Z in
  let era := (z / 146097)%Z in
  let doe := (z - era * 146097)%Z in
  let yoe := (year_guess doe / 365)%Z in
  let doy := (doe - year_start yoe)%Z in
  let '(m, d) := month_day doy in
  ((yoe + era * 400 + (if m <=? 2 then 1 else 0))%Z, m, d).
Proof. reflexivity. Qed.

Lemma year_guess_step d : (0 <= d)%Z -> (year_guess d <= year_guess (d + 1))%Z.
Proof. intros H. unfold year_guess. Z.div_mod_to_equations. lia. Qed.

Lemma year_guess_checked : all_from year_guess_ok 400 0 = true.
Proof. vm_compute. reflexivity. Qed.
Lemma month_days_checked : all_from month_day_ok 366 0 = true.
Proof. vm_compute. reflexivity. Qed.

Lemma year_guess_mono a b :
  (0 <= a <= b)%Z -> (year_guess a <= year_guess b)%Z.
Proof.
  intros H. replace b with (a + Z.of_nat (Z.to_nat (b - a)))%Z by lia.
  induction (Z.to_nat (b - a)) as [|n IH]; [rewrite Z.add_0_r; lia|].
  eapply Z.le_trans; [exact IH|].
  replace (a + Z.of_nat (S n))%Z with (a + Z.of_nat n + 1)%Z by lia.
  apply year_guess_step. lia.
Qed.

Lemma year_start_bounds y :
  (0 <= y <= 399)%Z ->
  (0 <= year_start y
   /\ year_start y + 364 <= year_end y <= year_start y + 365
   /\ year_end y <= 146096
   /\ (y < 399 -> year_end y + 1 = year_start (y + 1) /\ year_end y < 146096)
   /\ (y = 399 -> year_end y = 146096))%Z.
Proof.
  intros H. unfold year_end, year_start.
  destruct (Z.eqb_spec y 399) as [->|Hn]; [vm_compute; intuition (try discriminate; lia)|].
  Z.div_mod_to_equations. lia.
Qed.

Lemma yoe_interval y doe :
  (0 <= y <= 399)%Z -> (year_start y <= doe <= year_end y)%Z ->
  (year_guess doe / 365 = y)%Z.
Proof.
  intros Hy Hd.
  assert (Hok : year_guess_ok y = true) by (apply (all_from_spec _ _ _ year_guess_checked); lia).
  unfold year_guess_ok in Hok. apply andb_prop in Hok as [H1 H2].
  apply Z.leb_le in H1. apply Z.ltb_lt in H2.
  pose proof (year_start_bounds y Hy) as [H0 _].
  pose proof (year_guess_mono (year_start y) doe ltac:(lia)).
  pose proof (year_guess_mono doe (year_end y) ltac:(lia)).
  symmetry. apply Z.div_unique with (year_guess doe - 365 * y)%Z; lia.
Qed.

Lemma doe_year doe :
  (0 <= doe <= 146096)%Z ->
  exists y, (0 <= y <= 399 /\ year_start y <= doe <= year_end y)%Z.
Proof.
  intros H. replace doe with (Z.of_nat (Z.to_nat doe)) in * by lia.
  induction (Z.to_nat doe) as [|n IH].
  - exists 0%Z. vm_compute. intuition discriminate.
  - destruct IH as [y [Hy Hi]]; [lia|].
    pose proof (year_start_bounds y Hy) as [_ [_ [_ [Hlt Heq]]]].
    destruct (Z_le_gt_dec (Z.of_nat (S n)) (year_end y)) as [Hle|Hgt].
    + exists y. lia.
    + destruct (Z.eq_dec y 399) as [->|Hn]; [specialize (Heq eq_refl); lia|].
      destruct (Hlt ltac:(lia)) as [Hs _].
      pose proof (year_start_bounds (y + 1) ltac:(lia)) as [_ [Hlen _]].
      exists (y + 1)%Z. lia.
Qed.

Lemma civil_year days y :
  (0 <= y <= 399)%Z ->
  (year_start y <= days + 719468 - (days + 719468) / 146097 * 146097 <= year_end y)%Z ->
  civil_from_days days =
  date_of (y + (days + 719468) / 146097 * 400)
    (days + 719468 - (days + 719468) / 146097 * 146097 - year_start y).
Proof.
  intros Hy Hd. rewrite civil_unfold. cbv zeta.
  now rewrite (yoe_interval y _ Hy Hd).
Qed.

Lemma split_day days :
  exists Y doy,
    (0 <= doy <= 365)%Z
    /\ civil_from_days days = date_of Y doy
    /\ ((doy <= 364)%Z /\ civil_from_days (days + 1) = date_of Y (doy + 1)
        \/ civil_from_days (days + 1) = date_of (Y + 1) 0).
Proof.
  set (z := (days + 719468)%Z).
  set (e := (z / 146097)%Z).
  set (doe := (z - e * 146097)%Z).
  assert (Hdoe : (0 <= doe <= 146096)%Z).
  { unfold doe, e. Z.div_mod_to_equations. lia. }
  destruct (doe_year doe Hdoe) as [y [Hy Hi]].
  pose proof (year_start_bounds y Hy) as [H0 [Hlen [_ [Hlt Heq]]]].
  exists (y + e * 400)%Z, (doe - year_start y)%Z.
  split; [lia|]. split; [now apply civil_year|].
  assert (Hz : (days + 1 + 719468 = z + 1)%Z) by (unfold z; ring).
  destruct (Z.eq_dec doe 146096) as [Hlast|Hnl].
  - (* the last day of the period *)
    right.
    assert (He : ((z + 1) / 146097 = e + 1)%Z).
    { unfold doe, e in *. Z.div_mod_to_equations. lia. }
    assert (y = 399)%Z as ->.
    { destruct (Z.eq_dec y 399) as [E|E]; [exact E|]. destruct (Hlt ltac:(lia)). lia. }
    rewrite (civil_year (days + 1) 0); rewrite ?Hz, ?He.
    + f_equal; [ring|]. unfold doe in Hlast. change (year_start 0) with 0%Z. lia.
    + lia.
    + unfold doe in Hlast. change (year_start 0) with 0%Z.
      change (year_end 0) with 364%Z. lia.
  - assert (He : ((z + 1) / 146097 = e)%Z).
    { unfold doe, e in *. Z.div_mod_to_equations. lia. }
    destruct (Z_le_gt_dec (doe + 1) (year_end y)) as [Hle|Hgt].
    + left. split; [lia|].
      rewrite (civil_year (days + 1) y Hy); rewrite ?Hz, ?He.
      * f_equal. unfold doe. ring.
      * unfold doe in *. lia.
    + right. assert (Hy' : (y < 399)%Z).
      { destruct (Z.eq_dec y 399) as [E|E]; [|lia]. specialize (Heq E). lia. }
      destruct (Hlt Hy') as [Hs _].
      pose proof (year_start_bounds (y + 1) ltac:(lia)) as [_ [Hlen' _]].
      rewrite (civil_year (days + 1) (y + 1)); rewrite ?Hz, ?He.
      * f_equal; [ring|]. unfold doe in *. lia.
      * lia.
      * unfold doe in *. lia.
Qed.

Lemma month_day_ok_spec doy :
  (0 <= doy <= 365)%Z ->
  exists m d,
    month_day doy = (m, d)
    /\ (1 <= m <= 12 /\ 1 <= d <= 31
        /\ 301 <= local_code (m, d) <= 10229
        /\ (doy <= 364 -> local_code (m, d) < local_code (month_day (doy + 1))))%Z.
Proof.
  intros H. assert (Hok : month_day_ok doy = true)
    by (apply (all_from_spec _ _ _ month_days_checked); lia).
  unfold month_day_ok in Hok. destruct (month_day doy) as [m d]. exists m, d.
  split; [reflexivity|].
  apply andb_prop in Hok as [Hok H7]. apply andb_prop in Hok as [Hok H6].
  apply andb_prop in Hok as [Hok H5]. apply andb_prop in Hok as [Hok H4].
  apply andb_prop in Hok as [Hok H3]. apply andb_prop in Hok as [H1 H2].
  apply Z.leb_le in H1, H2, H3, H4, H5, H6.
  repeat split; try assumption.
  intros Hd. apply orb_prop in H7 as [H7|H7].
  - apply Z.eqb_eq in H7. lia.
  - now apply Z.ltb_lt in H7.
Qed.

Lemma date_code Y doy :
  ymd_code (date_of Y doy) = (Y * 10000 + local_code (month_day doy))%Z.
Proof.
  unfold date_of, ymd_code, local_code. destruct (month_day doy) as [m d].
  destruct (m <=? 2)%Z; ring.
Qed.

Lemma date_step_ok_all d : date_step_ok d = true.
Proof.
  destruct (split_day d) as [Y [doy [Hd [E Hnext]]]].
  destruct (month_day_ok_spec doy Hd) as [m [day [Em [Hm [Hday [Hc Hs]]]]]].
  assert (Hlt : (ymd_code (civil_from_days d) < ymd_code (civil_from_days (d + 1)))%Z).
  { rewrite E, date_code, Em. destruct Hnext as [[H364 ->]| ->]; rewrite date_code.
    - specialize (Hs H364). lia.
    - destruct (month_day_ok_spec 0 ltac:(lia)) as [m0 [d0 [E0 [_ [_ [Hc0 _]]]]]].
      rewrite E0. lia. }
  unfold date_step_ok. revert Hlt. rewrite E. unfold date_of. rewrite Em.
  intros Hlt. apply Z.ltb_lt in Hlt. rewrite Hlt.
  repeat (apply andb_true_intro; split); try reflexivity; apply Z.leb_le; lia.
Qed.

Lemma years_checked : all_from year_step_ok 8999 1000 = true.
Proof. vm_compute. reflexivity. Qed.

Lemma pads_checked : all_from pad_step_ok 30 1 = true.
Proof. vm_compute. reflexivity. Qed.

Lemma civil_bounds d y m day :
  civil_from_days d = (y, m, day) -> (1 <= m <= 12 /\ 1 <= day <= 31)%Z.
Proof.
  intros E. pose proof (date_step_ok_all d) as H. unfold date_step_ok in H.
  rewrite E in H.
  apply andb_prop in H as [H _]. apply andb_prop in H as [H H4].
  apply andb_prop in H as [H H3]. apply andb_prop in H as [H1 H2].
  apply Z.leb_le in H1, H2, H3, H4. lia.
Qed.

Lemma code_step d :
  (ymd_code (civil_from_days d) < ymd_code (civil_from_days (d + 1)))%Z.
Proof.
  pose proof (date_step_ok_all d) as H. unfold date_step_ok in H.
  destruct (civil_from_days d) as [[y m] day].
  apply andb_prop in H as [_ H]. now apply Z.ltb_lt in H.
Qed.

Lemma code_mono d1 d2 :
  (d1 < d2)%Z ->
  (ymd_code (civil_from_days d1) < ymd_code (civil_from_days d2))%Z.
Proof.
  intros H. replace d2 with (d1 + 1 + Z.of_nat (Z.to_nat (d2 - d1 - 1)))%Z by lia.
  induction (Z.to_nat (d2 - d1 - 1)) as [|n IH].
  - rewrite Z.add_0_r. apply code_step.
  - eapply Z.lt_trans; [exact IH|].
    replace (d1 + 1 + Z.of_nat (S n))%Z with (d1 + 1 + Z.of_nat n + 1)%Z by lia.
    apply code_step.
Qed.

Lemma mono_from_steps (f : Z -> string) lo hi :
  (forall n, (lo <= n < hi)%Z -> str_lt (f n) (f (n + 1)%Z)) ->
  forall a b, (lo <= a < b)%Z -> (b <= hi)%Z -> str_lt (f a) (f b).
Proof.
  intros Hs a b Hab Hb.
  replace b with (a + 1 + Z.of_nat (Z.to_nat (b - a - 1)))%Z by lia.
  assert (Hn : (a + 1 + Z.of_nat (Z.to_nat (b - a - 1)) <= hi)%Z) by lia.
  induction (Z.to_nat (b - a - 1)) as [|n IH].
  - rewrite Z.add_0_r. apply Hs. lia.
  - apply str_lt_trans with (f (a + 1 + Z.of_nat n)%Z); [apply IH; lia|].
    replace (a + 1 + Z.of_nat (S n))%Z with (a + 1 + Z.of_nat n + 1)%Z by lia.
    apply Hs. lia.
Qed.

Lemma year_step y :
  (1000 <= y < 9999)%Z ->
  String.length (string_of_Z y) = 4
  /\ String.length (string_of_Z (y + 1)%Z) = 4
  /\ str_lt (string_of_Z y) (string_of_Z (y + 1)%Z).
Proof.
  intros Hy. assert (H : year_step_ok y = true)
    by (apply (all_from_spec _ _ _ years_checked); lia).
  unfold year_step_ok in H. apply andb_prop in H as [H H3].
  apply andb_prop in H as [H1 H2]. apply Nat.eqb_eq in H1, H2. now repeat split.
Qed.

Lemma year_length y :
  (1000 <= y <= 9999)%Z -> String.length (string_of_Z y) = 4.
Proof.
  intros Hy. destruct (Z.eq_dec y 9999) as [->|Hn]; [reflexivity|].
  apply year_step. lia.
Qed.

Lemma year_mono a b :
  (1000 <= a < b)%Z -> (b <= 9999)%Z -> str_lt (string_of_Z a) (string_of_Z b).
Proof.
  apply mono_from_steps. intros n Hn. now apply year_step.
Qed.

Lemma pad_step n :
  (1 <= n < 31)%Z ->
  String.length (padStart2 (string_of_Z n)) = 2
  /\ String.length (padStart2 (string_of_Z (n + 1)%Z)) = 2
  /\ str_lt (padStart2 (string_of_Z n)) (padStart2 (string_of_Z (n + 1)%Z)).
Proof.
  intros Hn. assert (H : pad_step_ok n = true)
    by (apply (all_from_spec _ _ _ pads_checked); lia).
  unfold pad_step_ok in H. apply andb_prop in H as [H H3].
  apply andb_prop in H as [H1 H2]. apply Nat.eqb_eq in H1, H2. now repeat split.
Qed.

Lemma pad_length n :
  (1 <= n <= 31)%Z -> String.length (padStart2 (string_of_Z n)) = 2.
Proof.
  intros Hn. destruct (Z.eq_dec n 31) as [->|Hne]; [reflexivity|].
  apply pad_step. lia.
Qed.

Lemma pad_mono a b :
  (1 <= a < b)%Z -> (b <= 31)%Z ->
  str_lt (padStart2 (string_of_Z a)) (padStart2 (string_of_Z b)).
Proof.
  apply (mono_from_steps (fun n => padStart2 (string_of_Z n))).
  intros n Hn. now apply pad_step.
Qed.

(** Comparing strings with a common prefix, or two heads of one length. *)
Lemma compare_app_prefix p a b :
  String.compare (p ++ a) (p ++ b) = String.compare a b.
Proof.
  induction p as [|c p IH]; simpl; [reflexivity|].
  now rewrite ascii_compare_refl.
Qed.

Lemma compare_app_lt a : forall b r1 r2,
  String.length a = String.length b ->
  String.compare a b = Lt -> String.compare (a ++ r1) (b ++ r2) = Lt.
Proof.
  induction a as [|x a IH]; intros [|y b] r1 r2 Hl H; simpl in *; try discriminate.
  destruct (Ascii.compare x y); try discriminate; [|reflexivity].
  apply IH; [now injection Hl|exact H].
Qed.

Lemma str_lt_app a b r1 r2 :
  String.length a = String.length b -> str_lt a b -> str_lt (a ++ r1) (b ++ r2).
Proof.
  unfold str_lt, String.ltb. intros Hl H.
  destruct (String.compare a b) eqn:E; try discriminate.
  now rewrite (compare_app_lt a b r1 r2 Hl E).
Qed.

Lemma str_lt_prefix p a b : str_lt a b -> str_lt (p ++ a) (p ++ b).
Proof. unfold str_lt, String.ltb. now rewrite compare_app_prefix. Qed.

(** The keys of two well-formed dates with four-digit years compare as
    the dates do. *)
Lemma key_lt y1 m1 d1 y2 m2 d2 :
  (1000 <= y1 <= 9999)%Z -> (1000 <= y2 <= 9999)%Z ->
  (1 <= m1 <= 12)%Z -> (1 <= m2 <= 12)%Z ->
  (1 <= d1 <= 31)%Z -> (1 <= d2 <= 31)%Z ->
  (ymd_code (y1, m1, d1) < ymd_code (y2, m2, d2))%Z ->
  str_lt
    (string_of_Z y1 ++ "-" ++ padStart2 (string_of_Z m1) ++ "-"
       ++ padStart2 (string_of_Z d1))
    (string_of_Z y2 ++ "-" ++ padStart2 (string_of_Z m2) ++ "-"
       ++ padStart2 (string_of_Z d2)).
Proof.
  intros Hy1 Hy2 Hm1 Hm2 Hd1 Hd2 Hc. unfold ymd_code in Hc.
  destruct (Z_lt_le_dec y1 y2) as [Hy|Hy].
  - apply str_lt_app; [now rewrite !year_length|apply year_mono; lia].
  - assert (y1 = y2) as -> by lia.
    apply str_lt_prefix, (str_lt_prefix "-").
    destruct (Z_lt_le_dec m1 m2) as [Hm|Hm].
    + apply str_lt_app; [rewrite !pad_length; lia|apply pad_mono; lia].
    + assert (m1 = m2) as -> by lia.
      apply str_lt_prefix, (str_lt_prefix "-"). apply pad_mono; lia.
Qed.

Lemma day_key_lt d1 d2 :
  (-354285 <= d1)%Z -> (d1 < d2)%Z -> (d2 <= 2932896)%Z ->
  str_lt (day_key d1) (day_key d2).
Proof.
  intros Hlo Hlt Hhi.
  assert (Hb : forall d, (-354285 <= d <= 2932896)%Z ->
               (10000101 <= ymd_code (civil_from_days d) <= 99991231)%Z).
  { intros d Hd. split.
    - destruct (Z.eq_dec d (-354285)) as [->|Hn]; [vm_compute; discriminate|].
      apply Z.lt_le_incl.
      change 10000101%Z with (ymd_code (civil_from_days (-354285))).
      apply code_mono. lia.
    - destruct (Z.eq_dec d 2932896) as [->|Hn]; [vm_compute; discriminate|].
      apply Z.lt_le_incl.
      change 99991231%Z with (ymd_code (civil_from_days 2932896)).
      apply code_mono. lia. }
  pose proof (Hb d1 ltac:(lia)) as B1. pose proof (Hb d2 ltac:(lia)) as B2.
  pose proof (code_mono d1 d2 Hlt) as Hc.
  unfold day_key.
  destruct (civil_from_days d1) as [[y1 m1] day1] eqn:E1.
  destruct (civil_from_days d2) as [[y2 m2] day2] eqn:E2.
  pose proof (civil_bounds _ _ _ _ E1) as [M1 D1].
  pose proof (civil_bounds _ _ _ _ E2) as [M2 D2].
  unfold ymd_code in B1, B2.
  apply key_lt; try assumption; lia.
Qed.

Lemma day_key_chronological d1 d2 :
  (-354285 <= d1 <= 2932896)%Z -> (-354285 <= d2 <= 2932896)%Z ->
  (str_lt (day_key d1) (day_key d2) <-> (d1 < d2)%Z).
Proof.
  intros H1 H2. split; [|intros H; apply day_key_lt; lia].
  intros H. destruct (Z_lt_le_dec d1 d2) as [Hl|Hl]; [exact Hl|].
  exfalso. destruct (Z.eq_dec d1 d2) as [->|Hn]; [now apply str_lt_irrefl in H|].
  apply (str_lt_irrefl (day_key d1)).
  apply str_lt_trans with (day_key d2); [exact H|]. apply day_key_lt; lia.
Qed.

Lemma dayKey_day_key dtSeconds tz :
  four_digit_year (dtSeconds + tz)%Z ->
  dayKeyFromUtcWithOffset dtSeconds tz = day_key (day_number (dtSeconds + tz)%Z)
  /\ (-354285 <= day_number (dtSeconds + tz) <= 2932896)%Z.
Proof.
  unfold four_digit_year, dayKeyFromUtcWithOffset, day_key, day_number. intros H.
  destruct (Z.leb_spec (Z.abs ((dtSeconds + tz) * 1000)) 8640000000000000) as [Ha|Ha];
    [|lia].
  replace ((dtSeconds + tz) * 1000 / 86400000)%Z with ((dtSeconds + tz) / 86400)%Z.
  - split; [reflexivity|].
    split; [apply Z.div_le_lower_bound; lia|].
    assert ((dtSeconds + tz) / 86400 < 2932897)%Z; [|lia].
    apply Z.div_lt_upper_bound; lia.
  - change 86400000%Z with (86400 * 1000)%Z.
    now rewrite Z.div_mul_cancel_r by discriminate.
Qed.

(** Within the years 1000 to 9999 the order of the keys is the order of
    the days. *)
Lemma dayKey_chronological t1 t2 tz :
  four_digit_year (t1 + tz)%Z -> four_digit_year (t2 + tz)%Z ->
  (str_lt (dayKeyFromUtcWithOffset t1 tz) (dayKeyFromUtcWithOffset t2 tz)
   <-> (day_number (t1 + tz) < day_number (t2 + tz))%Z).
Proof.
  intros H1 H2.
  destruct (dayKey_day_key t1 tz H1) as [-> B1].
  destruct (dayKey_day_key t2 tz H2) as [-> B2].
  now apply day_key_chronological.
Qed.

(** ** What [trim] removes *)

Lemma trimStart_spec s :
  exists a, s = a ++ trimStart s /\ sall is_ws a = true.
Proof.
  induction s as [|c t [a [E Ha]]]; [now exists EmptyString|].
  simpl. destruct (is_ws c) eqn:Ec.
  - exists (String c a). simpl. now rewrite Ec, Ha, <- E.
  - now exists EmptyString.
Qed.

Lemma trimEnd_spec s :
  exists b, s = trimEnd s ++ b /\ sall is_ws b = true.
Proof.
  induction s as [|c t [b [E Hb]]]; [now exists EmptyString|].
  simpl. destruct (trimEnd t) as [|d r] eqn:Et.
  - simpl in E. destruct (is_ws c) eqn:Ec.
    + exists (String c b). simpl. rewrite Ec, Hb. now subst t.
    + exists b. simpl. split; [now subst t|exact Hb].
  - exists b. simpl. split; [|exact Hb]. f_equal. exact E.
Qed.

(** [trim] takes white space, and nothing else, off both ends. *)
Lemma trim_spec s :
  exists a b,
    s = a ++ trim s ++ b
    /\ sall is_ws a = true /\ sall is_ws b = true
    /\ head_ws (trim s) = false /\ trimEnd (trim s) = trim s.
Proof.
  destruct (trimStart_spec s) as [a [Ea Ha]].
  destruct (trimEnd_spec (trimStart s)) as [b [Eb Hb]].
  exists a, b. unfold trim. rewrite <- Eb. repeat split; try assumption.
  - apply trimEnd_head, trimStart_head.
  - apply trimEnd_idem.
Qed.

(** ** The standalone "us" *)

Lemma startsWith_ci_us u v b :
  startsWith_ci "us" (String u (String v b)) =
  Ascii.eqb "U"%char (upper_char u) && Ascii.eqb "S"%char (upper_char v).
Proof. unfold startsWith_ci. cbn [toUpperCase smap startsWith]. now rewrite andb_true_r. Qed.

Lemma startsWith_ci_us_short c : startsWith_ci "us" (String c EmptyString) = false.
Proof. unfold startsWith_ci. cbn [toUpperCase smap startsWith]. apply andb_false_r. Qed.

Lemma us_token_iff s : forall prev,
  us_token prev s = true <->
  exists a u v b,
    s = a ++ String u (String v b)
    /\ upper_char u = "U"%char /\ upper_char v = "S"%char
    /\ ends_word prev a = false /\ head_word b = false.
Proof.
  induction s as [|c t IH]; intros prev.
  - split; [discriminate|]. intros [a [u [v [b [E _]]]]]. destruct a; discriminate.
  - cbn [us_token]. rewrite orb_true_iff, IH. split.
    + intros [H|[a [u [v [b [E [Hu [Hv [Ha Hb]]]]]]]]].
      * apply andb_prop in H as [H Hb]. apply andb_prop in H as [Hp Hs].
        apply negb_true_iff in Hp.
        destruct t as [|v b]; [now rewrite startsWith_ci_us_short in Hs|].
        rewrite startsWith_ci_us in Hs.
        apply andb_prop in Hs as [Hu Hv].
        apply Ascii.eqb_eq in Hu, Hv.
        exists EmptyString, c, v, b. repeat split; try easy.
        destruct b as [|d b']; [reflexivity|]. now apply negb_true_iff in Hb.
      * exists (String c a), u, v, b. simpl. rewrite E. now repeat split.
    + intros [a [u [v [b [E [Hu [Hv [Ha Hb]]]]]]]]. destruct a as [|c' a'].
      * left. simpl in E. injection E as -> ->. simpl in Ha. rewrite Ha.
        rewrite startsWith_ci_us, Hu, Hv. simpl.
        destruct b as [|d b']; [reflexivity|]. simpl in Hb. now rewrite Hb.
      * right. simpl in E. injection E as -> ->. simpl in Ha.
        now exists a', u, v, b.
Qed.

Lemma startsWith_ci_iff p : forall s,
  startsWith_ci p s = true <->
  exists m b, s = m ++ b /\ toUpperCase m = toUpperCase p.
Proof.
  unfold startsWith_ci, toUpperCase.
  induction p as [|c p IH]; intros s.
  - split; [intros _; now exists EmptyString, s|reflexivity].
  - destruct s as [|d s].
    + split; [discriminate|]. intros [m [b [E H]]].
      destruct m; [discriminate|discriminate].
    + cbn [smap startsWith]. rewrite andb_true_iff, Ascii.eqb_eq, IH. split.
      * intros [Hc [m [b [-> Hm]]]]. exists (String d m), b.
        split; [reflexivity|]. cbn [smap]. now rewrite Hm, Hc.
      * intros [m [b [E Hm]]]. destruct m as [|d' m]; [discriminate|].
        cbn [smap] in Hm. injection Hm as Hd Hm. simpl in E. injection E as -> ->.
        split; [now symmetry|]. now exists m, b.
Qed.

Lemma includes_ci_iff s p : includes_ci s p = true <-> contains_ci s p.
Proof.
  unfold contains_ci. induction s as [|c s IH].
  - cbn [includes_ci]. rewrite orb_false_r, startsWith_ci_iff. split.
    + intros [m [b [E H]]]. now exists EmptyString, m, b.
    + intros [a [m [b [E H]]]]. destruct a; [now exists m, b|discriminate].
  - cbn [includes_ci]. rewrite orb_true_iff, startsWith_ci_iff, IH. split.
    + intros [[m [b [E H]]]|[a [m [b [E H]]]]].
      * now exists EmptyString, m, b.
      * exists (String c a), m, b. simpl. now rewrite E.
    + intros [a [m [b [E H]]]]. destruct a as [|d a].
      * left. now exists m, b.
      * right. simpl in E. injection E as -> ->. now exists a, m, b.
Qed.

(** The specificity test, in words. *)
Lemma seemsSpecific_iff n :
  seemsSpecific n = true <->
  (exists a b, n = a ++ "," ++ b)
  \/ contains_ci n "united states" \/ contains_ci n "usa" \/ standalone_us n.
Proof.
  unfold seemsSpecific, standalone_us.
  rewrite !orb_true_iff, includes_iff, !includes_ci_iff, us_token_iff. tauto.
Qed.

(** ** Requests and runs of one call *)

Lemma sslice0_prefix n : forall s,
  exists rest,
    s = sslice0 n s ++ rest
    /\ String.length (sslice0 n s) = Nat.min n (String.length s).
Proof.
  induction n as [|n IH]; intros s.
  - exists s. split; reflexivity.
  - destruct s as [|c t].
    + exists EmptyString. split; reflexivity.
    + destruct (IH t) as [rest [E L]]. exists rest. simpl. split.
      * now rewrite <- E.
      * now rewrite L.
Qed.

Lemma fetchJson_cases {A} (f : Fetched A) :
  (exists v, answered f v) \/ (exists e, fails f e /\ transport_error e).
Proof.
  destruct f as [|[ok status text [v|]]].
  - right. exists FetchRejected. split; [intros req log; reflexivity|now left].
  - destruct ok.
    + left. exists v. now exists status, text.
    + right. exists (http_error status (sslice0 200 (orElse text EmptyString))).
      split; [intros req log; reflexivity|]. right. right.
      eexists _, _. split; [reflexivity|].
      destruct (sslice0_prefix 200 (orElse text EmptyString)) as [rest [_ L]].
      rewrite L. apply Nat.le_min_l.
  - destruct ok.
    + right. exists JsonRejected. split; [intros req log; reflexivity|]. right. now left.
    + right. exists (http_error status (sslice0 200 (orElse text EmptyString))).
      split; [intros req log; reflexivity|]. right. right.
      eexists _, _. split; [reflexivity|].
      destruct (sslice0_prefix 200 (orElse text EmptyString)) as [rest [_ L]].
      rewrite L. apply Nat.le_min_l.
Qed.

Lemma geo_requests_app key a b :
  geo_requests key (a ++ b) = (geo_requests key a ++ geo_requests key b)%list.
Proof. apply map_app. Qed.

Lemma dedupeGeo_cons x l : exists r, dedupeGeo (x :: l) = x :: r.
Proof. rewrite dedupeGeo_seen. simpl. now eexists. Qed.

Lemma pickBest_some query l :
  l <> [] -> exists g, pickBestGeoMatch query l = Some g /\ In g l.
Proof.
  intros Hl. unfold pickBestGeoMatch.
  repeat match goal with
         | |- context [match (if ?b then _ else _) with _ => _ end] => destruct b
         | |- context [match find ?f l with _ => _ end] =>
             let E := fresh "E" in
             destruct (find f l) as [g|] eqn:E;
             [exists g; split; [reflexivity|exact (proj1 (find_some _ _ E))]|]
         end;
    destruct l as [|x r]; try contradiction; exists x; split;
    try reflexivity; now left.
Qed.

Section Runs.
Variable labelFromKey : string -> string.
Variable API_KEY : option string.
Variable w : World.

(** The lookups stop at the first candidate with a non-empty answer or
    with a failure. *)
Lemma geocode_run cands : forall log,
  (forall q, In q cands -> geo_nothing w q)
    /\ geocode API_KEY w cands log =
         (Value None, (log ++ geo_requests (appid API_KEY) cands)%list)
  \/ (exists before q after l,
        found w cands before q after l
        /\ geocode API_KEY w cands log =
             (Value (Some (dedupeGeo l)),
              (log ++ geo_requests (appid API_KEY) (before ++ [q]))%list))
  \/ (exists before q after e,
        cands = (before ++ q :: after)%list
        /\ (forall q', In q' before -> geo_nothing w q')
        /\ fails (geo_api w q) e /\ transport_error e
        /\ geocode API_KEY w cands log =
             (Throw e, (log ++ geo_requests (appid API_KEY) (before ++ [q]))%list)).
Proof.
  induction cands as [|c rest IH]; intros log.
  - left. split; [intros q []|]. simpl. now rewrite app_nil_r.
  - rewrite geocode_cons.
    destruct (fetchJson_cases (geo_api w c)) as [[v Hv]|[e [He Ht]]].
    + rewrite (bind_value _ _ _ _ _ (fetchJson_answered _ _ _ log Hv)).
      assert (Hskip :
        geo_nothing w c ->
          (forall q, In q (c :: rest) -> geo_nothing w q)
            /\ geocode API_KEY w rest (log ++ [GeoRequest c 5 (appid API_KEY)])%list =
                 (Value None, (log ++ geo_requests (appid API_KEY) (c :: rest))%list)
          \/ (exists before q after l,
                found w (c :: rest) before q after l
                /\ geocode API_KEY w rest (log ++ [GeoRequest c 5 (appid API_KEY)])%list =
                     (Value (Some (dedupeGeo l)),
                      (log ++ geo_requests (appid API_KEY) (before ++ [q]))%list))
          \/ (exists before q after e,
                (c :: rest) = (before ++ q :: after)%list
                /\ (forall q', In q' before -> geo_nothing w q')
                /\ fails (geo_api w q) e /\ transport_error e
                /\ geocode API_KEY w rest (log ++ [GeoRequest c 5 (appid API_KEY)])%list =
                     (Throw e, (log ++ geo_requests (appid API_KEY) (before ++ [q]))%list))).
      { intros Hn.
        destruct (IH (log ++ [GeoRequest c 5 (appid API_KEY)])%list)
          as [[Ha E]|[[b [q [a [l [[Hc [Hb [Hq Hl]]] E]]]]]|[b [q [a [e [Hc [Hb [Hf [Ht E]]]]]]]]]].
        - left. split; [intros q [<-|Hq]; [exact Hn|now apply Ha]|].
          rewrite E. f_equal. now rewrite <- app_assoc.
        - right. left. exists (c :: b), q, a, l. split.
          + split; [now rewrite Hc|]. split; [|now split].
            intros q' [<-|Hq']; [exact Hn|now apply Hb].
          + rewrite E. f_equal. now rewrite <- app_assoc.
        - right. right. exists (c :: b), q, a, e.
          split; [now rewrite Hc|].
          split; [intros q' [<-|Hq']; [exact Hn|now apply Hb]|].
          split; [exact Hf|]. split; [exact Ht|].
          rewrite E. f_equal. now rewrite <- app_assoc. }
      destruct v as [[|x l]|].
      * apply Hskip. now right.
      * right. left. exists [], c, rest, (x :: l). split; [|reflexivity].
        split; [reflexivity|]. split; [intros q' []|]. now split.
      * apply Hskip. now left.
    + right. right. exists [], c, rest, e.
      split; [reflexivity|]. split; [intros q' []|].
      split; [exact He|]. split; [exact Ht|].
      now rewrite (bind_throw _ _ _ _ _ (He _ log)).
Qed.

(** The two weather requests: the forecast is asked for only once the
    current conditions have arrived, and the bodies are read after
    both. *)
Lemma weatherFor_run loc log :
  (exists e,
      fails (current_api w (lat loc) (lon loc)) e /\ transport_error e
      /\ weatherFor labelFromKey API_KEY w loc log =
           (Throw e, (log ++ [CurrentRequest (lat loc) (lon loc) (appid API_KEY)])%list))
  \/ (exists cur e,
        answered (current_api w (lat loc) (lon loc)) cur
        /\ fails (forecast_api w (lat loc) (lon loc)) e /\ transport_error e
        /\ weatherFor labelFromKey API_KEY w loc log =
             (Throw e, (log ++ weather_requests (appid API_KEY) loc)%list))
  \/ (exists cur fc,
        answered (current_api w (lat loc) (lon loc)) cur
        /\ answered (forecast_api w (lat loc) (lon loc)) fc
        /\ (cur = None \/ fc = None)
        /\ weatherFor labelFromKey API_KEY w loc log =
             (Throw TypeError, (log ++ weather_requests (appid API_KEY) loc)%list))
  \/ (exists cur fc,
        answered (current_api w (lat loc) (lon loc)) (Some cur)
        /\ answered (forecast_api w (lat loc) (lon loc)) (Some fc)
        /\ weatherFor labelFromKey API_KEY w loc log =
             (Value (Success (location_name loc) (snapshot_of cur)
                       (summarizeForecast labelFromKey (orElse (fc_list fc) [])
                          (orElse (timezone cur) 0%Z) 3 (clock w))),
              (log ++ weather_requests (appid API_KEY) loc)%list)).
Proof.
  unfold weatherFor.
  destruct (fetchJson_cases (current_api w (lat loc) (lon loc))) as [[cur Hc]|[e [He Ht]]].
  - rewrite (bind_value _ _ _ _ _ (fetchJson_answered _ _ _ log Hc)).
    destruct (fetchJson_cases (forecast_api w (lat loc) (lon loc))) as [[fc Hf]|[e [He Ht]]].
    + rewrite (bind_value _ _ _ _ _ (fetchJson_answered _ _ _ _ Hf)).
      unfold ret, throw, weather_requests. rewrite <- app_assoc.
      destruct cur as [cur|]; [destruct fc as [fc|]|].
      * right. right. right. exists cur, fc. now repeat split.
      * right. right. left. exists (Some cur), None.
        split; [exact Hc|]. split; [exact Hf|]. split; [now right|reflexivity].
      * right. right. left. exists None, fc.
        split; [exact Hc|]. split; [exact Hf|]. split; [now left|reflexivity].
    + right. left. exists cur, e. split; [exact Hc|]. split; [exact He|].
      split; [exact Ht|].
      rewrite (bind_throw _ _ _ _ _ (He _ _)).
      unfold weather_requests. now rewrite <- app_assoc.
  - left. exists e. split; [exact He|]. split; [exact Ht|].
    now rewrite (bind_throw _ _ _ _ _ (He _ log)).
Qed.

(** Every call with a key is one of the runs. *)
Lemma getWeather_run place log :
  key_set API_KEY ->
  exists out reqs,
    getWeather labelFromKey API_KEY w place log = (out, (log ++ reqs)%list)
    /\ run labelFromKey (appid API_KEY) w place out reqs.
Proof.
  intros Hk. rewrite (getWeather_set labelFromKey API_KEY w place log Hk).
  assert (Hw : forall before q after l loc log',
             found w (candidates (normalizePlace place)) before q after l ->
             resolved_location (normalizePlace place) (dedupeGeo l) loc ->
             log' = (log ++ geo_requests (appid API_KEY) (before ++ [q]))%list ->
             exists out reqs,
               weatherFor labelFromKey API_KEY w loc log' = (out, (log ++ reqs)%list)
               /\ run labelFromKey (appid API_KEY) w place out reqs).
  { intros before q after l loc log' Hf Hr ->.
    destruct (weatherFor_run loc (log ++ geo_requests (appid API_KEY) (before ++ [q]))%list)
      as [[e [He [Ht E]]]|[[cur [e [Hc [He [Ht E]]]]]
          |[[cur [fc [Hc [Hfc [Hn E]]]]]|[cur [fc [Hc [Hfc E]]]]]]];
      rewrite E, <- app_assoc; eexists _, _; (split; [reflexivity|]).
    - now apply run_current_failed with after l.
    - now apply run_forecast_failed with after l cur.
    - now apply run_null_body with after l cur fc.
    - now apply run_success with after l. }
  destruct (geocode_run (candidates (normalizePlace place)) log)
    as [[Ha E]|[[b [q [a [l [Hf E]]]]]|[b [q [a [e [Hc [Hb [Hf [Ht E]]]]]]]]]].
  - rewrite (bind_value _ _ _ _ _ E). eexists _, _. split; [reflexivity|].
    now apply run_not_found.
  - rewrite (bind_value _ _ _ _ _ E).
    destruct Hf as [Hc [Hb [Hq Hl]]].
    destruct l as [|x l']; [contradiction|].
    destruct (dedupeGeo_cons x l') as [r Er].
    destruct (dedupeGeo (x :: l')) as [|g1 [|g2 r']] eqn:Ed; [discriminate| |].
    + apply (Hw b q a (x :: l') g1); [now repeat split| |reflexivity].
      left. exact Ed.
    + destruct (seemsSpecific (normalizePlace place)) eqn:Es.
      * destruct (pickBest_some (normalizePlace place) (g1 :: g2 :: r') ltac:(discriminate))
          as [g [Eg _]].
        rewrite Eg.
        apply (Hw b q a (x :: l') g); [now repeat split| |reflexivity].
        right. rewrite Ed. split; [simpl; lia|]. now split.
      * eexists _, _. split; [reflexivity|]. rewrite <- Ed.
        apply run_ambiguous with a; [now repeat split| |exact Es].
        rewrite Ed. simpl. lia.
  - rewrite (bind_throw _ _ _ _ _ E). eexists _, _. split; [reflexivity|].
    now apply run_lookup_failed with a.
Qed.
End Runs.

Lemma weatherFor_no_failure labelFromKey API_KEY w loc log m log' :
  weatherFor labelFromKey API_KEY w loc log <> (Value (Failure m), log').
Proof.
  destruct (weatherFor_run labelFromKey API_KEY w loc log)
    as [[e [_ [_ Ew]]]|[[cur [e [_ [_ [_ Ew]]]]]
        |[[cur [fc [_ [_ [_ Ew]]]]]|[cur [fc [_ [_ Ew]]]]]]];
    rewrite Ew; discriminate.
Qed.

(** Concatenation of strings. *)
Lemma sapp_length a b :
  String.length (a ++ b) = String.length a + String.length b.
Proof. induction a as [|c t IH]; simpl; [reflexivity|now rewrite IH]. Qed.

Lemma sapp_assoc a b c : (a ++ b) ++ c = a ++ b ++ c.
Proof. induction a as [|x t IH]; simpl; [reflexivity|now rewrite IH]. Qed.

Lemma sapp_nil_r a : a ++ EmptyString = a.
Proof. induction a as [|x t IH]; simpl; [reflexivity|now rewrite IH]. Qed.

(** The three candidates with the repetitions removed. *)
Lemma append_US_differs n : String.eqb (n ++ ", US") n = false.
Proof.
  apply String.eqb_neq. intros E. apply (f_equal String.length) in E.
  rewrite sapp_length in E. simpl in E. lia.
Qed.

Lemma candidates_closed n :
  candidates n =
  if String.eqb (maybeAppendUS n) n || String.eqb (maybeAppendUS n) (n ++ ", US")
  then [n; n ++ ", US"]
  else [n; maybeAppendUS n; n ++ ", US"].
Proof.
  unfold candidates. cbn [uniq filter].
  rewrite (String.eqb_sym (n ++ ", US") (maybeAppendUS n)).
  destruct (String.eqb (maybeAppendUS n) n) eqn:E1;
    destruct (String.eqb (maybeAppendUS n) (n ++ ", US")) eqn:E2;
    cbn [negb filter orb]; rewrite ?append_US_differs; cbn [negb];
    try reflexivity.
  - apply String.eqb_eq in E1. apply String.eqb_eq in E2.
    rewrite E1 in E2. apply (f_equal String.length) in E2.
    rewrite sapp_length in E2. simpl in E2. lia.
  - apply String.eqb_eq in E2. now rewrite E2.
Qed.

Lemma candidates_head n : exists r, candidates n = n :: r.
Proof. rewrite candidates_closed. destruct (_ || _); now eexists. Qed.

Lemma candidates_length n : 2 <= List.length (candidates n) <= 3.
Proof. rewrite candidates_closed. destruct (_ || _); simpl; lia. Qed.

Lemma key_set_dec key : key_set key \/ ~ key_set key.
Proof.
  destruct key as [[|c k]|].
  - right. intros [k [E H]]. injection E as <-. now apply H.
  - left. exists (String c k). split; [reflexivity|discriminate].
  - right. intros [k [E _]]. discriminate.
Qed.

Section Lookups.
Variable API_KEY : option string.
Variable w : World.

Lemma geocode_skip before cands : forall log,
  (forall q, In q before -> geo_nothing w q) ->
  geocode API_KEY w (before ++ cands) log =
  geocode API_KEY w cands (log ++ geo_requests (appid API_KEY) before)%list.
Proof.
  induction before as [|q rest IH]; intros log H.
  - simpl. now rewrite app_nil_r.
  - simpl app. rewrite geocode_cons.
    assert (E := IH (log ++ [GeoRequest q 5 (appid API_KEY)])%list
                   (fun q' Hq' => H q' (or_intror Hq'))).
    rewrite <- app_assoc in E.
    destruct (H q (or_introl eq_refl)) as [Ha|Ha];
      rewrite (bind_value _ _ _ _ _ (fetchJson_answered _ _ _ log Ha)); exact E.
Qed.

Lemma geocode_found cands before q after l log :
  found w cands before q after l ->
  geocode API_KEY w cands log =
    (Value (Some (dedupeGeo l)),
     (log ++ geo_requests (appid API_KEY) (before ++ [q]))%list).
Proof.
  intros [-> [Hb [Ha Hl]]]. rewrite (geocode_skip before _ log Hb), geocode_cons.
  rewrite (bind_value _ _ _ _ _ (fetchJson_answered _ _ _ _ Ha)).
  destruct l as [|x r]; [contradiction|].
  unfold ret. now rewrite geo_requests_app, app_assoc.
Qed.

Lemma geocode_failed before q after e log :
  (forall q', In q' before -> geo_nothing w q') ->
  fails (geo_api w q) e ->
  geocode API_KEY w (before ++ q :: after) log =
    (Throw e, (log ++ geo_requests (appid API_KEY) (before ++ [q]))%list).
Proof.
  intros Hb He. rewrite (geocode_skip before _ log Hb), geocode_cons.
  rewrite (bind_throw _ _ _ _ _ (He _ _)).
  now rewrite geo_requests_app, app_assoc.
Qed.
End Lookups.

Section Resolved.
Variable labelFromKey : string -> string.
Variable API_KEY : option string.
Variable w : World.

(** Once a location is resolved, the call goes on with the weather
    requests. *)
Lemma getWeather_found place before q after l loc log :
  key_set API_KEY ->
  found w (candidates (normalizePlace place)) before q after l ->
  resolved_location (normalizePlace place) (dedupeGeo l) loc ->
  getWeather labelFromKey API_KEY w place log =
  weatherFor labelFromKey API_KEY w loc
    (log ++ geo_requests (appid API_KEY) (before ++ [q]))%list.
Proof.
  intros Hk Hf Hr. rewrite (getWeather_set labelFromKey API_KEY w place log Hk).
  rewrite (bind_value _ _ _ _ _ (geocode_found API_KEY w _ _ _ _ _ log Hf)).
  destruct Hr as [->|[Hl [Hs ->]]]; [reflexivity|]. rewrite Hs.
  destruct (dedupeGeo l) as [|g1 [|g2 r]]; simpl in Hl; try lia. reflexivity.
Qed.
End Resolved.

(** ** Commas and blanks *)

Lemma includes_comma_cons c t :
  includes (String c t) "," = Ascii.eqb c comma || includes t ",".
Proof.
  change (includes (String c t) ",")
    with (startsWith "," (String c t) || includes t ",").
  cbn [startsWith]. now rewrite andb_true_r, Ascii.eqb_sym.
Qed.

Lemma includes_comma_strip s : includes (strip_ws s) "," = includes s ",".
Proof.
  induction s as [|c t IH]; [reflexivity|].
  rewrite strip_cons, (includes_comma_cons c t).
  destruct (is_ws c) eqn:W.
  - rewrite IH. destruct (Ascii.eqb_spec c comma) as [->|]; [discriminate W|reflexivity].
  - now rewrite includes_comma_cons, IH.
Qed.

Lemma includes_comma_normalizePlace s :
  includes (normalizePlace s) "," = includes s ",".
Proof.
  now rewrite <- (includes_comma_strip (normalizePlace s)), strip_normalizePlace,
    includes_comma_strip.
Qed.

Lemma seemsSpecific_comma place :
  includes place "," = true -> seemsSpecific (normalizePlace place) = true.
Proof.
  intros H. unfold seemsSpecific. now rewrite includes_comma_normalizePlace, H.
Qed.

Lemma strip_ws_empty s : strip_ws s = EmptyString <-> sall is_ws s = true.
Proof.
  induction s as [|c t IH]; [now split|].
  rewrite strip_cons. simpl. destruct (is_ws c); [exact IH|]. now split.
Qed.

Lemma trimStart_blank s : sall is_ws s = true -> trimStart s = EmptyString.
Proof.
  induction s as [|c t IH]; [reflexivity|]. simpl.
  destruct (is_ws c); [exact IH|discriminate].
Qed.

Lemma normalizePlace_blank s :
  normalizePlace s = EmptyString <-> sall is_ws s = true.
Proof.
  split; intros H.
  - apply strip_ws_empty. rewrite <- strip_normalizePlace. now rewrite H.
  - unfold normalizePlace, trim. rewrite (trimStart_blank s H). reflexivity.
Qed.

(** ** What the runs have in common *)

Lemma candidates_nonempty_prefix n qs rest :
  candidates n = (qs ++ rest)%list -> qs <> [] -> exists qs', qs = n :: qs'.
Proof.
  intros E Hq. destruct (candidates_head n) as [r Er]. rewrite Er in E.
  destruct qs as [|x qs']; [contradiction|]. injection E as <- _. now eexists.
Qed.

Lemma run_shape labelFromKey key w place out reqs :
  run labelFromKey key w place out reqs ->
  exists qs rest ws,
    candidates (normalizePlace place) = (qs ++ rest)%list
    /\ qs <> []
    /\ reqs = (geo_requests key qs ++ ws)%list
    /\ match out with
       | Value (Failure _) => ws = []
       | Value (Success _ _ _) => exists loc, ws = weather_requests key loc
       | Throw _ =>
           ws = []
           \/ exists loc,
                ws = [CurrentRequest (lat loc) (lon loc) key]
                \/ ws = weather_requests key loc
       end.
Proof.
  assert (Hne : forall (b : list string) q, (b ++ [q])%list <> []).
  { intros b q E. now destruct b. }
  assert (Hsplit : forall (b : list string) q a,
             (b ++ q :: a)%list = ((b ++ [q]) ++ a)%list).
  { intros b q a. now rewrite <- app_assoc. }
  intros [Hn|b q a e Hc Hb Hf Ht|b q a l [Hc _] Hl Hs|b q a l loc e [Hc _] Hr Hf Ht
          |b q a l loc cur e [Hc _] Hr Ha Hf Ht|b q a l loc cur fc [Hc _] Hr Ha Hf Hn
          |b q a l loc cur fc [Hc _] Hr Ha Hf].
  - exists (candidates (normalizePlace place)), [], []. rewrite !app_nil_r.
    repeat split.
    destruct (candidates_head (normalizePlace place)) as [r ->]. discriminate.
  - exists (b ++ [q])%list, a, []. rewrite app_nil_r, <- Hsplit.
    repeat split; [exact Hc|apply Hne|now left].
  - exists (b ++ [q])%list, a, []. rewrite app_nil_r, <- Hsplit.
    repeat split; [exact Hc|apply Hne].
  - exists (b ++ [q])%list, a, [CurrentRequest (lat loc) (lon loc) key].
    rewrite <- Hsplit. repeat split; [exact Hc|apply Hne|].
    right. exists loc. now left.
  - exists (b ++ [q])%list, a, (weather_requests key loc).
    rewrite <- Hsplit. repeat split; [exact Hc|apply Hne|].
    right. exists loc. now right.
  - exists (b ++ [q])%list, a, (weather_requests key loc).
    rewrite <- Hsplit. repeat split; [exact Hc|apply Hne|].
    right. exists loc. now right.
  - exists (b ++ [q])%list, a, (weather_requests key loc).
    rewrite <- Hsplit. repeat split; [exact Hc|apply Hne|]. now exists loc.
Qed.


Lemma run_failure labelFromKey key w place m reqs :
  run labelFromKey key w place (Value (Failure m)) reqs ->
  m = not_found_message place
  \/ (seemsSpecific (normalizePlace place) = false
      /\ exists l, m = ambiguous_message place l /\ 1 < List.length l).
Proof.
  intros H. inversion H; subst.
  - now left.
  - right. split; [assumption|]. now eexists.
Qed.

Lemma transport_not_TypeError e : transport_error e -> e <> TypeError.
Proof.
  intros [->|[->|[status [body [-> _]]]]]; discriminate.
Qed.

(** ** Deduplication once more *)

Lemma seen_before_snoc seen a g :
  seen_before (seen ++ [a]) g = seen_before seen g || same_coords a g.
Proof. unfold seen_before. rewrite existsb_app. simpl. now rewrite orb_false_r. Qed.

Lemma dedupe_seen_fixed l : forall seen,
  distinct_coords l ->
  (forall g, In g l -> seen_before seen g = false) ->
  dedupe_seen seen l = l.
Proof.
  induction l as [|a r IH]; intros seen Hd Hs; [reflexivity|].
  inversion Hd as [|x l' Ha Hr]; subst. simpl.
  rewrite (Hs a (or_introl eq_refl)). f_equal. apply IH; [exact Hr|].
  intros g Hg. rewrite seen_before_snoc, (Hs g (or_intror Hg)).
  rewrite Forall_forall in Ha. now rewrite (Ha g Hg).
Qed.

Lemma dedupe_seen_all_seen r : forall seen,
  (forall g, In g r -> seen_before seen g = true) -> dedupe_seen seen r = [].
Proof.
  induction r as [|a r IH]; intros seen H; [reflexivity|]. simpl.
  rewrite (H a (or_introl eq_refl)). apply IH.
  intros g Hg. rewrite seen_before_snoc, (H g (or_intror Hg)). reflexivity.
Qed.

Lemma dedupe_seen_subseq l : forall seen, subseq (dedupe_seen seen l) l.
Proof.
  induction l as [|a r IH]; intros seen; [constructor|]. simpl.
  destruct (seen_before seen a); constructor; apply IH.
Qed.

Lemma subseq_In {A} (a b : list A) x : subseq a b -> In x a -> In x b.
Proof.
  induction 1 as [|y a b H IH|y a b H IH]; intros Hx.
  - exact Hx.
  - destruct Hx as [<-|Hx]; [now left|right; now apply IH].
  - right. now apply IH.
Qed.

Lemma subseq_length {A} (a b : list A) : subseq a b -> List.length a <= List.length b.
Proof. induction 1; simpl; lia. Qed.

(** ** Letter case *)

Lemma lower_char_ws c : is_ws (lower_char c) = is_ws c.
Proof. destruct c as [[] [] [] [] [] [] [] []]; reflexivity. Qed.

Lemma lower_char_comma c : Ascii.eqb (lower_char c) comma = Ascii.eqb c comma.
Proof. destruct c as [[] [] [] [] [] [] [] []]; reflexivity. Qed.

Lemma lower_char_idem c : lower_char (lower_char c) = lower_char c.
Proof. destruct c as [[] [] [] [] [] [] [] []]; reflexivity. Qed.

Lemma toLowerCase_cons c t :
  toLowerCase (String c t) = String (lower_char c) (toLowerCase t).
Proof. reflexivity. Qed.

Lemma toLowerCase_idem s : toLowerCase (toLowerCase s) = toLowerCase s.
Proof.
  induction s as [|c t IH]; [reflexivity|].
  now rewrite !toLowerCase_cons, lower_char_idem, IH.
Qed.

Lemma trimStart_lower s : trimStart (toLowerCase s) = toLowerCase (trimStart s).
Proof.
  induction s as [|c t IH]; [reflexivity|].
  rewrite toLowerCase_cons. cbn [trimStart]. rewrite lower_char_ws.
  destruct (is_ws c); [exact IH|reflexivity].
Qed.

Lemma trimEnd_lower s : trimEnd (toLowerCase s) = toLowerCase (trimEnd s).
Proof.
  induction s as [|c t IH]; [reflexivity|].
  rewrite toLowerCase_cons. cbn [trimEnd]. rewrite IH, lower_char_ws.
  destruct (trimEnd t); [destruct (is_ws c)|]; reflexivity.
Qed.

Lemma trim_lower s : trim (toLowerCase s) = toLowerCase (trim s).
Proof. unfold trim. now rewrite trimStart_lower, trimEnd_lower. Qed.

Lemma split_lower s :
  split comma (toLowerCase s) = map toLowerCase (split comma s).
Proof.
  induction s as [|c t IH]; [reflexivity|].
  rewrite toLowerCase_cons. cbn [split]. rewrite IH, lower_char_comma.
  destruct (Ascii.eqb c comma); [reflexivity|].
  destruct (split comma t); reflexivity.
Qed.

Lemma parts_lower q : parts (toLowerCase q) = map toLowerCase (parts q).
Proof.
  unfold parts. rewrite split_lower.
  induction (split comma q) as [|p r IH]; [reflexivity|].
  cbn [map filter]. rewrite trim_lower.
  destruct (trim p); cbn [toLowerCase smap truthy map]; [exact IH|].
  now rewrite IH.
Qed.

Lemma pickBest_lower query l :
  pickBestGeoMatch (toLowerCase query) l = pickBestGeoMatch query l.
Proof.
  unfold pickBestGeoMatch.
  rewrite parts_lower, toLowerCase_idem, !nth_error_map.
  destruct (nth_error (parts query) 1) as [p1|];
    destruct (nth_error (parts query) 2) as [p2|];
    cbn [option_map]; rewrite ?toLowerCase_idem; reflexivity.
Qed.

(** ** Parts of a query *)

Lemma comma_free_cons c t :
  comma_free (String c t) = negb (Ascii.eqb c comma) && comma_free t.
Proof. reflexivity. Qed.

Lemma comma_free_trimStart s : comma_free s = true -> comma_free (trimStart s) = true.
Proof.
  induction s as [|c t IH]; [easy|]. cbn [trimStart].
  destruct (is_ws c); [|easy].
  rewrite comma_free_cons. intros H. apply andb_prop in H. now apply IH.
Qed.

Lemma comma_free_trimEnd s : comma_free s = true -> comma_free (trimEnd s) = true.
Proof.
  induction s as [|c t IH]; [easy|].
  rewrite comma_free_cons. intros H. apply andb_prop in H as [Hc Ht].
  cbn [trimEnd]. specialize (IH Ht).
  destruct (trimEnd t) as [|d u].
  - destruct (is_ws c); [reflexivity|]. rewrite comma_free_cons, Hc. reflexivity.
  - rewrite comma_free_cons, Hc. exact IH.
Qed.

Lemma trim_idem s : trim (trim s) = trim s.
Proof.
  unfold trim at 1. rewrite (trimStart_id (trim s) (trim_head s)). apply trim_fixed.
Qed.

Lemma parts_In q p :
  In p (parts q) <-> exists x, In x (split comma q) /\ p = trim x /\ p <> EmptyString.
Proof.
  unfold parts. rewrite filter_In, in_map_iff, truthy_iff. split.
  - intros [[x [E Hx]] Hp]. exists x. now repeat split.
  - intros [x [Hx [E Hp]]]. split; [exists x; now split|exact Hp].
Qed.

Lemma parts_comma_free q p : In p (parts q) -> comma_free p = true.
Proof.
  intros H. apply parts_In in H as [x [Hx [-> _]]].
  pose proof (split_comma_free q) as Hf. rewrite Forall_forall in Hf.
  unfold trim. apply comma_free_trimEnd, comma_free_trimStart. now apply Hf.
Qed.

Lemma parts_trimmed q p : In p (parts q) -> trim p = p.
Proof. intros H. apply parts_In in H as [x [_ [-> _]]]. apply trim_idem. Qed.

Lemma split_plain s : comma_free s = true -> split comma s = [s].
Proof.
  induction s as [|c t IH]; [reflexivity|].
  rewrite comma_free_cons. intros H. apply andb_prop in H as [Hc Ht].
  cbn [split]. rewrite (IH Ht). apply negb_true_iff in Hc. now rewrite Hc.
Qed.

Lemma split_app_comma a b :
  comma_free a = true ->
  split comma (a ++ String comma b) = a :: split comma b.
Proof.
  induction a as [|c t IH]; intros H.
  - cbn [append split]. now rewrite Ascii.eqb_refl.
  - rewrite comma_free_cons in H. apply andb_prop in H as [Hc Ht].
    cbn [append split]. rewrite (IH Ht). apply negb_true_iff in Hc. now rewrite Hc.
Qed.

Lemma upper_alpha c :
  is_alpha c = true ->
  is_upper (upper_char c) = true /\ is_ws (upper_char c) = false
  /\ Ascii.eqb (upper_char c) comma = false.
Proof.
  destruct c as [[] [] [] [] [] [] [] []]; intros H; try discriminate H;
    repeat split.
Qed.

(** The parts of a query rewritten by [maybeAppendUS]. *)
Lemma parts_appended q city st :
  parts q = [city; st] -> two_letters st = true ->
  parts (city ++ ", " ++ toUpperCase st ++ ", US") = [city; toUpperCase st; "US"].
Proof.
  intros Hp Ht.
  assert (Hin : In city (parts q)) by (rewrite Hp; now left).
  pose proof (parts_comma_free q city Hin) as Hf.
  pose proof (parts_trimmed q city Hin) as Hc.
  pose proof (parts_truthy q city Hin) as Hn.
  destruct st as [|a [|b [|x y]]]; try discriminate Ht.
  cbn [two_letters] in Ht. apply andb_prop in Ht as [Ha Hb].
  destruct (upper_alpha a Ha) as [_ [Wa Ca]].
  destruct (upper_alpha b Hb) as [_ [Wb Cb]].
  unfold parts.
  change (city ++ ", " ++ toUpperCase (String a (String b EmptyString)) ++ ", US")
    with (city ++ String comma
            (String space (String (upper_char a) (String (upper_char b) EmptyString))
               ++ String comma " US")).
  rewrite (split_app_comma _ _ Hf), split_app_comma.
  - cbn [split map filter]. rewrite Hc.
    assert (E1 : trim (String space (String (upper_char a) (String (upper_char b) EmptyString)))
                 = String (upper_char a) (String (upper_char b) EmptyString)).
    { unfold trim. cbn [trimStart]. rewrite is_ws_space, Wa.
      cbn [trimEnd]. now rewrite Wa, Wb. }
    rewrite E1.
    destruct city as [|c t]; [contradiction|]. reflexivity.
  - rewrite !comma_free_cons, Ca, Cb. reflexivity.
Qed.

(** ** Normalization piece by piece *)

Lemma comma_free_head s :
  comma_free s = true ->
  match s with String c _ => Ascii.eqb c comma = false | EmptyString => True end.
Proof.
  destruct s as [|c t]; [easy|]. rewrite comma_free_cons. intros H.
  apply andb_prop in H as [H _]. now apply negb_true_iff in H.
Qed.

Lemma match_comma_free s : comma_free s = true -> match_comma s = None.
Proof.
  intros H. unfold match_comma.
  pose proof (comma_free_head _ (comma_free_trimStart s H)) as Hh.
  destruct (trimStart s) as [|c r]; [reflexivity|]. now rewrite Hh.
Qed.

Lemma commas_plain s : comma_free s = true -> replace_commas s = s.
Proof.
  induction s as [|c t IH]; intros H; [apply commas_nil|].
  rewrite (commas_copy c t (match_comma_free _ H)).
  rewrite comma_free_cons in H. apply andb_prop in H as [_ H]. now rewrite IH.
Qed.

Lemma trimStart_app_comma a b :
  trimStart (a ++ String comma b) = trimStart a ++ String comma b.
Proof.
  induction a as [|c t IH]; cbn [append trimStart].
  - now rewrite is_ws_comma.
  - destruct (is_ws c); [exact IH|reflexivity].
Qed.

Lemma trimEnd_app_comma a b :
  trimEnd (a ++ String comma b) = a ++ String comma (trimEnd b).
Proof.
  induction a as [|c t IH]; cbn [append].
  - apply trimEnd_cons_plain, is_ws_comma.
  - rewrite trimEnd_cons_keep; [now rewrite IH|].
    rewrite IH. now destruct t.
Qed.

Lemma trimEnd_cons_nonempty c t :
  trimEnd (String c t) <> EmptyString -> trimEnd (String c t) = String c (trimEnd t).
Proof.
  intros H. destruct (trimEnd t) as [|d u] eqn:E.
  - cbn [trimEnd] in *. rewrite E in *. destruct (is_ws c); [contradiction|reflexivity].
  - rewrite <- E. apply trimEnd_cons_keep. now rewrite E.
Qed.

Lemma commas_app_comma a : forall b,
  comma_free a = true ->
  replace_commas (a ++ String comma b)
  = trimEnd a ++ ", " ++ replace_commas (trimStart b).
Proof.
  induction a as [|c t IH]; intros b H.
  - cbn [append trimEnd]. apply commas_match. cbn [trimStart]. now rewrite is_ws_comma.
  - destruct (trimStart (String c t)) as [|d u] eqn:Et.
    + rewrite (trimStart_empty _ Et). cbn [append].
      apply (commas_match (String c t ++ String comma b)).
      now rewrite trimStart_app_comma, Et.
    + assert (Hn : trimEnd (String c t) <> EmptyString).
      { intros E. apply trimEnd_empty in E. congruence. }
      rewrite (trimEnd_cons_nonempty c t Hn).
      change (String c t ++ String comma b) with (String c (t ++ String comma b)).
      rewrite commas_copy.
      * rewrite comma_free_cons in H. apply andb_prop in H as [_ H].
        now rewrite (IH b H).
      * unfold match_comma.
        change (String c (t ++ String comma b)) with (String c t ++ String comma b).
        rewrite trimStart_app_comma, Et. cbn [append].
        pose proof (comma_free_head _ (comma_free_trimStart _ H)) as Hh.
        rewrite Et in Hh. now rewrite Hh.
Qed.

Lemma trimStart_trimEnd s : trimStart (trimEnd s) = trim s.
Proof.
  unfold trim. induction s as [|c t IH]; [reflexivity|].
  destruct (is_ws c) eqn:W.
  - cbn [trimStart]. rewrite W. rewrite <- IH.
    destruct (trimEnd t) as [|d u] eqn:E.
    + cbn [trimEnd]. now rewrite E, W.
    + rewrite trimEnd_cons_keep by (now rewrite E). rewrite E.
      cbn [trimStart]. now rewrite W.
  - rewrite (trimEnd_cons_plain c t W). cbn [trimStart]. rewrite W.
    now rewrite (trimEnd_cons_plain c t W).
Qed.

Lemma trimStart_app t v :
  trimStart t <> EmptyString -> trimStart (t ++ v) = trimStart t ++ v.
Proof.
  induction t as [|c u IH]; intros H; [contradiction|].
  cbn [append trimStart] in *. destruct (is_ws c); [now apply IH|reflexivity].
Qed.

Lemma collapse_app_aux n : forall u v,
  String.length u <= n -> trimEnd u = u ->
  collapse_spaces (u ++ v) = collapse_spaces u ++ collapse_spaces v.
Proof.
  induction n as [|n IH]; intros u v Hl Hu.
  - destruct u; [now rewrite spaces_nil|simpl in Hl; lia].
  - destruct u as [|c t]; [now rewrite spaces_nil|].
    simpl in Hl. cbn [append].
    destruct (is_ws c) eqn:W.
    + assert (Ht : trimStart t <> EmptyString).
      { intros E. apply trimStart_empty in E.
        cbn [trimEnd] in Hu. rewrite E, W in Hu. discriminate. }
      rewrite !(spaces_ws c _ W), (trimStart_app t v Ht).
      rewrite (IH (trimStart t) v); [reflexivity| |].
      * pose proof (trimStart_length t). lia.
      * apply trimEnd_fixed_trimStart. now apply trimEnd_fixed_tail with c.
    + rewrite !(spaces_plain c _ W).
      rewrite (IH t v); [reflexivity|lia|now apply trimEnd_fixed_tail with c].
Qed.

Lemma collapse_app u v :
  trimEnd u = u ->
  collapse_spaces (u ++ v) = collapse_spaces u ++ collapse_spaces v.
Proof. now apply (collapse_app_aux (String.length u)). Qed.

Lemma normalizePlace_plain a : comma_free a = true -> normalizePlace a = tidy a.
Proof.
  intros H. unfold normalizePlace, tidy. rewrite commas_plain; [reflexivity|].
  unfold trim. now apply comma_free_trimEnd, comma_free_trimStart.
Qed.

Lemma normalizePlace_app_comma a b :
  comma_free a = true ->
  normalizePlace (a ++ String comma b) = tidy a ++ ", " ++ normalizePlace b.
Proof.
  intros H. unfold normalizePlace at 1, trim at 1.
  rewrite trimStart_app_comma, trimEnd_app_comma.
  rewrite (commas_app_comma _ _ (comma_free_trimStart a H)), trimStart_trimEnd.
  change (trimEnd (trimStart a)) with (trim a).
  rewrite (collapse_app _ _ (trim_fixed a)).
  change (", " ++ replace_commas (trim b))
    with (String comma (String space (replace_commas (trim b)))).
  rewrite (spaces_plain comma _ is_ws_comma), (spaces_ws space _ is_ws_space).
  rewrite (trimStart_id _ (commas_head _ (trim_head b))). reflexivity.
Qed.

Lemma normalizePlace_join l :
  l <> [] -> Forall (fun p => comma_free p = true) l ->
  normalizePlace (join "," l) = join ", " (map tidy l).
Proof.
  induction l as [|x [|y r] IH]; intros Hn Hf; [contradiction| |].
  - inversion Hf; subst. now apply normalizePlace_plain.
  - inversion Hf as [|? ? Hx Hr]; subst.
    rewrite join_cons_cons.
    change ("," ++ join "," (y :: r)) with (String comma (join "," (y :: r))).
    rewrite (normalizePlace_app_comma _ _ Hx), (IH ltac:(discriminate) Hr).
    change (map tidy (x :: y :: r)) with (tidy x :: tidy y :: map tidy r).
    now rewrite join_cons_cons.
Qed.

Lemma split_snoc_comma s :
  split comma (s ++ ",") = (split comma s ++ [EmptyString])%list.
Proof.
  induction s as [|c t IH]; [reflexivity|].
  cbn [append split]. rewrite IH.
  destruct (Ascii.eqb c comma); [reflexivity|].
  destruct (split comma t) as [|h r] eqn:E; [now apply split_nonempty in E|].
  reflexivity.
Qed.

Lemma join_snoc_empty sep l :
  l <> [] -> join sep (l ++ [EmptyString]) = join sep l ++ sep.
Proof.
  induction l as [|x [|y r] IH]; intros H; [contradiction| |].
  - cbn [app join]. now rewrite sapp_nil_r.
  - change ((x :: y :: r) ++ [EmptyString])%list
      with (x :: ((y :: r) ++ [EmptyString]))%list.
    change ((y :: r) ++ [EmptyString])%list with (y :: (r ++ [EmptyString]))%list at 1.
    rewrite join_cons_cons.
    change (y :: (r ++ [EmptyString]))%list with ((y :: r) ++ [EmptyString])%list.
    rewrite (IH ltac:(discriminate)), join_cons_cons. now rewrite !sapp_assoc.
Qed.

(** ** The parts of a normalized place *)

Lemma comma_free_strip s : comma_free (strip_ws s) = comma_free s.
Proof.
  induction s as [|c t IH]; [reflexivity|].
  rewrite strip_cons, (comma_free_cons c t).
  destruct (is_ws c) eqn:W.
  - rewrite IH. destruct (Ascii.eqb_spec c comma) as [->|]; [discriminate W|reflexivity].
  - now rewrite comma_free_cons, IH.
Qed.

Lemma comma_free_tidy p : comma_free p = true -> comma_free (tidy p) = true.
Proof.
  intros H. rewrite <- (normalizePlace_plain p H).
  now rewrite <- comma_free_strip, strip_normalizePlace, comma_free_strip.
Qed.

Lemma tidy_head p : head_ws (tidy p) = false.
Proof. apply spaces_head, trim_head. Qed.

Lemma normal_plain_trimmed u : normal u -> comma_free u = true -> trimEnd u = u.
Proof.
  induction 1 as [|t Hh Hn IH|t Hh Hn IH|c t Hw Hc Hn IH]; intros Hf.
  - reflexivity.
  - rewrite comma_free_cons, Ascii.eqb_refl in Hf. discriminate.
  - rewrite comma_free_cons in Hf. apply andb_prop in Hf as [_ Hf].
    rewrite trimEnd_cons_keep; [now rewrite IH|].
    rewrite (IH Hf). now destruct t.
  - rewrite comma_free_cons in Hf. apply andb_prop in Hf as [_ Hf].
    now rewrite (trimEnd_cons_plain c t Hw), IH.
Qed.

Lemma tidy_trimmed p : comma_free p = true -> trim (tidy p) = tidy p.
Proof.
  intros H. unfold trim. rewrite (trimStart_id _ (tidy_head p)).
  apply normal_plain_trimmed; [|now apply comma_free_tidy].
  rewrite <- (normalizePlace_plain p H). apply normalizePlace_normal.
Qed.

Lemma head_plain_empty x :
  head_ws x = false -> (x = EmptyString <-> strip_ws x = EmptyString).
Proof.
  destruct x as [|c t]; [easy|]. cbn [head_ws]. intros W.
  rewrite strip_cons, W. now split.
Qed.

Lemma tidy_truthy p : truthy (tidy p) = truthy (trim p).
Proof.
  apply eq_true_iff_eq. rewrite !truthy_iff.
  rewrite (head_plain_empty _ (tidy_head p)), (head_plain_empty _ (trim_head p)).
  unfold tidy. now rewrite strip_spaces.
Qed.

Lemma split_join_spaced x r :
  Forall (fun p => comma_free p = true) (x :: r) ->
  split comma (join ", " (x :: r)) = x :: map (fun p => " " ++ p) r.
Proof.
  revert x. induction r as [|y r IH]; intros x Hf; inversion Hf as [|? ? Hx Hr]; subst.
  - now apply split_plain.
  - rewrite join_cons_cons.
    change (", " ++ join ", " (y :: r))
      with (String comma (String space (join ", " (y :: r)))).
    rewrite (split_app_comma x _ Hx). f_equal.
    cbn [split]. change (Ascii.eqb space comma) with false. cbv iota.
    now rewrite (IH y Hr).
Qed.

Lemma trim_spaced_tidy p :
  comma_free p = true -> trim (" " ++ tidy p) = tidy p.
Proof.
  intros H. unfold trim at 1.
  change (trimStart (" " ++ tidy p)) with (trimStart (tidy p)).
  now apply tidy_trimmed.
Qed.

Lemma parts_tidy l :
  Forall (fun p => comma_free p = true) l ->
  filter truthy (map trim (map (fun p => " " ++ p) (map tidy l)))
  = map collapse_spaces (filter truthy (map trim l)).
Proof.
  induction l as [|p r IH]; intros Hf; [reflexivity|].
  inversion Hf as [|? ? Hp Hr]; subst. cbn [map filter].
  rewrite (trim_spaced_tidy p Hp), tidy_truthy, (IH Hr).
  destruct (truthy (trim p)); reflexivity.
Qed.

Lemma parts_normalizePlace s :
  parts (normalizePlace s) = map collapse_spaces (parts s).
Proof.
  pose proof (split_comma_free s) as Hf.
  pose proof (split_nonempty comma s) as Hn.
  unfold parts at 1.
  rewrite <- (join_split s) at 1. rewrite (normalizePlace_join _ Hn Hf).
  unfold parts. destruct (split comma s) as [|x r]; [contradiction|].
  inversion Hf as [|? ? Hx Hr]; subst.
  change (map tidy (x :: r)) with (tidy x :: map tidy r).
  rewrite split_join_spaced.
  - cbn [map filter]. rewrite (tidy_trimmed x Hx), tidy_truthy, (parts_tidy r Hr).
    destruct (truthy (trim x)); reflexivity.
  - constructor; [now apply comma_free_tidy|].
    rewrite Forall_forall in *. intros p Hp. apply in_map_iff in Hp as [p' [<- Hp']].
    now apply comma_free_tidy, Hr.
Qed.

(** ** Day keys of four-digit years *)

Lemma civil_four_digits d y m day :
  (-354285 <= d <= 2932896)%Z ->
  civil_from_days d = (y, m, day) ->
  (1000 <= y <= 9999 /\ 1 <= m <= 12 /\ 1 <= day <= 31)%Z.
Proof.
  intros Hd E. pose proof (civil_bounds _ _ _ _ E) as [Hm Hday].
  assert (Hlo : (10000101 <= ymd_code (civil_from_days d))%Z).
  { destruct (Z.eq_dec d (-354285)) as [->|Hn]; [vm_compute; discriminate|].
    apply Z.lt_le_incl.
    change 10000101%Z with (ymd_code (civil_from_days (-354285))).
    apply code_mono. lia. }
  assert (Hhi : (ymd_code (civil_from_days d) <= 99991231)%Z).
  { destruct (Z.eq_dec d 2932896) as [->|Hn]; [vm_compute; discriminate|].
    apply Z.lt_le_incl.
    change 99991231%Z with (ymd_code (civil_from_days 2932896)).
    apply code_mono. lia. }
  rewrite E in Hlo, Hhi. unfold ymd_code in Hlo, Hhi. lia.
Qed.

Lemma dayKey_same_day t1 t2 tz :
  four_digit_year (t1 + tz)%Z -> four_digit_year (t2 + tz)%Z ->
  (dayKeyFromUtcWithOffset t1 tz = dayKeyFromUtcWithOffset t2 tz
   <-> day_number (t1 + tz) = day_number (t2 + tz)).
Proof.
  intros H1 H2.
  pose proof (dayKey_chronological t1 t2 tz H1 H2) as C12.
  pose proof (dayKey_chronological t2 t1 tz H2 H1) as C21.
  destruct (dayKey_day_key t1 tz H1) as [E1 _].
  destruct (dayKey_day_key t2 tz H2) as [E2 _].
  split.
  - intros E.
    destruct (Z.lt_total (day_number (t1 + tz)) (day_number (t2 + tz))) as [L|[L|L]];
      [|exact L|].
    + apply C12 in L. rewrite E in L. now apply str_lt_irrefl in L.
    + apply C21 in L. rewrite E in L. now apply str_lt_irrefl in L.
  - intros E. now rewrite E1, E2, E.
Qed.

(** ** Lowest and highest temperature of a day *)

Lemma Qmin_same x : Qmin x x = x.
Proof. unfold Qmin, GenericMinMax.gmin. now destruct (x ?= x)%Q. Qed.

Lemma Qmax_same x : Qmax x x = x.
Proof. unfold Qmax, GenericMinMax.gmax. now destruct (x ?= x)%Q. Qed.

Lemma Qmin_cases x y : Qmin x y = x \/ Qmin x y = y.
Proof.
  unfold Qmin, GenericMinMax.gmin. destruct (x ?= y)%Q; auto.
Qed.

Lemma fold_Qmin_le l : forall a,
  (fold_left Qmin l a <= a)%Q
  /\ (forall p, In p l -> (fold_left Qmin l a <= p)%Q)
  /\ (fold_left Qmin l a = a \/ In (fold_left Qmin l a) l).
Proof.
  induction l as [|x r IH]; intros a; simpl.
  - split; [apply Qle_refl|]. split; [intros p []|now left].
  - destruct (IH (Qmin a x)) as [H1 [H2 H3]]. split; [|split].
    + eapply Qle_trans; [exact H1|apply Q.le_min_l].
    + intros p [<-|Hp]; [|now apply H2].
      eapply Qle_trans; [exact H1|apply Q.le_min_r].
    + destruct H3 as [H3|H3]; [|right; now right].
      rewrite H3. destruct (Qmin_cases a x) as [->| ->]; [now left|right; now left].
Qed.

Lemma kept_min_max it :
  kept it = true -> item_min it = Some (min_of it) /\ item_max it = Some (max_of it).
Proof.
  unfold kept, min_of, max_of.
  destruct (item_min it), (item_max it); try discriminate. now split.
Qed.

Lemma fold_point_min_max a0 it :
  kept it = true ->
  exists a,
    fold_point (Some a0) it = Some a
    /\ agg_min a = Qmin (agg_min a0) (min_of it)
    /\ agg_max a = Qmax (agg_max a0) (max_of it).
Proof.
  intros H. destruct (kept_min_max it H) as [E1 E2].
  unfold fold_point. rewrite E1, E2. eexists. split; [reflexivity|]. now split.
Qed.

Lemma fold_points_min_max pts : forall a0,
  Forall (fun it => kept it = true) pts ->
  exists a,
    fold_left fold_point pts (Some a0) = Some a
    /\ agg_min a = fold_left Qmin (map min_of pts) (agg_min a0)
    /\ agg_max a = fold_left Qmax (map max_of pts) (agg_max a0).
Proof.
  induction pts as [|it r IH]; intros a0 H.
  - exists a0. now repeat split.
  - inversion H as [|? ? Hk Hr]; subst.
    destruct (fold_point_min_max a0 it Hk) as [a1 [E1 [M1 X1]]].
    destruct (IH a1 Hr) as [a [E [M X]]].
    exists a. cbn [fold_left map]. rewrite E1, E, M, X, M1, X1. now repeat split.
Qed.

Lemma bucket_min_max p r :
  Forall (fun it => kept it = true) (p :: r) ->
  exists a,
    fold_left fold_point (p :: r) None = Some a
    /\ agg_min a = fold_left Qmin (map min_of r) (min_of p)
    /\ agg_max a = fold_left Qmax (map max_of r) (max_of p).
Proof.
  intros H. inversion H as [|? ? Hk Hr]; subst.
  destruct (kept_min_max p Hk) as [E1 E2].
  assert (E : exists a1, fold_point None p = Some a1
                         /\ agg_min a1 = min_of p /\ agg_max a1 = max_of p).
  { unfold fold_point. rewrite E1, E2. eexists. split; [reflexivity|].
    cbn [orElse agg_min agg_max]. now rewrite Qmin_same, Qmax_same. }
  destruct E as [a1 [Ea [M1 X1]]].
  destruct (fold_points_min_max r a1 Hr) as [a [Ef [M X]]].
  exists a. cbn [fold_left]. rewrite Ea, Ef, M, X, M1, X1. now repeat split.
Qed.

Lemma summary_min_max_of_day labelFromKey items tz days now s :
  In s (summarizeForecast labelFromKey items tz days now) ->
  exists k p r,
    In k (chosen_keys (build_days tz items) tz days now)
    /\ label s = labelFromKey k
    /\ day_points tz k items = p :: r
    /\ day_min s = fold_left Qmin (map min_of r) (min_of p)
    /\ day_max s = fold_left Qmax (map max_of r) (max_of p).
Proof.
  unfold summarizeForecast. intros H.
  apply summarize_keys_In in H as [k [agg [Hk [E ->]]]].
  assert (Hb : day_points tz k items <> []).
  { apply build_has_bucket, map_get_keys. now rewrite E. }
  pose proof (day_points_Forall tz k items) as Hf.
  destruct (day_points tz k items) as [|p r] eqn:Ed; [contradiction|].
  exists k, p, r. split; [exact Hk|]. split; [reflexivity|]. split; [exact Ed|].
  rewrite build_get, Ed in E.
  destruct (bucket_min_max p r Hf) as [a [Ea [M X]]].
  rewrite Ea in E. injection E as <-. now split.
Qed.

(** ** Summaries that only depend on the days *)

Lemma sorted_unique a : forall b,
  StronglySorted str_lt a -> StronglySorted str_lt b ->
  (forall k, In k a <-> In k b) -> a = b.
Proof.
  induction a as [|x a' IH]; intros b Ha Hb H.
  - destruct b as [|y b']; [reflexivity|].
    exfalso. apply (proj2 (H y)). now left.
  - destruct b as [|y b'].
    + exfalso. apply (proj1 (H x)). now left.
    + inversion Ha as [|? ? Sa Fa]; subst. inversion Hb as [|? ? Sb Fb]; subst.
      rewrite Forall_forall in Fa, Fb.
      assert (Exy : x = y).
      { destruct (proj1 (H x) (or_introl eq_refl)) as [E|Hx]; [now symmetry|].
        destruct (proj2 (H y) (or_introl eq_refl)) as [E|Hy]; [exact E|].
        exfalso. apply (str_lt_irrefl x).
        apply str_lt_trans with y; [now apply Fa|now apply Fb]. }
      subst y. f_equal. apply IH; [exact Sa|exact Sb|].
      intros k. split; intros Hk.
      * destruct (proj1 (H k) (or_intror Hk)) as [E|Hk']; [|exact Hk'].
        subst k. exfalso. apply (str_lt_irrefl x). now apply Fa.
      * destruct (proj2 (H k) (or_intror Hk)) as [E|Hk']; [|exact Hk'].
        subst k. exfalso. apply (str_lt_irrefl x). now apply Fb.
Qed.

Lemma summarize_keys_ext labelFromKey m1 m2 ks :
  (forall k, In k ks -> map_get k m1 = map_get k m2) ->
  summarize_keys labelFromKey m1 ks = summarize_keys labelFromKey m2 ks.
Proof.
  induction ks as [|k r IH]; intros H; [reflexivity|].
  unfold summarize_keys. cbn [flat_map].
  rewrite (H k (or_introl eq_refl)). f_equal.
  apply IH. intros k' Hk'. apply H. now right.
Qed.

Lemma slice0_incl {A} n (l : list A) x : In x (slice0 n l) -> In x l.
Proof. unfold slice0. apply firstn_incl. Qed.

(** The summaries are fixed by the remaining days and their points. *)
Lemma summarize_same labelFromKey items1 items2 tz days now :
  (forall k,
      In k (remaining_keys (build_days tz items1) (dayKeyFromUtcWithOffset now tz))
      <-> In k (remaining_keys (build_days tz items2) (dayKeyFromUtcWithOffset now tz))) ->
  (forall k,
      In k (remaining_keys (build_days tz items1) (dayKeyFromUtcWithOffset now tz)) ->
      day_points tz k items1 = day_points tz k items2) ->
  summarizeForecast labelFromKey items1 tz days now
  = summarizeForecast labelFromKey items2 tz days now.
Proof.
  intros Hk Hp. unfold summarizeForecast. rewrite !chosen_remaining.
  assert (E : remaining_keys (build_days tz items1) (dayKeyFromUtcWithOffset now tz)
              = remaining_keys (build_days tz items2) (dayKeyFromUtcWithOffset now tz)).
  { apply sorted_unique; [apply remaining_sorted, build_keys_NoDup
                         |apply remaining_sorted, build_keys_NoDup|exact Hk]. }
  rewrite <- E. apply summarize_keys_ext.
  intros k Hin. apply slice0_incl in Hin. rewrite !build_get. now rewrite (Hp k Hin).
Qed.

Lemma day_points_off_day tz now k items :
  day_points tz k (filter (off_day tz now) items)
  = if String.eqb k now then [] else day_points tz k items.
Proof.
  unfold day_points, off_day. induction items as [|it r IH].
  - now destruct (String.eqb k now).
  - cbn [filter].
    destruct (String.eqb_spec (day_of tz it) now) as [En|En]; cbn [negb].
    + rewrite IH. destruct (String.eqb_spec k now) as [->|Hk]; [reflexivity|].
      rewrite En, (proj2 (String.eqb_neq now k)) by congruence.
      now rewrite andb_false_r.
    + cbn [filter]. rewrite IH.
      destruct (String.eqb_spec k now) as [->|Hk]; [|reflexivity].
      now rewrite (proj2 (String.eqb_neq (day_of tz it) now) En), andb_false_r.
Qed.

(** ** One-word places *)

Lemma sall_app p a b : sall p (a ++ b) = sall p a && sall p b.
Proof. induction a as [|c t IH]; simpl; [reflexivity|]. now rewrite IH, andb_assoc. Qed.

Lemma is_alpha_word c : is_alpha c = true -> is_word c = true.
Proof. unfold is_word. now intros ->. Qed.

Lemma ends_word_alpha a : forall prev,
  sall is_alpha a = true -> ends_word prev a = false -> a = EmptyString.
Proof.
  induction a as [|c t IH]; intros prev Ha He; [reflexivity|].
  simpl in Ha. apply andb_prop in Ha as [Hc Ht]. simpl in He.
  pose proof (IH _ Ht He) as ->. simpl in He.
  rewrite (is_alpha_word c Hc) in He. discriminate.
Qed.

Lemma head_word_alpha b :
  sall is_alpha b = true -> head_word b = false -> b = EmptyString.
Proof.
  destruct b as [|c t]; [reflexivity|]. simpl. intros Ha Hh.
  apply andb_prop in Ha as [Hc _]. rewrite (is_alpha_word c Hc) in Hh. discriminate.
Qed.

Lemma one_word_specific n :
  sall is_alpha n = true ->
  (seemsSpecific n = true <-> toUpperCase n = "US" \/ contains_ci n "usa").
Proof.
  intros Ha. rewrite seemsSpecific_iff. split.
  - intros [[a [b E]]|[[a [m [b [E Em]]]]|[H|[a [u [v [b [E [Eu [Ev [Hw Hh]]]]]]]]]]].
    + exfalso. rewrite E, !sall_app in Ha.
      apply andb_prop in Ha as [_ Ha]. apply andb_prop in Ha as [Ha _]. discriminate.
    + exfalso. rewrite E, !sall_app in Ha.
      apply andb_prop in Ha as [_ Ha]. apply andb_prop in Ha as [Ha _].
      apply toUpperCase_alpha in Ha. rewrite Em in Ha. discriminate.
    + now right.
    + left. rewrite E, sall_app in Ha. apply andb_prop in Ha as [Ha1 Ha2].
      simpl in Ha2. apply andb_prop in Ha2 as [_ Ha2]. apply andb_prop in Ha2 as [_ Ha2].
      rewrite (ends_word_alpha a false Ha1 Hw), (head_word_alpha b Ha2 Hh) in E.
      rewrite E. simpl. unfold toUpperCase. simpl. now rewrite Eu, Ev.
  - intros [E|H]; [|now right; right; left].
    right. right. right.
    destruct n as [|u [|v [|x y]]]; try discriminate E.
    unfold toUpperCase in E. simpl in E. injection E as Eu Ev.
    exists EmptyString, u, v, EmptyString. now repeat split.
Qed.

(** ** The normalization in one pass *)

Lemma scan_blank t : forall st,
  sall is_ws t = true -> normalize_scan st t = EmptyString.
Proof.
  induction t as [|c u IH]; intros st H; [reflexivity|].
  cbn [sall] in H. apply andb_prop in H as [W H].
  cbn [normalize_scan]. rewrite W. now apply IH.
Qed.

Lemma trimStart_empty_blank t : trimStart t = EmptyString -> sall is_ws t = true.
Proof.
  induction t as [|c u IH]; [reflexivity|]. cbn [trimStart sall].
  destruct (is_ws c); [exact IH|discriminate].
Qed.

Lemma scan_app_comma a b : forall st,
  comma_free a = true ->
  normalize_scan st (a ++ String comma b)
  = normalize_scan st a ++ ", " ++ normalize_scan Fresh b.
Proof.
  induction a as [|c u IH]; intros st H.
  - cbn [append normalize_scan]. now rewrite is_ws_comma, Ascii.eqb_refl.
  - rewrite comma_free_cons in H. apply andb_prop in H as [Hc Hu].
    apply negb_true_iff in Hc.
    cbn [append normalize_scan]. rewrite Hc.
    destruct (is_ws c); [now apply IH|].
    destruct st; cbn [append]; now rewrite (IH Word Hu).
Qed.

Lemma scan_trimStart t : forall st,
  st <> Word -> normalize_scan st (trimStart t) = normalize_scan st t.
Proof.
  induction t as [|c u IH]; intros st Hs; [reflexivity|].
  cbn [trimStart]. destruct (is_ws c) eqn:W; [|reflexivity].
  cbn [normalize_scan]. rewrite W.
  destruct st; [now apply IH|contradiction|now apply IH].
Qed.

Lemma scan_word n : forall t,
  String.length t <= n -> comma_free t = true ->
  collapse_spaces (trimEnd t) = normalize_scan Word t.
Proof.
  induction n as [|n IH]; intros t Hl Hf.
  - destruct t; [apply spaces_nil|simpl in Hl; lia].
  - destruct t as [|c u]; [apply spaces_nil|].
    simpl in Hl. pose proof Hf as Hf0.
    rewrite comma_free_cons in Hf. apply andb_prop in Hf as [Hc Hu].
    apply negb_true_iff in Hc.
    destruct (is_ws c) eqn:W.
    + cbn [normalize_scan]. rewrite W.
      destruct (trimEnd u) as [|d v] eqn:E.
      * cbn [trimEnd]. rewrite E, W, spaces_nil. symmetry. apply scan_blank.
        now apply trimStart_empty_blank, trimEnd_empty.
      * rewrite trimEnd_cons_keep by (now rewrite E).
        rewrite (spaces_ws c _ W), trimStart_trimEnd. unfold trim.
        rewrite <- (scan_trimStart u Gap) by discriminate.
        pose proof (trimStart_head u) as Hh.
        pose proof (comma_free_trimStart u Hu) as Hx.
        pose proof (trimStart_length u) as Hlen.
        destruct (trimStart u) as [|x y] eqn:Ex.
        -- apply trimStart_empty in Ex. congruence.
        -- cbn [head_ws] in Hh. rewrite comma_free_cons in Hx.
           apply andb_prop in Hx as [Hxc Hy]. apply negb_true_iff in Hxc.
           rewrite (trimEnd_cons_plain x y Hh), (spaces_plain x _ Hh).
           cbn [normalize_scan]. rewrite Hh, Hxc.
           simpl in Hlen. now rewrite (IH y ltac:(lia) Hy).
    + rewrite (trimEnd_cons_plain c u W), (spaces_plain c _ W).
      cbn [normalize_scan]. rewrite W, Hc. now rewrite (IH u ltac:(lia) Hu).
Qed.

Lemma tidy_scan a : comma_free a = true -> tidy a = normalize_scan Fresh a.
Proof.
  intros H. unfold tidy, trim.
  rewrite <- (scan_trimStart a Fresh) by discriminate.
  pose proof (trimStart_head a) as Hh.
  pose proof (comma_free_trimStart a H) as Hx.
  destruct (trimStart a) as [|x y]; [apply spaces_nil|].
  cbn [head_ws] in Hh. rewrite comma_free_cons in Hx.
  apply andb_prop in Hx as [Hxc Hy]. apply negb_true_iff in Hxc.
  rewrite (trimEnd_cons_plain x y Hh), (spaces_plain x _ Hh).
  cbn [normalize_scan]. rewrite Hh, Hxc.
  now rewrite (scan_word (String.length y) y (le_n _) Hy).
Qed.

Lemma scan_join l :
  l <> [] -> Forall (fun p => comma_free p = true) l ->
  normalize_scan Fresh (join "," l) = join ", " (map tidy l).
Proof.
  induction l as [|x [|y r] IH]; intros Hn Hf; [contradiction| |].
  - inversion Hf; subst. symmetry. now apply tidy_scan.
  - inversion Hf as [|? ? Hx Hr]; subst.
    rewrite join_cons_cons.
    change ("," ++ join "," (y :: r)) with (String comma (join "," (y :: r))).
    rewrite (scan_app_comma _ _ Fresh Hx), (IH ltac:(discriminate) Hr).
    change (map tidy (x :: y :: r)) with (tidy x :: tidy y :: map tidy r).
    now rewrite join_cons_cons, (tidy_scan x Hx).
Qed.

Lemma normalizePlace_scan s : normalizePlace s = normalize_scan Fresh s.
Proof.
  rewrite <- (join_split s) at 1 2.
  rewrite normalizePlace_join, scan_join;
    try apply split_nonempty; try apply split_comma_free. reflexivity.
Qed.

(** ** Trimmed, non-empty pieces *)

Lemma trimEnd_fixed_tail_ws p : trimEnd p = p -> tail_ws p = false.
Proof.
  induction p as [|c t IH]; intros H; [reflexivity|].
  pose proof (trimEnd_fixed_tail c t H) as Ht.
  destruct t as [|d u].
  - cbn [trimEnd] in H. cbn [tail_ws]. destruct (is_ws c); [discriminate|reflexivity].
  - change (tail_ws (String c (String d u))) with (tail_ws (String d u)). now apply IH.
Qed.

Lemma trim_blank x : trim x = EmptyString <-> sall is_ws x = true.
Proof.
  split; intros H.
  - apply strip_ws_empty. unfold trim in H.
    now rewrite <- (strip_trimStart x), <- (strip_trimEnd (trimStart x)), H.
  - unfold trim. now rewrite (trimStart_blank x H).
Qed.

Lemma trim_piece x : sall is_ws x = false -> trimmed_piece x (trim x).
Proof.
  intros H. destruct (trim_spec x) as [a [b [E [Ha [Hb [Hh Ht]]]]]].
  exists a, b. split; [exact E|]. split; [exact Ha|]. split; [exact Hb|].
  split; [|split; [exact Hh|now apply trimEnd_fixed_tail_ws]].
  intros E0. apply trim_blank in E0. congruence.
Qed.

Lemma parts_pieces q :
  Forall2 trimmed_piece
    (filter (fun x => negb (sall is_ws x)) (split comma q)) (parts q).
Proof.
  unfold parts. induction (split comma q) as [|x r IH]; [constructor|].
  cbn [map filter].
  destruct (sall is_ws x) eqn:B; cbn [negb].
  - rewrite (proj2 (trim_blank x) B). exact IH.
  - destruct (trim x) as [|c t] eqn:E.
    + apply trim_blank in E. congruence.
    + cbn [truthy]. constructor; [|exact IH]. rewrite <- E. now apply trim_piece.
Qed.

Lemma lower_upper_char c : lower_char (upper_char c) = lower_char c.
Proof. destruct c as [[] [] [] [] [] [] [] []]; reflexivity. Qed.

Lemma toLowerCase_toUpperCase s : toLowerCase (toUpperCase s) = toLowerCase s.
Proof.
  induction s as [|c t IH]; [reflexivity|].
  unfold toLowerCase, toUpperCase in *. cbn [smap]. now rewrite lower_upper_char, IH.
Qed.

(** ** What a kept point does *)

Lemma add_item_other tz byDay it k :
  k <> day_of tz it -> map_get k (add_item tz byDay it) = map_get k byDay.
Proof.
  intros H. rewrite add_item_get.
  now rewrite (proj2 (String.eqb_neq (day_of tz it) k)) by congruence.
Qed.

Lemma add_item_kept tz byDay it mn mx :
  item_min it = Some mn -> item_max it = Some mx ->
  exists agg',
    map_get (day_of tz it) (add_item tz byDay it) = Some agg'
    /\ match map_get (day_of tz it) byDay with
       | Some agg =>
           agg_min agg' = Qmin (agg_min agg) mn
           /\ agg_max agg' = Qmax (agg_max agg) mx
           /\ popMax agg' = Qmax (popMax agg) (item_pop it)
           /\ descCounts agg'
              = map_set (item_desc it)
                  (orElse (map_get (item_desc it) (descCounts agg)) 0 + 1)
                  (descCounts agg)
       | None =>
           agg_min agg' = mn /\ agg_max agg' = mx
           /\ popMax agg' = Qmax 0 (item_pop it)
           /\ descCounts agg' = [(item_desc it, 1)]
       end.
Proof.
  intros E1 E2. rewrite add_item_get, String.eqb_refl.
  unfold fold_point. rewrite E1, E2. eexists. split; [reflexivity|].
  destruct (map_get (day_of tz it) byDay) as [agg|]; cbn [orElse agg_min agg_max
    popMax descCounts map_get map_set Nat.add].
  - now repeat split.
  - rewrite Qmin_same, Qmax_same. now repeat split.
Qed.

Lemma add_item_changes tz byDay it : kept it = true -> add_item tz byDay it <> byDay.
Proof.
  intros Hk E. destruct (kept_min_max it Hk) as [E1 E2].
  destruct (add_item_kept tz byDay it _ _ E1 E2) as [agg' [Eg H]].
  rewrite E in Eg. rewrite Eg in H. destruct H as [_ [_ [_ Hd]]].
  apply (f_equal (map_get (item_desc it))) in Hd.
  rewrite map_get_set_same in Hd.
  destruct (map_get (item_desc it) (descCounts agg')) as [c|]; [|discriminate].
  injection Hd as Hd. cbn [orElse] in Hd. lia.
Qed.

Lemma bucket_counts tz items k agg :
  map_get k (build_days tz items) = Some agg ->
  forall d,
    orElse (map_get d (descCounts agg)) 0
    = occurrences d (map item_desc (day_points tz k items)).
Proof.
  intros E d. rewrite build_get in E.
  destruct (fold_points (day_points tz k items) None (day_points_Forall tz k items))
    as [Hc _].
  rewrite E in Hc. cbn [counts_of] in Hc. rewrite Hc, count_descs, map_get_counts.
  destruct (existsb (String.eqb d) (uniq (map item_desc (day_points tz k items))))
    eqn:Ex; [reflexivity|].
  cbn [orElse]. symmetry. apply occurrences_not_In. intros Hin.
  apply uniq_In, existsb_eqb_In in Hin. congruence.
Qed.

(** Every kept point of a day is accounted for in the summary of the
    day. *)
Lemma summary_accounts labelFromKey items tz days now s :
  In s (summarizeForecast labelFromKey items tz days now) ->
  exists k agg,
    In k (chosen_keys (build_days tz items) tz days now)
    /\ map_get k (build_days tz items) = Some agg
    /\ s = summary_of labelFromKey k agg
    /\ (forall it,
          In it items -> kept it = true -> day_of tz it = k ->
          exists mn mx,
            item_min it = Some mn /\ item_max it = Some mx
            /\ (day_min s <= mn)%Q /\ (mx <= day_max s)%Q
            /\ (item_pop it <= day_pop s)%Q)
    /\ (forall d,
          orElse (map_get d (descCounts agg)) 0
          = occurrences d (map item_desc (day_points tz k items))).
Proof.
  unfold summarizeForecast. intros H.
  apply summarize_keys_In in H as [k [agg [Hk [E ->]]]].
  exists k, agg. split; [exact Hk|]. split; [exact E|]. split; [reflexivity|].
  split; [|now apply bucket_counts].
  intros it Hi Hkept Hd.
  assert (Hin : In it (day_points tz k items)).
  { unfold day_points. apply filter_In. split; [exact Hi|].
    now rewrite Hkept, Hd, String.eqb_refl. }
  pose proof (day_points_Forall tz k items) as Hf.
  rewrite build_get in E.
  destruct (fold_points (day_points tz k items) None Hf) as [_ [Hp _]].
  rewrite E in Hp. cbn [pop_of] in Hp.
  destruct (day_points tz k items) as [|p r] eqn:Ed; [contradiction|].
  destruct (bucket_min_max p r Hf) as [a [Ea [M X]]].
  rewrite Ea in E. injection E as <-.
  destruct (kept_min_max it Hkept) as [E1 E2].
  exists (min_of it), (max_of it). split; [exact E1|]. split; [exact E2|].
  cbn [summary_of day_min day_max day_pop]. rewrite M, X, Hp.
  destruct (fold_Qmin_le (map min_of r) (min_of p)) as [M1 [M2 _]].
  destruct (fold_Qmax_le (map max_of r) (max_of p)) as [X1 [X2 _]].
  destruct (fold_Qmax_le (map item_pop (p :: r)) 0%Q) as [_ [P2 _]].
  split; [|split].
  - destruct Hin as [<-|Hin]; [exact M1|]. apply M2. now apply in_map.
  - destruct Hin as [<-|Hin]; [exact X1|]. apply X2. now apply in_map.
  - apply P2. now apply in_map.
Qed.

(** * The claims *)

(** C1, as the claim words it: the second and third segments of the query
    cut at the commas.  In "Nazareth, , IL" the second segment is empty and
    the third, "il", is the country code of the second match; no match has
    an empty state, so rule (2) of the claim gives the second match.  The
    code drops the empty segment first: "il" is then the state token, which
    no match has, no country token is left, no state name occurs in the
    query, and the first match is returned. *)
Lemma pick_drops_empty_segments :
  segment "Nazareth, , IL" 1 = Some EmptyString
  /\ segment "Nazareth, , IL" 2 = Some "il"
  /\ parts "Nazareth, , IL" = ["Nazareth"; "IL"]
  /\ pickBestGeoMatch "Nazareth, , IL" [nazareth_pa; nazareth_il] = Some nazareth_pa
  /\ no_hit (raw_state_rule "Nazareth, , IL") [nazareth_pa; nazareth_il]
  /\ first_hit (raw_country_rule "Nazareth, , IL") [nazareth_pa; nazareth_il]
       nazareth_il
  /\ ~ (exists g,
          pickBestGeoMatch "Nazareth, , IL" [nazareth_pa; nazareth_il] = Some g
          /\ (first_hit (raw_state_rule "Nazareth, , IL")
                [nazareth_pa; nazareth_il] g
              \/ (no_hit (raw_state_rule "Nazareth, , IL")
                    [nazareth_pa; nazareth_il]
                  /\ (first_hit (raw_country_rule "Nazareth, , IL")
                         [nazareth_pa; nazareth_il] g
                      \/ (no_hit (raw_country_rule "Nazareth, , IL")
                            [nazareth_pa; nazareth_il]
                          /\ (first_hit (state_name_rule "Nazareth, , IL")
                                 [nazareth_pa; nazareth_il] g
                              \/ (no_hit (state_name_rule "Nazareth, , IL")
                                    [nazareth_pa; nazareth_il]
                                  /\ hd_error [nazareth_pa; nazareth_il]
                                       = Some g))))))).
Proof.
  assert (H1 : no_hit (raw_state_rule "Nazareth, , IL") [nazareth_pa; nazareth_il]).
  { intros g Hg [seg [st [Hs [Est E]]]]. injection Hs as <-.
    destruct Hg as [<-|[<-|[]]]; injection Est as <-; discriminate. }
  assert (Hpa : ~ raw_country_rule "Nazareth, , IL" nazareth_pa).
  { intros [seg [Hs [_ E]]]. injection Hs as <-. discriminate. }
  assert (Hil : raw_country_rule "Nazareth, , IL" nazareth_il).
  { exists "il". repeat split. simpl. lia. }
  assert (H2 : first_hit (raw_country_rule "Nazareth, , IL")
                 [nazareth_pa; nazareth_il] nazareth_il).
  { exists [nazareth_pa], []. split; [reflexivity|]. split; [exact Hil|].
    intros x [<-|[]]. exact Hpa. }
  repeat split; try assumption.
  intros [g [E [[l1 [l2 [_ [Hg _]]]]|[_ [[l1 [l2 [_ [Hg _]]]]|[Hno _]]]]]];
    injection E as <-.
  - apply (H1 nazareth_pa); [now left|exact Hg].
  - exact (Hpa Hg).
  - apply (Hno nazareth_il); [right; now left|exact Hil].
Qed.

(** C1 (amended). For every query and every non-empty list of matches,
    [pickBestGeoMatch] returns a match, found by the first of four rules
    that applies.  The parts of the query are its comma-separated pieces,
    trimmed, the empty ones dropped.  (1) The first match whose state, in
    lower case, is the second part in lower case.  (2) Else, when the
    third part in lower case has at most three characters, the first match
    whose country code in lower case equals it.  (3) Else the first match
    whose non-empty state name, in lower case, occurs in the lower-cased
    query.  (4) Else the first match of the list. *)
Theorem pickBestGeoMatch_priority :
  forall query geoResults,
    geoResults <> [] ->
    exists g,
      pickBestGeoMatch query geoResults = Some g
      /\ (first_hit (state_rule query) geoResults g
          \/ (no_hit (state_rule query) geoResults
              /\ (first_hit (country_rule query) geoResults g
                  \/ (no_hit (country_rule query) geoResults
                      /\ (first_hit (state_name_rule query) geoResults g
                          \/ (no_hit (state_name_rule query) geoResults
                              /\ hd_error geoResults = Some g)))))).
Proof.
  intros query l Hl. unfold pickBestGeoMatch. cbv zeta.
  destruct (pick_country query l Hl) as [g2 [E2 H2]]. cbv zeta in E2.
  destruct (nth_error (parts query) 1) as [p|] eqn:Ep.
  - assert (Hne : truthy (toLowerCase p) = true).
    { apply truthy_iff. intros E. apply (proj1 (toLowerCase_empty p)) in E.
      revert E. eapply parts_truthy, nth_error_In, Ep. }
    rewrite Hne.
    destruct (find (fun g => String.eqb (toLowerCase (orElse (state g) EmptyString))
                               (toLowerCase p)) l) as [g|] eqn:F.
    + exists g. split; [reflexivity|]. left.
      eapply find_first_hit; [|exact F].
      intros x. now apply state_test_iff.
    + exists g2. split; [exact E2|]. right. split; [|exact H2].
      eapply find_no_hit; [|exact F]. intros x. now apply state_test_iff.
  - simpl truthy. cbv iota. exists g2. split; [exact E2|]. right. split; [|exact H2].
    intros x _ [p' [st [Hp' _]]]. congruence.
Qed.

Lemma pickBestGeoMatch_priority_witness :
  exists g,
    pickBestGeoMatch "Springfield, Missouri" [springfield_il; springfield_mo] = Some g
    /\ (first_hit (state_rule "Springfield, Missouri") [springfield_il; springfield_mo] g
        \/ (no_hit (state_rule "Springfield, Missouri") [springfield_il; springfield_mo]
            /\ (first_hit (country_rule "Springfield, Missouri")
                   [springfield_il; springfield_mo] g
                \/ (no_hit (country_rule "Springfield, Missouri")
                      [springfield_il; springfield_mo]
                    /\ (first_hit (state_name_rule "Springfield, Missouri")
                           [springfield_il; springfield_mo] g
                        \/ (no_hit (state_name_rule "Springfield, Missouri")
                              [springfield_il; springfield_mo]
                            /\ hd_error [springfield_il; springfield_mo] = Some g)))))).
Proof.
  apply (pickBestGeoMatch_priority "Springfield, Missouri"
           [springfield_il; springfield_mo]).
  discriminate.
Defined.

Example pick_ex_state :
  pickBestGeoMatch "Springfield, missouri" [springfield_il; springfield_mo]
  = Some springfield_mo.
Proof. reflexivity. Qed.

Example pick_ex_country :
  pickBestGeoMatch "Paris, Ile, fr"
    [mkGeo "Paris" (Some "Texas") "US" (336 # 10) (-955 # 10);
     mkGeo "Paris" (Some "Ile-de-France") "FR" (4885 # 100) (235 # 100)]
  = Some (mkGeo "Paris" (Some "Ile-de-France") "FR" (4885 # 100) (235 # 100)).
Proof. reflexivity. Qed.

Example pick_ex_state_name :
  pickBestGeoMatch "springfield illinois, usa please"
    [springfield_mo; springfield_il]
  = Some springfield_il.
Proof. reflexivity. Qed.

Example pick_ex_first :
  pickBestGeoMatch "Springfield, ZZ" [springfield_mo; springfield_il]
  = Some springfield_mo.
Proof. reflexivity. Qed.

(** C2, as the claim words it: a point that does have a usable minimum is
    skipped all the same when it has no usable maximum.  [min_only_point]
    carries [temp_min] = 50 and neither [temp_max] nor [temp]: its minimum
    is 50, it leaves the buckets as they were, and the summary of a list
    made of it alone is empty. *)
Lemma skipped_with_usable_min :
  item_min min_only_point = Some (50 # 1)%Q
  /\ item_max min_only_point = None
  /\ kept min_only_point = false
  /\ add_item 0 [] min_only_point = []
  /\ summarizeForecast (fun k => k) [min_only_point] 0 3 1704484800 = []
  /\ ~ (kept min_only_point = false ->
        item_min min_only_point = None /\ item_max min_only_point = None).
Proof.
  repeat split. intros H. destruct (H eq_refl) as [E _]. discriminate.
Qed.

(** C2 (amended). A point is skipped exactly when it lacks a usable
    minimum or lacks a usable maximum, where the minimum is [temp_min],
    else [temp], and the maximum is [temp_max], else [temp].  A skipped
    point changes nothing and the summary is that of the other points.  A
    point that is not skipped always changes the buckets: it leaves the
    other days as they are and enters the bucket of its day, created from
    it if need be, with its minimum, its maximum, its probability of
    precipitation and one more count of its description.  Every summary
    returned is that of a day with a kept point, so a day whose points are
    all skipped is absent from the result; and the summary of a day
    accounts for every kept point of the day: its temperatures and its
    probability bound those of the point, and each description is counted
    once per kept point that carries it. *)
Theorem forecast_point_skipped :
  (forall it,
      (kept it = false <-> item_min it = None \/ item_max it = None)
      /\ item_min it =
           match main it with
           | Some m => match temp_min m with Some x => Some x | None => temp m end
           | None => None
           end
      /\ item_max it =
           match main it with
           | Some m => match temp_max m with Some x => Some x | None => temp m end
           | None => None
           end)
  /\ (forall tz byDay it, kept it = false -> add_item tz byDay it = byDay)
  /\ (forall tz byDay it,
        kept it = true -> map_get (day_of tz it) (add_item tz byDay it) <> None)
  /\ (forall labelFromKey items tz days now,
        summarizeForecast labelFromKey items tz days now =
        summarizeForecast labelFromKey (filter kept items) tz days now)
  /\ (forall labelFromKey items tz days now s,
        In s (summarizeForecast labelFromKey items tz days now) ->
        exists k it,
          In k (chosen_keys (build_days tz items) tz days now)
          /\ label s = labelFromKey k
          /\ In it items /\ day_of tz it = k /\ kept it = true)
  /\ (forall items tz days now k,
        (forall it, In it items -> day_of tz it = k -> kept it = false) ->
        ~ In k (chosen_keys (build_days tz items) tz days now))
  /\ (forall tz byDay it, kept it = true -> add_item tz byDay it <> byDay)
  /\ (forall tz byDay it mn mx,
        item_min it = Some mn -> item_max it = Some mx ->
        (forall k,
            k <> day_of tz it ->
            map_get k (add_item tz byDay it) = map_get k byDay)
        /\ exists agg',
             map_get (day_of tz it) (add_item tz byDay it) = Some agg'
             /\ match map_get (day_of tz it) byDay with
                | Some agg =>
                    agg_min agg' = Qmin (agg_min agg) mn
                    /\ agg_max agg' = Qmax (agg_max agg) mx
                    /\ popMax agg' = Qmax (popMax agg) (item_pop it)
                    /\ descCounts agg'
                       = map_set (item_desc it)
                           (orElse (map_get (item_desc it) (descCounts agg)) 0 + 1)
                           (descCounts agg)
                | None =>
                    agg_min agg' = mn /\ agg_max agg' = mx
                    /\ popMax agg' = Qmax 0 (item_pop it)
                    /\ descCounts agg' = [(item_desc it, 1)]
                end)
  /\ (forall labelFromKey items tz days now s,
        In s (summarizeForecast labelFromKey items tz days now) ->
        exists k agg,
          In k (chosen_keys (build_days tz items) tz days now)
          /\ map_get k (build_days tz items) = Some agg
          /\ s = summary_of labelFromKey k agg
          /\ (forall it,
                In it items -> kept it = true -> day_of tz it = k ->
                exists mn mx,
                  item_min it = Some mn /\ item_max it = Some mx
                  /\ (day_min s <= mn)%Q /\ (mx <= day_max s)%Q
                  /\ (item_pop it <= day_pop s)%Q)
          /\ (forall d,
                orElse (map_get d (descCounts agg)) 0
                = List.length
                    (filter (fun it =>
                               kept it && String.eqb (day_of tz it) k
                               && String.eqb d (item_desc it))
                       items))).
Proof.
  split; [|split; [|split; [|split; [|split; [|split; [|split; [|split]]]]]]].
  - intros it. split; [apply kept_false_iff|]. split; reflexivity.
  - intros tz byDay it. apply add_item_skip.
  - intros tz byDay it Hk. rewrite add_item_get, String.eqb_refl.
    destruct (fold_point_kept (map_get (day_of tz it) byDay) it Hk) as [a [E _]].
    rewrite E. discriminate.
  - intros lab items tz days now. unfold summarizeForecast.
    now rewrite build_days_kept.
  - intros lab items tz days now s H.
    destruct (summary_of_day lab items tz days now s H) as [k [Hk [Hl [Hb _]]]].
    destruct (day_points tz k items) as [|it r] eqn:E; [contradiction|].
    assert (Hit : In it (day_points tz k items)) by (rewrite E; now left).
    apply day_points_kept in Hit as [K [D I]].
    now exists k, it.
  - intros items tz days now k Hall Hin.
    apply chosen_subset, build_has_bucket in Hin.
    destruct (day_points tz k items) as [|it r] eqn:E; [contradiction|].
    assert (Hit : In it (day_points tz k items)) by (rewrite E; now left).
    apply day_points_kept in Hit as [K [D I]].
    rewrite (Hall it I D) in K. discriminate.
  - intros tz byDay it. apply add_item_changes.
  - intros tz byDay it mn mx E1 E2.
    split; [intros k Hk; now apply add_item_other|now apply add_item_kept].
  - intros lab items tz days now s H.
    destruct (summary_accounts lab items tz days now s H)
      as [k [agg [Hk [E [Es [Hb Hc]]]]]].
    exists k, agg. split; [exact Hk|]. split; [exact E|]. split; [exact Es|].
    split; [exact Hb|].
    intros d. rewrite (Hc d). unfold occurrences, day_points.
    clear. induction items as [|it r IH]; [reflexivity|].
    cbn [filter].
    destruct (kept it && String.eqb (day_of tz it) k); cbn [andb map filter];
      [|exact IH].
    destruct (String.eqb d (item_desc it)); cbn [List.length]; now rewrite IH.
Qed.

Lemma forecast_point_skipped_witness :
  add_item 0 [] (mkItem 1704499200 None None (Some (2 # 10)%Q)) = [].
Proof.
  apply (proj1 (proj2 forecast_point_skipped) 0%Z []
           (mkItem 1704499200 None None (Some (2 # 10)%Q))).
  reflexivity.
Defined.

(** C3 (amended). When the first answering candidate leaves more than one
    match after deduplication and the normalized input has no comma, no
    "united states", no "usa" (in any case) and no standalone "us",
    [getWeather] returns, without throwing, a failure whose message lists
    the first three matches at most, one per line, each as
    "**<rank>.** <name>[, <state>], <country>" with the rank between
    Markdown bold markers, the state only when it is non-empty, followed
    by the suggestion to add a state or a country. *)
Theorem getWeather_ambiguous :
  forall labelFromKey API_KEY w place q l,
    key_set API_KEY ->
    first_answer w (candidates (normalizePlace place)) q l ->
    1 < List.length (dedupeGeo l) ->
    ~ (exists a b, normalizePlace place = a ++ "," ++ b) ->
    ~ contains_ci (normalizePlace place) "united states" ->
    ~ contains_ci (normalizePlace place) "usa" ->
    ~ standalone_us (normalizePlace place) ->
    exists log' lines,
      getWeather labelFromKey API_KEY w place [] =
        (Value
           (Failure
              ("I found multiple matches for **" ++ place ++ "**:" ++ newline
                 ++ join newline lines ++ newline ++ newline
                 ++ "Try adding state/country (ex: " ++ dquote ++ "Houston, TX, US"
                 ++ dquote ++ " or " ++ dquote ++ "Paris, FR" ++ dquote ++ ").")),
         log')
      /\ List.length lines = Nat.min 3 (List.length (dedupeGeo l))
      /\ (forall i g,
            i < 3 -> nth_error (dedupeGeo l) i = Some g ->
            nth_error lines i =
              Some ("**" ++ string_of_nat (i + 1) ++ ".** " ++ name g
                      ++ state_suffix g ++ ", " ++ country g))
      /\ (forall g,
            state_suffix g =
              match state g with
              | Some st => if truthy st then ", " ++ st else EmptyString
              | None => EmptyString
              end).
Proof.
  intros lab key w place q l Hk Hf Hl H1 H2 H3 H4.
  destruct (getWeather_ambiguous_message lab key w place q l [] Hk Hf Hl) as [log' E].
  { apply not_true_is_false. rewrite seemsSpecific_iff. tauto. }
  destruct (ambiguous_message_lines place (dedupeGeo l)) as [lines [Em [Hn Hi]]].
  exists log', lines. rewrite E, Em. repeat split; assumption.
Qed.

Lemma sample_first_answer :
  first_answer sample_world (candidates (normalizePlace "Springfield")) "Springfield"
    [springfield_il; springfield_mo; springfield_dup; springfield_ma; springfield_or].
Proof.
  exists [], ["Springfield, US"]. split; [reflexivity|]. split; [intros ? []|].
  split; [now exists 200, None|discriminate].
Qed.

Lemma getWeather_ambiguous_witness :
  exists log' lines,
    getWeather (fun k => k) (Some "k") sample_world "Springfield" [] =
      (Value
         (Failure
            ("I found multiple matches for **" ++ "Springfield" ++ "**:" ++ newline
               ++ join newline lines ++ newline ++ newline
               ++ "Try adding state/country (ex: " ++ dquote ++ "Houston, TX, US"
               ++ dquote ++ " or " ++ dquote ++ "Paris, FR" ++ dquote ++ ").")),
       log')
    /\ List.length lines = 3.
Proof.
  destruct (getWeather_ambiguous (fun k => k) (Some "k") sample_world "Springfield"
              "Springfield"
              [springfield_il; springfield_mo; springfield_dup; springfield_ma;
               springfield_or])
    as [log' [lines [E [Hn _]]]].
  - exists "k". split; [reflexivity|discriminate].
  - exact sample_first_answer.
  - vm_compute. lia.
  - intros H. apply includes_iff in H. discriminate.
  - intros H. apply includes_ci_iff in H. discriminate.
  - intros H. apply includes_ci_iff in H. discriminate.
  - intros H. apply us_token_iff in H. discriminate.
  - exists log', lines. split; [exact E|exact Hn].
Defined.

(** C3, as the claim words the format: the lines of the message are not of
    the form "<rank>. <name>[, <state>], <country>".  For "Springfield" in
    the sample world the line of the first match, so formatted, does not
    occur in the message; the line with the bold markers does. *)
Lemma ambiguous_lines_not_plain :
  exists msg log',
    getWeather (fun k => k) (Some "k") sample_world "Springfield" [] =
      (Value (Failure msg), log')
    /\ plain_option_line springfield_il 0 = "1. Springfield, Illinois, US"
    /\ includes msg (plain_option_line springfield_il 0) = false
    /\ includes msg "**1.** Springfield, Illinois, US" = true.
Proof.
  eexists _, _. split; [vm_compute; reflexivity|]. now vm_compute.
Qed.

(** C4. Without the credential [getWeather] throws and sends no request:
    the log of requests is left as it was.  With the credential, when no
    candidate query finds a place, and when several places are found for
    a query that does not seem specific, [getWeather] returns a failure
    value with its message and throws nothing. *)
Theorem getWeather_throws_or_returns :
  forall labelFromKey API_KEY w place log,
    (~ key_set API_KEY ->
     getWeather labelFromKey API_KEY w place log = (Throw missing_key_error, log))
    /\ (key_set API_KEY ->
        (forall q, In q (candidates (normalizePlace place)) -> geo_nothing w q) ->
        exists log',
          getWeather labelFromKey API_KEY w place log =
          (Value (Failure (not_found_message place)), log'))
    /\ (key_set API_KEY ->
        forall q l,
          first_answer w (candidates (normalizePlace place)) q l ->
          1 < List.length (dedupeGeo l) ->
          seemsSpecific (normalizePlace place) = false ->
          exists log',
            getWeather labelFromKey API_KEY w place log =
            (Value (Failure (ambiguous_message place (dedupeGeo l))), log')).
Proof.
  intros lab key w place log. split; [|split].
  - apply getWeather_unset.
  - apply getWeather_not_found.
  - intros Hk q l. now apply getWeather_ambiguous_message.
Qed.

Lemma getWeather_throws_or_returns_witness :
  getWeather (fun k => k) None sample_world "Seattle" [] = (Throw missing_key_error, [])
  /\ getWeather (fun k => k) (Some EmptyString) sample_world "Seattle" [] =
       (Throw missing_key_error, [])
  /\ (exists log',
        getWeather (fun k => k) (Some "k") sample_world "Atlantis" [] =
        (Value (Failure (not_found_message "Atlantis")), log')).
Proof.
  split; [|split].
  - apply (proj1 (getWeather_throws_or_returns (fun k => k) None sample_world "Seattle" [])).
    intros [k [H _]]. discriminate.
  - apply (proj1 (getWeather_throws_or_returns (fun k => k) (Some EmptyString)
                    sample_world "Seattle" [])).
    intros [k [H Hk]]. injection H as <-. now apply Hk.
  - apply (proj1 (proj2 (getWeather_throws_or_returns (fun k => k) (Some "k")
                           sample_world "Atlantis" []))).
    + exists "k". split; [reflexivity|discriminate].
    + intros q Hq. right. exists 200, None.
      vm_compute in Hq. destruct Hq as [<-|[<-|[]]]; reflexivity.
Defined.

(** C5. For a number of days [days >= 0], "today" is the day key of the
    current instant shifted by the same offset; the day keys that have a
    bucket are sorted in strictly ascending order of their code units,
    today's key being left out exactly when some other day has a bucket;
    the summaries returned are those of the first [days] of these keys,
    one each, in that order.  For instants in the years 1000 to 9999,
    whose keys read YYYY-MM-DD, the order of the keys is the order of the
    days. *)
Theorem summarizeForecast_days :
  forall labelFromKey items tz days now,
    (0 <= days)%Z ->
    exists remaining,
      StronglySorted str_lt remaining
      /\ (forall k,
            In k remaining <->
            has_bucket tz items k
            /\ (k <> dayKeyFromUtcWithOffset now tz
                \/ forall k', has_bucket tz items k' ->
                              k' = dayKeyFromUtcWithOffset now tz))
      /\ chosen_keys (build_days tz items) tz days now
           = firstn (Z.to_nat days) remaining
      /\ Forall2 (fun k s =>
                    label s = labelFromKey k
                    /\ exists agg,
                         map_get k (build_days tz items) = Some agg
                         /\ s = summary_of labelFromKey k agg)
           (firstn (Z.to_nat days) remaining)
           (summarizeForecast labelFromKey items tz days now)
      /\ (List.length (summarizeForecast labelFromKey items tz days now)
            <= Z.to_nat days)
      /\ (forall t1 t2,
            four_digit_year (t1 + tz)%Z -> four_digit_year (t2 + tz)%Z ->
            (str_lt (dayKeyFromUtcWithOffset t1 tz) (dayKeyFromUtcWithOffset t2 tz)
             <-> (day_number (t1 + tz) < day_number (t2 + tz))%Z)).
Proof.
  intros lab items tz days now Hd.
  exists (remaining_keys (build_days tz items) (dayKeyFromUtcWithOffset now tz)).
  assert (Hc : chosen_keys (build_days tz items) tz days now =
               firstn (Z.to_nat days)
                 (remaining_keys (build_days tz items)
                    (dayKeyFromUtcWithOffset now tz))).
  { rewrite chosen_remaining. now apply slice0_firstn. }
  assert (HF : Forall2 (fun k s =>
                    label s = lab k
                    /\ exists agg,
                         map_get k (build_days tz items) = Some agg
                         /\ s = summary_of lab k agg)
           (firstn (Z.to_nat days)
              (remaining_keys (build_days tz items) (dayKeyFromUtcWithOffset now tz)))
           (summarizeForecast lab items tz days now)).
  { rewrite <- Hc. unfold summarizeForecast.
    eapply Forall2_impl;
      [|apply summarize_keys_Forall2; intros k; apply chosen_subset].
    intros k s [agg [E ->]]. split; [reflexivity|now exists agg]. }
  split; [apply remaining_sorted, build_keys_NoDup|].
  split; [|split; [exact Hc|split; [exact HF|split]]].
  - intros k. rewrite remaining_In. unfold has_bucket.
    rewrite build_has_bucket. split.
    + intros [H [Hn|Hall]]; (split; [exact H|]); [now left|right].
      intros k' Hk'. now apply Hall, build_has_bucket.
    + intros [H [Hn|Hall]]; (split; [exact H|]); [now left|right].
      intros k' Hk'. now apply Hall, build_has_bucket.
  - rewrite <- (Forall2_same_length _ _ _ HF). apply firstn_le_length.
  - intros t1 t2. apply dayKey_chronological.
Qed.

Lemma summarizeForecast_days_witness :
  exists remaining,
    chosen_keys (build_days 0 sample_forecast) 0 3 1704484800
      = firstn (Z.to_nat 3) remaining
    /\ StronglySorted str_lt remaining
    /\ List.length (summarizeForecast (fun k => k) sample_forecast 0 3 1704484800) <= 3.
Proof.
  destruct (summarizeForecast_days (fun k => k) sample_forecast 0 3 1704484800)
    as [remaining [Hs [_ [Hc [_ [Hl _]]]]]].
  - discriminate.
  - exists remaining. split; [exact Hc|]. split; [exact Hs|exact Hl].
Defined.

Example sample_days :
  summarizeForecast (fun k => k) sample_forecast 0 3 1704484800 =
  [ mkDay "2024-01-06" (38 # 1) (42 # 1) "overcast clouds" (3 # 10);
    mkDay "2024-01-07" (36 # 1) (45 # 1) "clear sky" 0 ].
Proof. vm_compute. reflexivity. Qed.

Example sample_today_alone :
  summarizeForecast (fun k => k) [sample_point 1704488400 (41 # 1) (44 # 1) "light rain" (6 # 10)]
    0 3 1704484800 =
  [ mkDay "2024-01-05" (41 # 1) (44 # 1) "light rain" (6 # 10) ].
Proof. vm_compute. reflexivity. Qed.

Example day_keys :
  dayKeyFromUtcWithOffset 0 0 = "1970-01-01"
  /\ dayKeyFromUtcWithOffset (-1) 0 = "1969-12-31"
  /\ dayKeyFromUtcWithOffset 1704495600 3600 = "2024-01-06"
  /\ dayKeyFromUtcWithOffset 1704495600 0 = "2024-01-05"
  /\ dayKeyFromUtcWithOffset 1709164800 0 = "2024-02-29"
  /\ dayKeyFromUtcWithOffset 951782400 0 = "2000-02-29"
  /\ dayKeyFromUtcWithOffset 4107542400 0 = "2100-03-01"
  /\ dayKeyFromUtcWithOffset 8640000000001 0 = "NaN-NaN-NaN".
Proof. repeat split. Qed.

(** C6. [normalizePlace] is idempotent on every string; both spellings of
    "Seattle, WA" normalize to "Seattle, WA"; the result never starts with
    white space, its white space is made of single spaces, each of its
    commas is followed by a space, and its other characters are those of
    the input, unchanged and in order (no case change).  For every input
    the result is the one-pass normalization [normalize_scan], which
    drops the white space at the start, at the end and around a comma,
    writes a comma as a comma and one space and any other run of white
    space as one space, and copies every other character; the examples
    show the white space dropped at both ends and before a comma, and a
    run of spaces, tabs and line feeds inside a name written as one
    space. *)
Theorem normalizePlace_idempotent :
  (forall s, normalizePlace (normalizePlace s) = normalizePlace s)
  /\ normalizePlace "Seattle,  WA" = "Seattle, WA"
  /\ normalizePlace "Seattle, WA" = "Seattle, WA"
  /\ (forall s,
        head_ws (normalizePlace s) = false
        /\ single_spaced (normalizePlace s) = true
        /\ comma_spaced (normalizePlace s) = true
        /\ strip_ws (normalizePlace s) = strip_ws s)
  /\ (forall s, normalizePlace s = normalize_scan Fresh s)
  /\ normalizePlace "  Seattle  " = "Seattle"
  /\ normalizePlace "New  York" = "New York"
  /\ normalizePlace "Seattle ,WA" = "Seattle, WA"
  /\ normalizePlace ("New" ++ String (ascii_of_nat 9) (String (ascii_of_nat 10) "York")
                       ++ String (ascii_of_nat 9) " ,  ny ")
     = "New York, ny"
  /\ normalizePlace "Seattle," = "Seattle, ".
Proof.
  split; [|split; [reflexivity|split; [reflexivity|split]]].
  - intros s. destruct (normalizePlace_normal s) as [Hh Hn].
    now apply normalizePlace_fixed.
  - intros s. destruct (normalizePlace_normal s) as [Hh Hn].
    repeat split.
    + exact Hh.
    + now apply normal_single_spaced.
    + now apply normal_comma_spaced.
    + apply strip_normalizePlace.
  - split; [exact normalizePlace_scan|]. repeat split.
Qed.

(** C7. [maybeAppendUS] works on the comma-separated pieces of its input,
    trimmed and with the empty ones dropped: the pieces are the strings
    without a comma whose join by commas is the input, and the parts are,
    in order, the pieces that are not made of white space only, each
    without the white space at its two ends (a part neither starts nor
    ends with white space and is not empty).  With exactly two such parts,
    the second made of two letters, the result is the first part, the
    second in upper case (the same letters, all capitals) and "US", joined
    by ", "; in every other case the input is returned as it is.
    "Austin, TX" gives "Austin, TX, US" and "Paris, France" is unchanged;
    white space around the parts and empty pieces do not count. *)
Theorem maybeAppendUS_spec :
  (forall q,
      join "," (split comma q) = q
      /\ Forall (fun p => comma_free p = true) (split comma q)
      /\ parts q = filter truthy (map trim (split comma q))
      /\ Forall2 trimmed_piece
           (filter (fun x => negb (sall is_ws x)) (split comma q)) (parts q))
  /\ (forall q city st,
        parts q = [city; st] ->
        String.length st = 2 -> sall is_alpha st = true ->
        maybeAppendUS q = city ++ ", " ++ toUpperCase st ++ ", US"
        /\ sall is_upper (toUpperCase st) = true
        /\ toLowerCase (toUpperCase st) = toLowerCase st
        /\ String.length (toUpperCase st) = 2)
  /\ (forall q,
        (forall city st,
            parts q = [city; st] ->
            ~ (String.length st = 2 /\ sall is_alpha st = true)) ->
        maybeAppendUS q = q)
  /\ maybeAppendUS "Austin, TX" = "Austin, TX, US"
  /\ maybeAppendUS "Paris, France" = "Paris, France"
  /\ maybeAppendUS " Austin , tx " = "Austin, TX, US"
  /\ maybeAppendUS "Austin,,tx," = "Austin, TX, US"
  /\ maybeAppendUS " , TX" = " , TX"
  /\ maybeAppendUS "Austin, T1" = "Austin, T1"
  /\ maybeAppendUS "Austin, TX, US" = "Austin, TX, US".
Proof.
  split; [|split; [|split; [|repeat split]]].
  - intros q. split; [apply join_split|]. split; [apply split_comma_free|].
    split; [reflexivity|apply parts_pieces].
  - intros q city st Hp Hl Ha. unfold maybeAppendUS. rewrite Hp.
    rewrite (proj2 (two_letters_iff st) (conj Hl Ha)).
    split; [reflexivity|]. split; [now apply toUpperCase_alpha|].
    split; [apply toLowerCase_toUpperCase|].
    destruct st as [|a [|b [|c r]]]; try discriminate Hl. reflexivity.
  - intros q H. unfold maybeAppendUS.
    destruct (parts q) as [|p0 [|p1 [|p2 r]]] eqn:Hp; try reflexivity.
    destruct (two_letters p1) eqn:E; [|reflexivity].
    exfalso. apply (H p0 p1 eq_refl). now apply two_letters_iff.
Qed.

Lemma maybeAppendUS_spec_witness :
  maybeAppendUS " Austin ,, tx " = "Austin" ++ ", " ++ toUpperCase "tx" ++ ", US"
  /\ sall is_upper (toUpperCase "tx") = true
  /\ toLowerCase (toUpperCase "tx") = toLowerCase "tx"
  /\ String.length (toUpperCase "tx") = 2.
Proof.
  apply (proj1 (proj2 maybeAppendUS_spec) " Austin ,, tx " "Austin" "tx");
    reflexivity.
Defined.

(** C8. [dedupeGeo] keeps a match exactly when no earlier match of the
    input has the same [(lat, lon)], and keeps the kept ones in their
    input order: the matches left have pairwise different coordinates, and
    for every input match the first input match with its coordinates is
    among them.  Two matches with the same coordinates that differ
    elsewhere (the case of [name], say) collapse to the first. *)
Theorem dedupeGeo_keeps_first :
  (forall results,
      dedupeGeo results =
        filter_from (fun g i => negb (seen_before (firstn i results) g)) 0 results
      /\ ForallOrdPairs (fun x y => same_coords x y = false) (dedupeGeo results)
      /\ (forall g, In g results ->
            exists g', find (fun x => same_coords x g) results = Some g'
                       /\ In g' (dedupeGeo results)))
  /\ (forall g1 g2, same_coords g1 g2 = true -> dedupeGeo [g1; g2] = [g1])
  /\ dedupeGeo [mkGeo "Springfield" (Some "Illinois") "US" (398 # 10) (-896 # 10);
                mkGeo "SPRINGFIELD" (Some "Illinois") "US" (398 # 10) (-896 # 10);
                mkGeo "Springfield" (Some "Missouri") "US" (372 # 10) (-933 # 10)]
     = [mkGeo "Springfield" (Some "Illinois") "US" (398 # 10) (-896 # 10);
        mkGeo "Springfield" (Some "Missouri") "US" (372 # 10) (-933 # 10)].
Proof.
  split; [|split; [|reflexivity]].
  - intros results. rewrite dedupeGeo_seen. split; [|split].
    + exact (dedupe_seen_firstn results [] results eq_refl).
    + apply dedupe_seen_distinct.
    + intros g Hg. now apply dedupe_seen_first.
  - intros g1 g2 H. rewrite dedupeGeo_seen. simpl.
    unfold seen_before. simpl. now rewrite H.
Qed.

Lemma dedupeGeo_keeps_first_witness :
  dedupeGeo [mkGeo "Paris" None "FR" (4885 # 100) (235 # 100);
             mkGeo "paris" (Some "Ile-de-France") "FR" (977 # 20) (47 # 20)]
  = [mkGeo "Paris" None "FR" (4885 # 100) (235 # 100)].
Proof.
  apply (proj1 (proj2 dedupeGeo_keeps_first)
           (mkGeo "Paris" None "FR" (4885 # 100) (235 # 100))
           (mkGeo "paris" (Some "Ile-de-France") "FR" (977 # 20) (47 # 20))).
  reflexivity.
Defined.

(** C9. The description of a day's summary is the first description, in
    the order of the day's kept points, that no description outnumbers:
    the most frequent one, the first encountered winning a tie.  With two
    kept points of one day and two different descriptions, it is the
    description of the first point.  The day's [pop] is the running
    maximum, from 0, of the probabilities of the day's kept points, a
    point without a numeric probability counting for 0: it bounds every
    contribution and is 0 or one of them. *)
Theorem summary_desc_and_pop :
  (forall labelFromKey items tz days now s,
      In s (summarizeForecast labelFromKey items tz days now) ->
      exists k,
        In k (chosen_keys (build_days tz items) tz days now)
        /\ label s = labelFromKey k
        /\ day_points tz k items <> []
        /\ first_hit (most_frequent (map item_desc (day_points tz k items)))
             (map item_desc (day_points tz k items)) (desc s)
        /\ day_pop s = fold_left Qmax (map item_pop (day_points tz k items)) 0%Q
        /\ (forall it, In it (day_points tz k items) -> (item_pop it <= day_pop s)%Q)
        /\ (day_pop s = 0%Q
            \/ exists it, In it (day_points tz k items) /\ day_pop s = item_pop it))
  /\ (forall it,
        item_pop it = match pop it with Some p => p | None => 0%Q end
        /\ kept it = match item_min it, item_max it with
                     | Some _, Some _ => true
                     | _, _ => false
                     end)
  /\ (forall labelFromKey tz days now p1 p2,
        kept p1 = true -> kept p2 = true ->
        day_of tz p1 = day_of tz p2 ->
        item_desc p1 <> item_desc p2 ->
        (1 <= days)%Z ->
        exists s,
          summarizeForecast labelFromKey [p1; p2] tz days now = [s]
          /\ desc s = item_desc p1).
Proof.
  split; [|split].
  - intros lab items tz days now s H.
    destruct (summary_of_day lab items tz days now s H)
      as [k [Hk [Hl [Hb [Hd Hp]]]]].
    exists k. split; [exact Hk|]. split; [exact Hl|]. split; [exact Hb|].
    destruct (fold_Qmax_le (map item_pop (day_points tz k items)) 0%Q)
      as [_ [Hle Hin]].
    split; [|split; [exact Hp|split]].
    + rewrite Hd. apply top_desc_first.
      intros E. apply map_eq_nil in E. contradiction.
    + intros it Hit. rewrite Hp. apply Hle. now apply in_map.
    + rewrite Hp. destruct Hin as [->|Hin]; [now left|right].
      apply in_map_iff in Hin as [it [E Hit]]. now exists it.
  - intros it. split; reflexivity.
  - apply two_points_one_day.
Qed.

Lemma summary_desc_and_pop_witness :
  exists s,
    summarizeForecast (fun k => k)
      [ sample_point 1704499200 (39 # 1) (42 # 1) "overcast clouds" (1 # 10);
        mkItem 1704510000 (Some (mkMain (Some (38 # 1)%Q) None None))
          (Some [mkWeather (Some "light rain")]) None ]
      0 3 1704484800 = [s]
    /\ desc s = "overcast clouds".
Proof.
  apply (proj2 (proj2 summary_desc_and_pop) (fun k => k) 0%Z 3%Z 1704484800%Z
           (sample_point 1704499200 (39 # 1) (42 # 1) "overcast clouds" (1 # 10))
           (mkItem 1704510000 (Some (mkMain (Some (38 # 1)%Q) None None))
              (Some [mkWeather (Some "light rain")]) None));
    try reflexivity; discriminate.
Defined.

(** C10. When the current-conditions response carries no [timezone], the
    forecast is summarised with an offset of 0 seconds: [getWeather]
    throws nothing and returns the days computed with 0, whatever offset
    the forecast response carries itself.  Both bodies are objects
    ([Some cur], [Some fc]); a body that is [null] is the matter of
    [weatherFor]. *)
Theorem getWeather_offset_fallback :
  forall labelFromKey API_KEY w place q l loc cur fc,
    key_set API_KEY ->
    first_answer w (candidates (normalizePlace place)) q l ->
    resolved_location (normalizePlace place) (dedupeGeo l) loc ->
    answered (current_api w (lat loc) (lon loc)) (Some cur) ->
    answered (forecast_api w (lat loc) (lon loc)) (Some fc) ->
    timezone cur = None ->
    exists location current log',
      getWeather labelFromKey API_KEY w place [] =
        (Value
           (Success location current
              (summarizeForecast labelFromKey (orElse (fc_list fc) []) 0 3 (clock w))),
         log').
Proof.
  intros lab key w place q l loc cur fc Hk Hf Hr Hc Hfc Htz.
  destruct (getWeather_resolved lab key w place q l loc [] Hk Hf Hr) as [log1 E1].
  destruct (weatherFor_answered lab key w loc cur fc log1 Hc Hfc)
    as [location [current [log' E2]]].
  exists location, current, log'. rewrite E1, E2, Htz. reflexivity.
Qed.

Lemma getWeather_offset_fallback_witness :
  exists location current log',
    getWeather (fun k => k) (Some "k") sample_world "Seattle,WA" [] =
      (Value
         (Success location current
            (summarizeForecast (fun k => k) sample_forecast 0 3 1704484800)),
       log').
Proof.
  apply (getWeather_offset_fallback (fun k => k) (Some "k") sample_world "Seattle,WA"
           "Seattle, WA, US" [seattle] seattle
           (mkCurrent (Some (mkCurMain (Some (43 # 1)%Q) (Some (40 # 1)%Q) (Some (81 # 1)%Q)))
              (Some (mkWind (Some (7 # 1)%Q)))
              (Some [mkWeather (Some "light rain")])
              None)
           (mkForecast (Some sample_forecast) (Some (-28800)%Z))).
  - exists "k". split; [reflexivity|discriminate].
  - exists ["Seattle, WA"], []. split; [reflexivity|].
    split; [|split; [now exists 200, None|discriminate]].
    intros q' [<-|[]]. right. now exists 200, None.
  - left. reflexivity.
  - now exists 200, None.
  - now exists 200, None.
  - reflexivity.
Defined.

(** * Further properties *)

(** ** Requests and errors *)

(** X1 ([fetchJson]).  Whatever the answer, exactly one request is sent.
    The parsed body is returned exactly when the response is ok and its
    body parses.  A response that is not ok throws an error whose message
    gives the status and the first 200 characters of the body, or none
    when the body cannot be read; the body is not parsed.  A rejected
    fetch and a body that does not parse are thrown as they are. *)
Theorem fetchJson_outcome :
  forall (A : Type) (req : Request) (answer : Fetched A) (log : list Request),
    snd (fetchJson req answer log) = (log ++ [req])%list
    /\ (forall v, fst (fetchJson req answer log) = Value v <-> answered answer v)
    /\ (forall status text json,
          answer = Resolved (mkResponse false status text json) ->
          exists body rest,
            fst (fetchJson req answer log) =
              Throw (Error ("HTTP " ++ string_of_nat status
                              ++ " calling OpenWeather. " ++ body))
            /\ orElse text EmptyString = body ++ rest
            /\ String.length body
               = Nat.min 200 (String.length (orElse text EmptyString)))
    /\ (answer = Rejected -> fst (fetchJson req answer log) = Throw FetchRejected)
    /\ (forall status text,
          answer = Resolved (mkResponse true status text None) ->
          fst (fetchJson req answer log) = Throw JsonRejected).
Proof.
  intros A req answer log. split; [|split; [|split; [|split]]].
  - destruct answer as [|[[] status text [v|]]]; reflexivity.
  - intros v. split.
    + destruct answer as [|[[] status text [v'|]]]; simpl; try discriminate.
      intros E. injection E as <-. now exists status, text.
    + intros H. now rewrite (fetchJson_answered req answer v log H).
  - intros status text json ->.
    destruct (sslice0_prefix 200 (orElse text EmptyString)) as [rest [E L]].
    exists (sslice0 200 (orElse text EmptyString)), rest.
    split; [reflexivity|]. now split.
  - now intros ->.
  - now intros status text ->.
Qed.

(** X2 ([getWeather], the candidate queries).  The candidates are the
    normalized place, then its "City, ST, US" form when that differs from
    both others, then the normalized place followed by ", US": two or
    three distinct queries, the normalized place first. *)
Theorem candidates_shape :
  forall n,
    candidates n =
      (if String.eqb (maybeAppendUS n) n
          || String.eqb (maybeAppendUS n) (n ++ ", US")
       then [n; n ++ ", US"]
       else [n; maybeAppendUS n; n ++ ", US"])
    /\ NoDup (candidates n)
    /\ 2 <= List.length (candidates n) <= 3.
Proof.
  intros n. split; [apply candidates_closed|].
  split; [apply uniq_NoDup|apply candidates_length].
Qed.



(** X4 ([getWeather]).  A call only appends to the log: lookups for a
    prefix of the candidates, in order and each with limit 5, then at
    most the request for the current conditions followed by the one for
    the forecast of the same coordinates; at most five requests in all.
    With the key set the first request is the lookup of the normalized
    place.  A failure result sends no weather request, a success result
    both. *)
Theorem getWeather_requests :
  forall labelFromKey API_KEY w place log,
    exists qs rest ws,
      candidates (normalizePlace place) = (qs ++ rest)%list
      /\ snd (getWeather labelFromKey API_KEY w place log)
         = (log ++ geo_requests (appid API_KEY) qs ++ ws)%list
      /\ (ws = []
          \/ exists loc,
               ws = [CurrentRequest (lat loc) (lon loc) (appid API_KEY)]
               \/ ws = weather_requests (appid API_KEY) loc)
      /\ List.length qs + List.length ws <= 5
      /\ (key_set API_KEY -> exists qs', qs = normalizePlace place :: qs')
      /\ (forall m,
            fst (getWeather labelFromKey API_KEY w place log) = Value (Failure m) ->
            ws = [])
      /\ (forall location current nextDays,
            fst (getWeather labelFromKey API_KEY w place log)
              = Value (Success location current nextDays) ->
            exists loc, ws = weather_requests (appid API_KEY) loc).
Proof.
  intros labelFromKey API_KEY w place log.
  destruct (key_set_dec API_KEY) as [Hk|Hk].
  - destruct (getWeather_run labelFromKey API_KEY w place log Hk) as [out [reqs [E R]]].
    destruct (run_shape _ _ _ _ _ _ R) as [qs [rest [ws [Hc [Hq [-> Ho]]]]]].
    exists qs, rest, ws. rewrite E. cbn [fst snd].
    split; [exact Hc|]. split; [reflexivity|].
    assert (Hw : ws = []
                 \/ exists loc,
                      ws = [CurrentRequest (lat loc) (lon loc) (appid API_KEY)]
                      \/ ws = weather_requests (appid API_KEY) loc).
    { destruct out as [e|[m|a b c]]; [exact Ho|now left|].
      destruct Ho as [loc ->]. right. exists loc. now right. }
    split; [exact Hw|]. split.
    + pose proof (candidates_length (normalizePlace place)) as Hl.
      rewrite Hc, length_app in Hl.
      destruct Hw as [->|[loc [->| ->]]]; simpl; lia.
    + split; [intros _; now apply candidates_nonempty_prefix with rest|].
      split.
      * intros m Em. now rewrite Em in Ho.
      * intros a b c Es. now rewrite Es in Ho.
  - exists [], (candidates (normalizePlace place)), [].
    rewrite (getWeather_unset labelFromKey API_KEY w place log Hk). cbn [fst snd].
    split; [reflexivity|]. split; [now rewrite app_nil_r|].
    split; [now left|]. split; [simpl; lia|].
    split; [intros H; contradiction|]. split; discriminate.
Qed.



(** The runs with a [null] body, and a failed lookup. *)
Example null_body_runs :
  getWeather (fun k => k) (Some "k") null_current_world "Seattle,WA" [] =
    (Throw TypeError,
     [GeoRequest "Seattle, WA" 5 "k"; GeoRequest "Seattle, WA, US" 5 "k";
      CurrentRequest (lat seattle) (lon seattle) "k";
      ForecastRequest (lat seattle) (lon seattle) "k"])
  /\ getWeather (fun k => k) (Some "k") null_forecast_world "Seattle,WA" [] =
       (Throw TypeError,
        [GeoRequest "Seattle, WA" 5 "k"; GeoRequest "Seattle, WA, US" 5 "k";
         CurrentRequest (lat seattle) (lon seattle) "k";
         ForecastRequest (lat seattle) (lon seattle) "k"])
  /\ getWeather (fun k => k) (Some "k") locked_world "Seattle" [] =
       (Throw (Error "HTTP 401 calling OpenWeather. Invalid API key"),
        [GeoRequest "Seattle" 5 "k"]).
Proof. repeat split. Qed.

(** X6 ([getWeather], the success path).  With the key set, when [q] is
    the first candidate with a non-empty answer, [loc] is the location
    resolved from it and both weather requests are answered with an
    object, the call
    returns the display name "name[, state], country" of [loc], the
    current conditions read with optional chaining (the description
    defaults to "unknown") and the summary of three days at the offset of
    the current conditions; it sends the lookups up to [q], then the
    request for the current conditions, then the one for the forecast. *)
Theorem getWeather_success :
  forall labelFromKey API_KEY w place log before q after l loc cur fc,
    key_set API_KEY ->
    found w (candidates (normalizePlace place)) before q after l ->
    resolved_location (normalizePlace place) (dedupeGeo l) loc ->
    answered (current_api w (lat loc) (lon loc)) (Some cur) ->
    answered (forecast_api w (lat loc) (lon loc)) (Some fc) ->
    getWeather labelFromKey API_KEY w place log =
      (Value
         (Success
            (name loc ++ state_suffix loc ++ ", " ++ country loc)
            (mkSnapshot
               (match cur_main cur with Some m => cur_temp m | None => None end)
               (match cur_main cur with Some m => feels_like m | None => None end)
               (match cur_main cur with Some m => humidity m | None => None end)
               (match cur_wind cur with Some x => speed x | None => None end)
               (match cur_weather cur with
                | Some (x :: _) => orElse (description x) "unknown"
                | _ => "unknown"
                end))
            (summarizeForecast labelFromKey (orElse (fc_list fc) [])
               (orElse (timezone cur) 0%Z) 3 (clock w))),
       (log ++ geo_requests (appid API_KEY) (before ++ [q])
            ++ [CurrentRequest (lat loc) (lon loc) (appid API_KEY);
                ForecastRequest (lat loc) (lon loc) (appid API_KEY)])%list).
Proof.
  intros labelFromKey API_KEY w place log before q after l loc cur fc Hk Hf Hr Hc Hfc.
  rewrite (getWeather_found labelFromKey API_KEY w place before q after l loc log Hk Hf Hr).
  unfold weatherFor.
  rewrite (bind_value _ _ _ _ _ (fetchJson_answered _ _ _ _ Hc)).
  rewrite (bind_value _ _ _ _ _ (fetchJson_answered _ _ _ _ Hfc)).
  unfold ret. now rewrite <- !app_assoc.
Qed.

Lemma getWeather_success_witness :
  getWeather (fun k => k) (Some "k") sample_world "Seattle,WA" [] =
    (Value
       (Success "Seattle, Washington, US"
          (mkSnapshot (Some (43 # 1)%Q) (Some (40 # 1)%Q) (Some (81 # 1)%Q)
             (Some (7 # 1)%Q) "light rain")
          (summarizeForecast (fun k => k) sample_forecast 0 3 1704484800)),
     [GeoRequest "Seattle, WA" 5 "k"; GeoRequest "Seattle, WA, US" 5 "k";
      CurrentRequest (lat seattle) (lon seattle) "k";
      ForecastRequest (lat seattle) (lon seattle) "k"]).
Proof.
  apply (getWeather_success (fun k => k) (Some "k") sample_world "Seattle,WA" []
           ["Seattle, WA"] "Seattle, WA, US" [] [seattle] seattle
           (mkCurrent (Some (mkCurMain (Some (43 # 1)%Q) (Some (40 # 1)%Q) (Some (81 # 1)%Q)))
              (Some (mkWind (Some (7 # 1)%Q)))
              (Some [mkWeather (Some "light rain")])
              None)
           (mkForecast (Some sample_forecast) (Some (-28800)%Z))).
  - exists "k". split; [reflexivity|discriminate].
  - split; [reflexivity|]. split.
    + intros q' [<-|[]]. right. exists 200, None. reflexivity.
    + split; [exists 200, None; reflexivity|discriminate].
  - left. reflexivity.
  - exists 200, None. reflexivity.
  - exists 200, None. reflexivity.
Defined.

(** X7 ([getWeather], the lookup loop).  A lookup that fails is not
    retried with the next candidate: when the candidates before [q] find
    nothing and the lookup of [q] makes [fetchJson] throw, the call throws
    the same error after exactly these lookups. *)
Theorem getWeather_lookup_failure :
  forall labelFromKey API_KEY w place log before q after e,
    key_set API_KEY ->
    candidates (normalizePlace place) = (before ++ q :: after)%list ->
    (forall q', In q' before -> geo_nothing w q') ->
    fails (geo_api w q) e ->
    getWeather labelFromKey API_KEY w place log =
      (Throw e, (log ++ geo_requests (appid API_KEY) (before ++ [q]))%list).
Proof.
  intros labelFromKey API_KEY w place log before q after e Hk Hc Hb He.
  rewrite (getWeather_set labelFromKey API_KEY w place log Hk), Hc.
  now rewrite (bind_throw _ _ _ _ _ (geocode_failed API_KEY w before q after e log Hb He)).
Qed.

Lemma getWeather_lookup_failure_witness :
  getWeather (fun k => k) (Some "k") locked_world "Seattle" [] =
    (Throw (Error "HTTP 401 calling OpenWeather. Invalid API key"),
     [GeoRequest "Seattle" 5 "k"]).
Proof.
  apply (getWeather_lookup_failure (fun k => k) (Some "k") locked_world "Seattle" []
           [] "Seattle" ["Seattle, US"]
           (Error "HTTP 401 calling OpenWeather. Invalid API key")).
  - exists "k". split; [reflexivity|discriminate].
  - reflexivity.
  - intros q' [].
  - intros req log. reflexivity.
Defined.

(** X8 ([getWeather], the weather requests).  Once a location is resolved,
    a failure of the request for the current conditions is thrown before
    any forecast is requested, and a failure of the request for the
    forecast is thrown after both requests; no result is returned. *)
Theorem getWeather_weather_failure :
  forall labelFromKey API_KEY w place log before q after l loc e,
    key_set API_KEY ->
    found w (candidates (normalizePlace place)) before q after l ->
    resolved_location (normalizePlace place) (dedupeGeo l) loc ->
    (fails (current_api w (lat loc) (lon loc)) e ->
     getWeather labelFromKey API_KEY w place log =
       (Throw e,
        (log ++ geo_requests (appid API_KEY) (before ++ [q])
             ++ [CurrentRequest (lat loc) (lon loc) (appid API_KEY)])%list))
    /\ (forall cur,
          answered (current_api w (lat loc) (lon loc)) cur ->
          fails (forecast_api w (lat loc) (lon loc)) e ->
          getWeather labelFromKey API_KEY w place log =
            (Throw e,
             (log ++ geo_requests (appid API_KEY) (before ++ [q])
                  ++ [CurrentRequest (lat loc) (lon loc) (appid API_KEY);
                      ForecastRequest (lat loc) (lon loc) (appid API_KEY)])%list)).
Proof.
  intros labelFromKey API_KEY w place log before q after l loc e Hk Hf Hr.
  rewrite (getWeather_found labelFromKey API_KEY w place before q after l loc log Hk Hf Hr).
  unfold weatherFor. split.
  - intros He. rewrite (bind_throw _ _ _ _ _ (He _ _)). now rewrite <- !app_assoc.
  - intros cur Hc He.
    rewrite (bind_value _ _ _ _ _ (fetchJson_answered _ _ _ _ Hc)).
    rewrite (bind_throw _ _ _ _ _ (He _ _)). now rewrite <- !app_assoc.
Qed.

Lemma getWeather_weather_failure_witness :
  getWeather (fun k => k) (Some "k") no_weather_world "Seattle,WA" [] =
    (Throw FetchRejected,
     [GeoRequest "Seattle, WA" 5 "k"; GeoRequest "Seattle, WA, US" 5 "k";
      CurrentRequest (lat seattle) (lon seattle) "k"]).
Proof.
  apply (getWeather_weather_failure (fun k => k) (Some "k") no_weather_world
           "Seattle,WA" [] ["Seattle, WA"] "Seattle, WA, US" [] [seattle] seattle
           FetchRejected).
  - exists "k". split; [reflexivity|discriminate].
  - split; [reflexivity|]. split.
    + intros q' [<-|[]]. right. exists 200, None. reflexivity.
    + split; [exists 200, None; reflexivity|discriminate].
  - left. reflexivity.
  - intros req log. reflexivity.
Defined.

(** ** The place as typed *)

(** X9 ([getWeather], the specificity test).  A place that contains a
    comma, or whose normalized form passes the specificity test, never
    gets the list of options: the only failure result it can get is the
    one for a place that was not found. *)
Theorem getWeather_specific_not_ambiguous :
  forall labelFromKey API_KEY w place log m,
    includes place "," = true \/ seemsSpecific (normalizePlace place) = true ->
    fst (getWeather labelFromKey API_KEY w place log) = Value (Failure m) ->
    m = not_found_message place.
Proof.
  intros labelFromKey API_KEY w place log m Hs H.
  assert (Hs' : seemsSpecific (normalizePlace place) = true).
  { destruct Hs as [Hs|Hs]; [now apply seemsSpecific_comma|exact Hs]. }
  destruct (key_set_dec API_KEY) as [Hk|Hk].
  - destruct (getWeather_run labelFromKey API_KEY w place log Hk) as [out [reqs [E R]]].
    rewrite E in H. cbn [fst] in H. subst out.
    destruct (run_failure _ _ _ _ _ _ R) as [->|[Hn _]]; [reflexivity|congruence].
  - rewrite (getWeather_unset labelFromKey API_KEY w place log Hk) in H. discriminate.
Qed.

Lemma getWeather_specific_not_ambiguous_witness :
  includes "Atlantis, XX" "," = true
  /\ exists m,
       fst (getWeather (fun k => k) (Some "k") sample_world "Atlantis, XX" [])
         = Value (Failure m)
       /\ m = not_found_message "Atlantis, XX".
Proof.
  split; [reflexivity|]. eexists. split; [reflexivity|].
  apply (getWeather_specific_not_ambiguous (fun k => k) (Some "k") sample_world
           "Atlantis, XX" []).
  - left. reflexivity.
  - reflexivity.
Defined.

(** X10 ([getWeather], the specificity test).  A place made of letters
    only passes the test exactly when it is "us", in any letter case, or
    contains "usa", in any letter case and also inside the word: "usa" is
    looked for without word boundaries, "us" with them. *)
Theorem seemsSpecific_one_word :
  forall n,
    sall is_alpha n = true ->
    (seemsSpecific n = true <-> toUpperCase n = "US" \/ contains_ci n "usa").
Proof.
  intros n H. now apply one_word_specific.
Qed.

Lemma seemsSpecific_one_word_witness :
  seemsSpecific "Jerusalem" = true
  <-> toUpperCase "Jerusalem" = "US" \/ contains_ci "Jerusalem" "usa".
Proof.
  apply (seemsSpecific_one_word "Jerusalem"). reflexivity.
Defined.

(** X11 ([getWeather], a blank place).  A place made of white space only
    is not rejected: it normalizes to the empty string, its candidates
    are the empty query and ", US", and with the key set the call starts
    with a lookup of the empty query. *)
Theorem getWeather_blank_place :
  forall place,
    sall is_ws place = true ->
    normalizePlace place = EmptyString
    /\ candidates (normalizePlace place) = [EmptyString; ", US"]
    /\ (forall labelFromKey API_KEY w log,
          key_set API_KEY ->
          exists rest,
            snd (getWeather labelFromKey API_KEY w place log) =
              (log ++ GeoRequest EmptyString 5 (appid API_KEY) :: rest)%list).
Proof.
  intros place Hb.
  pose proof (proj2 (normalizePlace_blank place) Hb) as En.
  split; [exact En|]. split; [now rewrite En|].
  intros labelFromKey API_KEY w log Hk.
  destruct (getWeather_run labelFromKey API_KEY w place log Hk) as [out [reqs [E R]]].
  destruct (run_shape _ _ _ _ _ _ R) as [qs [rest [ws [Hc [Hq [-> _]]]]]].
  destruct (candidates_nonempty_prefix _ _ _ Hc Hq) as [qs' ->].
  rewrite E, En. cbn [snd]. now eexists.
Qed.

Lemma getWeather_blank_place_witness :
  normalizePlace "  " = EmptyString
  /\ candidates (normalizePlace "  ") = [EmptyString; ", US"]
  /\ (forall labelFromKey API_KEY w log,
        key_set API_KEY ->
        exists rest,
          snd (getWeather labelFromKey API_KEY w "  " log) =
            (log ++ GeoRequest EmptyString 5 (appid API_KEY) :: rest)%list).
Proof.
  apply (getWeather_blank_place "  "). reflexivity.
Defined.

(** X12 ([getWeather], the normalized place).  A call depends on the
    place through its normalized form only, up to the place quoted in a
    failure message: two places with the same normalized form send the
    same requests and throw the same error or return the same weather,
    or both get the not-found message, or both get the options for the
    same matches, each message quoting its place as typed. *)
Theorem getWeather_normalized_only :
  forall labelFromKey API_KEY w place1 place2 log,
    normalizePlace place1 = normalizePlace place2 ->
    snd (getWeather labelFromKey API_KEY w place1 log)
    = snd (getWeather labelFromKey API_KEY w place2 log)
    /\ match fst (getWeather labelFromKey API_KEY w place1 log),
             fst (getWeather labelFromKey API_KEY w place2 log) with
       | Value (Failure m1), Value (Failure m2) =>
           (m1 = not_found_message place1 /\ m2 = not_found_message place2)
           \/ exists geo,
                m1 = ambiguous_message place1 geo
                /\ m2 = ambiguous_message place2 geo
       | out1, out2 => out1 = out2
       end.
Proof.
  intros labelFromKey API_KEY w place1 place2 log E.
  destruct (key_set_dec API_KEY) as [Hk|Hk].
  - rewrite !(getWeather_set labelFromKey API_KEY w _ log Hk), <- E.
    unfold bind.
    assert (Hw : forall loc log',
               snd (weatherFor labelFromKey API_KEY w loc log')
               = snd (weatherFor labelFromKey API_KEY w loc log')
               /\ match fst (weatherFor labelFromKey API_KEY w loc log'),
                        fst (weatherFor labelFromKey API_KEY w loc log') with
                  | Value (Failure m1), Value (Failure m2) =>
                      (m1 = not_found_message place1 /\ m2 = not_found_message place2)
                      \/ exists geo,
                           m1 = ambiguous_message place1 geo
                           /\ m2 = ambiguous_message place2 geo
                  | out1, out2 => out1 = out2
                  end).
    { intros loc log'. split; [reflexivity|].
      destruct (weatherFor labelFromKey API_KEY w loc log')
        as [[e|[m|a b c]] log''] eqn:Ew; cbn [fst]; try reflexivity.
      exfalso. exact (weatherFor_no_failure _ _ _ _ _ _ _ Ew). }
    destruct (geocode API_KEY w (candidates (normalizePlace place1)) log)
      as [[e|[[|g1 [|g2 r]]|]] log'].
    + now split.
    + cbn [ret fst snd]. split; [reflexivity|]. left. now split.
    + apply Hw.
    + destruct (seemsSpecific (normalizePlace place1)).
      * destruct (pickBestGeoMatch (normalizePlace place1) (g1 :: g2 :: r)) as [loc|];
          [apply Hw|now split].
      * cbn [ret fst snd]. split; [reflexivity|]. right. now eexists.
    + cbn [ret fst snd]. split; [reflexivity|]. left. now split.
  - rewrite !(getWeather_unset labelFromKey API_KEY w _ log Hk). now split.
Qed.

Lemma getWeather_normalized_only_witness :
  snd (getWeather (fun k => k) (Some "k") sample_world "Seattle,WA" [])
  = snd (getWeather (fun k => k) (Some "k") sample_world "  Seattle ,  WA " [])
  /\ fst (getWeather (fun k => k) (Some "k") sample_world "Seattle,WA" [])
     = fst (getWeather (fun k => k) (Some "k") sample_world "  Seattle ,  WA " []).
Proof.
  apply (getWeather_normalized_only (fun k => k) (Some "k") sample_world
           "Seattle,WA" "  Seattle ,  WA " []).
  reflexivity.
Defined.

(** ** Matches *)

(** X13 ([dedupeGeo]).  A list in which no two matches share their
    coordinates is returned unchanged, deduplicating twice is the same as
    deduplicating once, and a list whose matches all have the coordinates
    of the first is reduced to the first. *)
Theorem dedupeGeo_idempotent :
  (forall results, distinct_coords results -> dedupeGeo results = results)
  /\ (forall results, dedupeGeo (dedupeGeo results) = dedupeGeo results)
  /\ (forall g results,
        Forall (fun x => same_coords g x = true) results ->
        dedupeGeo (g :: results) = [g]).
Proof.
  assert (H : forall results, distinct_coords results -> dedupeGeo results = results).
  { intros results Hd. rewrite dedupeGeo_seen.
    apply dedupe_seen_fixed; [exact Hd|reflexivity]. }
  split; [exact H|]. split.
  - intros results. apply H. rewrite dedupeGeo_seen. apply dedupe_seen_distinct.
  - intros g results Hs. rewrite dedupeGeo_seen. simpl. f_equal.
    apply dedupe_seen_all_seen. rewrite Forall_forall in Hs.
    intros x Hx. simpl. now rewrite (Hs x Hx).
Qed.

(** X14 ([dedupeGeo]).  Deduplication only leaves matches out: the result
    keeps the order of the geocoder, starts with the same match, and is
    empty only for the empty list. *)
Theorem dedupeGeo_subsequence :
  forall results,
    subseq (dedupeGeo results) results
    /\ hd_error (dedupeGeo results) = hd_error results
    /\ (dedupeGeo results = [] <-> results = [])
    /\ List.length (dedupeGeo results) <= List.length results
    /\ (forall g, In g (dedupeGeo results) -> In g results).
Proof.
  intros results.
  assert (Hs : subseq (dedupeGeo results) results).
  { rewrite dedupeGeo_seen. apply dedupe_seen_subseq. }
  split; [exact Hs|].
  assert (Hh : hd_error (dedupeGeo results) = hd_error results).
  { destruct results as [|x l]; [reflexivity|].
    destruct (dedupeGeo_cons x l) as [r ->]. reflexivity. }
  split; [exact Hh|]. split.
  - split; intros E.
    + rewrite E in Hh. destruct results; [reflexivity|discriminate].
    + now rewrite E.
  - split; [now apply subseq_length|].
    intros g. now apply subseq_In.
Qed.

(** X15 ([pickBestGeoMatch]).  The choice does not depend on the letter
    case of the query: two queries with the same lower-case form get the
    same match. *)
Theorem pickBestGeoMatch_case_insensitive :
  forall query1 query2 geoResults,
    toLowerCase query1 = toLowerCase query2 ->
    pickBestGeoMatch query1 geoResults = pickBestGeoMatch query2 geoResults.
Proof.
  intros query1 query2 geoResults E.
  now rewrite <- (pickBest_lower query1), <- (pickBest_lower query2), E.
Qed.

Lemma pickBestGeoMatch_case_insensitive_witness :
  pickBestGeoMatch "SPRINGFIELD, Missouri" [springfield_il; springfield_mo]
  = pickBestGeoMatch "springfield, MISSOURI" [springfield_il; springfield_mo].
Proof.
  apply (pickBestGeoMatch_case_insensitive "SPRINGFIELD, Missouri"
           "springfield, MISSOURI" [springfield_il; springfield_mo]).
  reflexivity.
Defined.

(** ** Queries *)

(** X16 ([maybeAppendUS]).  A rewritten query has exactly the three parts
    city, upper-case state and "US"; so rewriting twice is the same as
    rewriting once. *)
Theorem maybeAppendUS_idempotent :
  (forall q city st,
      parts q = [city; st] -> two_letters st = true ->
      parts (maybeAppendUS q) = [city; toUpperCase st; "US"])
  /\ (forall q, maybeAppendUS (maybeAppendUS q) = maybeAppendUS q).
Proof.
  assert (H : forall q city st,
             parts q = [city; st] -> two_letters st = true ->
             maybeAppendUS q = city ++ ", " ++ toUpperCase st ++ ", US").
  { intros q city st Hp Ht. unfold maybeAppendUS. now rewrite Hp, Ht. }
  split.
  - intros q city st Hp Ht. rewrite (H q city st Hp Ht).
    now apply parts_appended with q.
  - intros q.
    destruct (parts q) as [|city [|st [|x r]]] eqn:Hp;
      try (assert (E : maybeAppendUS q = q)
             by (unfold maybeAppendUS; now rewrite Hp);
           now rewrite !E).
    destruct (two_letters st) eqn:Ht.
    + rewrite (H q city st Hp Ht). unfold maybeAppendUS.
      now rewrite (parts_appended q city st Hp Ht).
    + assert (E : maybeAppendUS q = q)
        by (unfold maybeAppendUS; now rewrite Hp, Ht).
      now rewrite !E.
Qed.

(** X17 ([normalizePlace]).  The normalized place is the input cut at its
    commas, each piece trimmed and with every run of white space inside
    turned into one space, the pieces joined by a comma and a space.  So
    the result ends with a space when the input ends with a comma. *)
Theorem normalizePlace_pieces :
  (forall input,
      normalizePlace input
      = join ", " (map (fun p => collapse_spaces (trim p)) (split comma input)))
  /\ (forall input,
        normalizePlace (input ++ ",") = normalizePlace input ++ ", ").
Proof.
  assert (H : forall input,
             normalizePlace input = join ", " (map tidy (split comma input))).
  { intros input. rewrite <- (join_split input) at 1.
    apply normalizePlace_join; [apply split_nonempty|apply split_comma_free]. }
  split; [exact H|].
  intros input. rewrite !H, split_snoc_comma, map_app.
  apply join_snoc_empty.
  destruct (split comma input) eqn:E; [now apply split_nonempty in E|discriminate].
Qed.

(** X18 ([normalizePlace] with the parts read by [maybeAppendUS] and
    [pickBestGeoMatch]).  Normalizing a place keeps its non-empty
    comma-separated parts, in order, up to the runs of white space inside
    a part, which become one space. *)
Theorem normalizePlace_parts :
  forall input,
    parts (normalizePlace input) = map collapse_spaces (parts input)
    /\ List.length (parts (normalizePlace input)) = List.length (parts input).
Proof.
  intros input. rewrite parts_normalizePlace. split; [reflexivity|apply length_map].
Qed.

(** ** Days *)

(** X19 ([dayKeyFromUtcWithOffset]).  Within the years 1000 to 9999 two
    instants get the same key exactly when, shifted by the offset, they
    fall on the same day, a day being 86400 seconds counted from the
    epoch; the key only depends on the sum of the instant and the
    offset. *)
Theorem dayKey_same_day_iff :
  forall t1 t2 tz,
    four_digit_year (t1 + tz)%Z -> four_digit_year (t2 + tz)%Z ->
    (dayKeyFromUtcWithOffset t1 tz = dayKeyFromUtcWithOffset t2 tz
     <-> exists d,
           (86400 * d <= t1 + tz < 86400 * (d + 1))%Z
           /\ (86400 * d <= t2 + tz < 86400 * (d + 1))%Z)
    /\ dayKeyFromUtcWithOffset t1 tz = dayKeyFromUtcWithOffset (t1 + tz) 0.
Proof.
  intros t1 t2 tz H1 H2. split.
  - rewrite (dayKey_same_day t1 t2 tz H1 H2). unfold day_number. split.
    + intros E. exists ((t1 + tz) / 86400)%Z. split; [|rewrite E];
        match goal with
        | |- (_ <= ?x < _)%Z =>
            pose proof (Z.mul_div_le x 86400 ltac:(lia));
            pose proof (Z.mul_succ_div_gt x 86400 ltac:(lia)); lia
        end.
    + intros [d [D1 D2]].
      assert (E1 : ((t1 + tz) / 86400 = d)%Z).
      { symmetry. apply Z.div_unique with (t1 + tz - 86400 * d)%Z; lia. }
      assert (E2 : ((t2 + tz) / 86400 = d)%Z).
      { symmetry. apply Z.div_unique with (t2 + tz - 86400 * d)%Z; lia. }
      now rewrite E1, E2.
  - unfold dayKeyFromUtcWithOffset. now rewrite Z.add_0_r.
Qed.

Lemma dayKey_same_day_iff_witness :
  (dayKeyFromUtcWithOffset 1704495600 3600 = dayKeyFromUtcWithOffset 1704499200 3600
   <-> exists d,
         (86400 * d <= 1704495600 + 3600 < 86400 * (d + 1))%Z
         /\ (86400 * d <= 1704499200 + 3600 < 86400 * (d + 1))%Z)
  /\ dayKeyFromUtcWithOffset 1704495600 3600
     = dayKeyFromUtcWithOffset (1704495600 + 3600) 0.
Proof.
  apply (dayKey_same_day_iff 1704495600 1704499200 3600);
    unfold four_digit_year; lia.
Defined.

(** X20 ([dayKeyFromUtcWithOffset]).  Within the years 1000 to 9999 the
    key has the form YYYY-MM-DD: ten characters, made of the year in four
    characters, the month from 01 to 12 and the day from 01 to 31 in two
    characters each, with a dash between them. *)
Theorem dayKey_format :
  forall dtSeconds tz,
    four_digit_year (dtSeconds + tz)%Z ->
    exists y m d,
      civil_from_days (day_number (dtSeconds + tz)) = (y, m, d)
      /\ (1000 <= y <= 9999 /\ 1 <= m <= 12 /\ 1 <= d <= 31)%Z
      /\ dayKeyFromUtcWithOffset dtSeconds tz
         = string_of_Z y ++ "-" ++ padStart2 (string_of_Z m) ++ "-"
             ++ padStart2 (string_of_Z d)
      /\ String.length (string_of_Z y) = 4
      /\ String.length (padStart2 (string_of_Z m)) = 2
      /\ String.length (padStart2 (string_of_Z d)) = 2
      /\ String.length (dayKeyFromUtcWithOffset dtSeconds tz) = 10.
Proof.
  intros dtSeconds tz H.
  destruct (dayKey_day_key dtSeconds tz H) as [E B].
  destruct (civil_from_days (day_number (dtSeconds + tz))) as [[y m] d] eqn:Ec.
  destruct (civil_four_digits _ _ _ _ B Ec) as [Hy [Hm Hd]].
  exists y, m, d. split; [reflexivity|].
  split; [split; [exact Hy|split; [exact Hm|exact Hd]]|].
  assert (Ek : dayKeyFromUtcWithOffset dtSeconds tz
               = string_of_Z y ++ "-" ++ padStart2 (string_of_Z m) ++ "-"
                   ++ padStart2 (string_of_Z d)).
  { rewrite E. unfold day_key. now rewrite Ec. }
  split; [exact Ek|].
  pose proof (year_length y Hy) as Ly.
  pose proof (pad_length m ltac:(lia)) as Lm.
  pose proof (pad_length d Hd) as Ld.
  repeat split; try assumption.
  rewrite Ek, !sapp_length, Ly, Lm, Ld. reflexivity.
Qed.

Lemma dayKey_format_witness :
  exists y m d,
    civil_from_days (day_number (1709164800 + 0)) = (y, m, d)
    /\ (1000 <= y <= 9999 /\ 1 <= m <= 12 /\ 1 <= d <= 31)%Z
    /\ dayKeyFromUtcWithOffset 1709164800 0
       = string_of_Z y ++ "-" ++ padStart2 (string_of_Z m) ++ "-"
           ++ padStart2 (string_of_Z d)
    /\ String.length (string_of_Z y) = 4
    /\ String.length (padStart2 (string_of_Z m)) = 2
    /\ String.length (padStart2 (string_of_Z d)) = 2
    /\ String.length (dayKeyFromUtcWithOffset 1709164800 0) = 10.
Proof.
  apply (dayKey_format 1709164800 0). unfold four_digit_year. lia.
Defined.

(** ** Forecast summaries *)

(** X21 ([summarizeForecast], the temperatures).  The lowest temperature
    of a summary is the least of the minima of the points kept for its
    day, and its highest temperature the greatest of their maxima, each
    minimum and maximum falling back to the temperature of the point:
    they bound every point of the day and each is reached by one of
    them. *)
Theorem summary_min_max :
  forall labelFromKey items tz days now s,
    In s (summarizeForecast labelFromKey items tz days now) ->
    exists k,
      In k (chosen_keys (build_days tz items) tz days now)
      /\ label s = labelFromKey k
      /\ (forall it,
            In it (day_points tz k items) ->
            exists mn mx,
              item_min it = Some mn /\ item_max it = Some mx
              /\ (day_min s <= mn)%Q /\ (mx <= day_max s)%Q)
      /\ (exists it, In it (day_points tz k items) /\ item_min it = Some (day_min s))
      /\ (exists it, In it (day_points tz k items) /\ item_max it = Some (day_max s)).
Proof.
  intros labelFromKey items tz days now s H.
  destruct (summary_min_max_of_day _ _ _ _ _ _ H) as [k [p [r [Hk [Hl [Ed [Em Ex]]]]]]].
  exists k. split; [exact Hk|]. split; [exact Hl|].
  pose proof (day_points_Forall tz k items) as Hf. rewrite Ed in *.
  rewrite Forall_forall in Hf.
  destruct (fold_Qmin_le (map min_of r) (min_of p)) as [M1 [M2 M3]].
  destruct (fold_Qmax_le (map max_of r) (max_of p)) as [X1 [X2 X3]].
  rewrite <- Em in M1, M2, M3. rewrite <- Ex in X1, X2, X3.
  split; [|split].
  - intros it Hit. destruct (kept_min_max it (Hf it Hit)) as [E1 E2].
    exists (min_of it), (max_of it). split; [exact E1|]. split; [exact E2|].
    destruct Hit as [<-|Hit]; [now split|].
    split; [apply M2|apply X2]; now apply in_map.
  - destruct M3 as [M3|M3].
    + exists p. split; [now left|]. rewrite M3. apply kept_min_max, Hf. now left.
    + apply in_map_iff in M3 as [it [E Hit]]. exists it. split; [now right|].
      rewrite <- E. apply kept_min_max, Hf. now right.
  - destruct X3 as [X3|X3].
    + exists p. split; [now left|]. rewrite X3. apply kept_min_max, Hf. now left.
    + apply in_map_iff in X3 as [it [E Hit]]. exists it. split; [now right|].
      rewrite <- E. apply kept_min_max, Hf. now right.
Qed.

Lemma summary_min_max_witness :
  exists k,
    In k (chosen_keys (build_days 0 sample_forecast) 0 3 1704484800)
    /\ label (mkDay "2024-01-06" (38 # 1) (42 # 1) "overcast clouds" (3 # 10)) = k
    /\ (forall it,
          In it (day_points 0 k sample_forecast) ->
          exists mn mx,
            item_min it = Some mn /\ item_max it = Some mx
            /\ (day_min (mkDay "2024-01-06" (38 # 1) (42 # 1) "overcast clouds" (3 # 10))
                <= mn)%Q
            /\ (mx <= day_max (mkDay "2024-01-06" (38 # 1) (42 # 1) "overcast clouds"
                                 (3 # 10)))%Q)
    /\ (exists it,
          In it (day_points 0 k sample_forecast)
          /\ item_min it
             = Some (day_min (mkDay "2024-01-06" (38 # 1) (42 # 1) "overcast clouds"
                                (3 # 10))))
    /\ (exists it,
          In it (day_points 0 k sample_forecast)
          /\ item_max it
             = Some (day_max (mkDay "2024-01-06" (38 # 1) (42 # 1) "overcast clouds"
                                (3 # 10)))).
Proof.
  apply (summary_min_max (fun k => k) sample_forecast 0 3 1704484800
           (mkDay "2024-01-06" (38 # 1) (42 # 1) "overcast clouds" (3 # 10))).
  vm_compute. left. reflexivity.
Defined.

(** X22 ([summarizeForecast], the temperatures).  When no kept point has a
    minimum above its maximum, no summary has a lowest temperature above
    its highest. *)
Theorem summary_min_le_max :
  forall labelFromKey items tz days now,
    (forall it mn mx,
        In it items -> item_min it = Some mn -> item_max it = Some mx ->
        (mn <= mx)%Q) ->
    Forall (fun s => (day_min s <= day_max s)%Q)
      (summarizeForecast labelFromKey items tz days now).
Proof.
  intros labelFromKey items tz days now Hle. apply Forall_forall. intros s H.
  destruct (summary_min_max_of_day _ _ _ _ _ _ H) as [k [p [r [_ [_ [Ed [Em Ex]]]]]]].
  assert (Hp : In p (day_points tz k items)) by (rewrite Ed; now left).
  apply day_points_kept in Hp as [Hk [_ Hi]].
  destruct (kept_min_max p Hk) as [E1 E2].
  destruct (fold_Qmin_le (map min_of r) (min_of p)) as [M1 _].
  destruct (fold_Qmax_le (map max_of r) (max_of p)) as [X1 _].
  rewrite Em, Ex.
  eapply Qle_trans; [exact M1|]. eapply Qle_trans; [|exact X1].
  now apply (Hle p).
Qed.

Lemma summary_min_le_max_witness :
  Forall (fun s => (day_min s <= day_max s)%Q)
    (summarizeForecast (fun k => k) sample_forecast 0 3 1704484800).
Proof.
  apply (summary_min_le_max (fun k => k) sample_forecast 0 3 1704484800).
  intros it mn mx [<-|[<-|[<-|[<-|[]]]]] E1 E2;
    injection E1 as <-; injection E2 as <-; discriminate.
Defined.

(** X23 ([summarizeForecast], the order of the points).  The summaries
    only depend on the points day by day: two lists whose kept points
    agree, in order, on every day give the same summaries, however the
    days are interleaved. *)
Theorem summarizeForecast_by_day :
  forall labelFromKey items1 items2 tz days now,
    (forall k, day_points tz k items1 = day_points tz k items2) ->
    summarizeForecast labelFromKey items1 tz days now
    = summarizeForecast labelFromKey items2 tz days now.
Proof.
  intros labelFromKey items1 items2 tz days now H.
  assert (Hkeys : forall k,
             In k (map_keys (build_days tz items1))
             <-> In k (map_keys (build_days tz items2))).
  { intros k. now rewrite !build_has_bucket, H. }
  apply summarize_same; [|intros k _; apply H].
  intros k. rewrite !remaining_In, Hkeys. split.
  - intros [Hk [Hn|Ha]]; (split; [exact Hk|]); [now left|].
    right. intros k' Hk'. now apply Ha, Hkeys.
  - intros [Hk [Hn|Ha]]; (split; [exact Hk|]); [now left|].
    right. intros k' Hk'. now apply Ha, Hkeys.
Qed.

Lemma summarizeForecast_by_day_witness :
  summarizeForecast (fun k => k) interleaved_a 0 3 1704484800
  = summarizeForecast (fun k => k) interleaved_b 0 3 1704484800.
Proof.
  apply (summarizeForecast_by_day (fun k => k) interleaved_a interleaved_b
           0 3 1704484800).
  intros k. unfold day_points, interleaved_a, interleaved_b. cbn [filter].
  change (day_of 0 (sample_point 1704499200 (39 # 1) (42 # 1) "overcast clouds" (1 # 10)))
    with "2024-01-06".
  change (day_of 0 (sample_point 1704510000 (38 # 1) (40 # 1) "light rain" (3 # 10)))
    with "2024-01-06".
  change (day_of 0 (sample_point 1704585600 (36 # 1) (45 # 1) "clear sky" (0 # 1)))
    with "2024-01-07".
  destruct (String.eqb_spec "2024-01-06" k) as [<-|H6].
  - reflexivity.
  - destruct (String.eqb "2024-01-07" k); reflexivity.
Defined.

(** X24 ([summarizeForecast], the current day).  As soon as a kept point
    falls on another day, the points of the current local day have no
    effect: leaving them out of the list gives the same summaries. *)
Theorem summarizeForecast_today_ignored :
  forall labelFromKey items tz days now,
    (exists it,
        In it items /\ kept it = true
        /\ dayKeyFromUtcWithOffset (dt it) tz <> dayKeyFromUtcWithOffset now tz) ->
    summarizeForecast labelFromKey
      (filter (fun it =>
                 negb (String.eqb (dayKeyFromUtcWithOffset (dt it) tz)
                         (dayKeyFromUtcWithOffset now tz)))
         items)
      tz days now
    = summarizeForecast labelFromKey items tz days now.
Proof.
  intros labelFromKey items tz days now [it0 [Hi0 [Hk0 Hd0]]].
  set (nowKey := dayKeyFromUtcWithOffset now tz) in *.
  change (filter _ items) with (filter (off_day tz nowKey) items).
  assert (Hkeys : forall k,
             In k (map_keys (build_days tz (filter (off_day tz nowKey) items)))
             <-> In k (map_keys (build_days tz items)) /\ k <> nowKey).
  { intros k. rewrite !build_has_bucket, day_points_off_day.
    destruct (String.eqb_spec k nowKey) as [->|Hn].
    - split; [intros Hc; now contradiction Hc|intros [_ Hc]; now contradiction Hc].
    - split; [intros H; now split|intros [H _]; exact H]. }
  assert (H0 : In (dayKeyFromUtcWithOffset (dt it0) tz) (map_keys (build_days tz items))).
  { apply build_has_bucket. intros E.
    assert (Hin : In it0 (day_points tz (dayKeyFromUtcWithOffset (dt it0) tz) items)).
    { unfold day_points. apply filter_In. split; [exact Hi0|].
      rewrite Hk0. unfold day_of. now rewrite String.eqb_refl. }
    now rewrite E in Hin. }
  apply summarize_same.
  - intros k. fold nowKey. rewrite !remaining_In, Hkeys. split.
    + intros [[Hk Hn] _]. split; [exact Hk|now left].
    + intros [Hk [Hn|Ha]].
      * split; [now split|now left].
      * exfalso. apply Hd0. now apply Ha.
  - intros k. fold nowKey. rewrite remaining_In, Hkeys. intros [[_ Hn] _].
    rewrite day_points_off_day.
    now rewrite (proj2 (String.eqb_neq k nowKey) Hn).
Qed.

Lemma summarizeForecast_today_ignored_witness :
  summarizeForecast (fun k => k)
    (filter (fun it =>
               negb (String.eqb (dayKeyFromUtcWithOffset (dt it) 0)
                       (dayKeyFromUtcWithOffset 1704484800 0)))
       sample_forecast)
    0 3 1704484800
  = summarizeForecast (fun k => k) sample_forecast 0 3 1704484800.
Proof.
  apply (summarizeForecast_today_ignored (fun k => k) sample_forecast 0 3 1704484800).
  exists (sample_point 1704585600 (36 # 1) (45 # 1) "clear sky" (0 # 1)).
  split; [right; right; right; left; reflexivity|].
  split; [reflexivity|]. vm_compute. discriminate.
Defined.
